(** * Verification of the knowledge-engine core of pulsen-ai-backend

    Shallow embedding of
    - [services/ingestion.py]: the chunk builder [_split_into_chunks], the
      embedding cache gateway [_get_or_create_embedding] and the ingestion
      pipeline [ingest_document];
    - [services/query.py]: [_rerank], [_determine_confidence],
      [_is_weak_match], [_build_context] and [process_query];
    - the constants of [core/config.py].

    Python [int] is modelled as [nat] (token counts, indices) or [Z] (page
    numbers). A Python [float] score is modelled by the rational [Q] it
    denotes; the float arithmetic of [_determine_confidence] is modelled by
    IEEE 754 binary64 rounding (module [Float64]). *)

From Stdlib Require Import List String Ascii ZArith QArith Qround Qpower Lia Bool.
From Stdlib Require Import Permutation Sorted DecimalString.
Import ListNotations.

Open Scope list_scope.

(** ** core/config.py *)

Definition CHUNK_TARGET_TOKENS : nat := 1000.
Definition CHUNK_OVERLAP_TOKENS : nat := 125.
Definition CHUNK_MAX_TOKENS : nat := 1200.
Definition RETRIEVAL_TOP_K : nat := 6.
Definition RETRIEVAL_SCORE_THRESHOLD : Q := 30 # 100.
Definition WEAK_MATCH_SCORE_THRESHOLD : Q := 50 # 100.
Definition EMBEDDING_MODEL : string := "text-embedding-3-small".

(** ** services/ingestion.py: the chunk builder *)

Module Chunking.

(** A sentence unit [(sent, page_num)] as built on lines 85-91 of
    [_split_into_chunks] from the page map. *)
Definition sentence : Type := (string * Z)%type.

(** A closed accumulator: the sentences, running token count and index the
    code has in hand when it appends a chunk dict (lines 101-111, 128-137). *)
Record closed := mk_closed {
  cl_index : nat;
  cl_sentences : list sentence;
  cl_tokens : nat
}.

(** The chunk dict appended to [chunks]. *)
Record chunk := mk_chunk {
  chunk_index : nat;
  content : string;
  content_tokens : nat;
  page_start : Z;
  page_end : Z
}.

(** Python [min] / [max] over a non-empty list of ints. *)
Fixpoint list_min (l : list Z) : Z :=
  match l with
  | [] => 0%Z
  | [x] => x
  | x :: t => Z.min x (list_min t)
  end.

Fixpoint list_max (l : list Z) : Z :=
  match l with
  | [] => 0%Z
  | [x] => x
  | x :: t => Z.max x (list_max t)
  end.

(** The chunk dict built from a closed accumulator (lines 102-110). *)
Definition make_chunk (c : closed) : chunk :=
  let pages := map snd (cl_sentences c) in
  {| chunk_index := cl_index c;
     content := String.concat " " (map fst (cl_sentences c));
     content_tokens := cl_tokens c;
     page_start := list_min pages;
     page_end := list_max pages |}.

Section Builder.

(** [_count_tokens]: the tiktoken encoding of gpt-4o, left abstract. *)
Variable count_tokens : string -> nat.

Fixpoint tokens_of (l : list sentence) : nat :=
  match l with
  | [] => 0
  | (s, _) :: t => count_tokens s + tokens_of t
  end.

(** Lines 113-121: walk [reversed(current_sentences)], inserting at the
    front of [overlap_sentences] while the overlap total stays within
    [CHUNK_OVERLAP_TOKENS], and [break] at the first sentence that does not
    fit. *)
Fixpoint overlap_walk (rev_sents : list sentence) (overlap_sentences : list sentence)
    (overlap_tokens : nat) : list sentence * nat :=
  match rev_sents with
  | [] => (overlap_sentences, overlap_tokens)
  | (s, p) :: rest =>
      let t := count_tokens s in
      if overlap_tokens + t <=? CHUNK_OVERLAP_TOKENS
      then overlap_walk rest ((s, p) :: overlap_sentences) (overlap_tokens + t)
      else (overlap_sentences, overlap_tokens)
  end.

Definition overlap_of (current_sentences : list sentence) : list sentence * nat :=
  overlap_walk (rev current_sentences) [] 0.

(** The loop state of lines 93-96. *)
Record builder := mk_builder {
  b_chunks : list closed;
  b_tokens : nat;
  b_sentences : list sentence;
  b_index : nat
}.

Definition builder_init : builder := mk_builder [] 0 [] 0.

Definition close (b : builder) : closed :=
  mk_closed (b_index b) (b_sentences b) (b_tokens b).

Definition nonempty {A} (l : list A) : bool :=
  match l with [] => false | _ => true end.

(** One iteration of the [for sent, page_num in sentences] loop
    (lines 98-126). *)
Definition step (b : builder) (sp : sentence) : builder :=
  let sent_tokens := count_tokens (fst sp) in
  let b' :=
    if (CHUNK_MAX_TOKENS <? b_tokens b + sent_tokens) && nonempty (b_sentences b)
    then
      let (ov, ovt) := overlap_of (b_sentences b) in
      mk_builder (b_chunks b ++ [close b]) ovt ov (S (b_index b))
    else b in
  mk_builder (b_chunks b') (b_tokens b' + sent_tokens)
             (b_sentences b' ++ [sp]) (b_index b').

(** Lines 128-137: close the last accumulator if it is non-empty. *)
Definition finish (b : builder) : list closed :=
  if nonempty (b_sentences b) then b_chunks b ++ [close b] else b_chunks b.

Definition build_chunks (sentences : list sentence) : list closed :=
  finish (fold_left step sentences builder_init).

(** [_split_into_chunks], from the sentence list on. *)
Definition split_into_chunks (sentences : list sentence) : list chunk :=
  map make_chunk (build_chunks sentences).

End Builder.

End Chunking.

(** ** services/ingestion.py: embedding cache gateway and ingestion *)

Module Store.

Import Chunking.

(** A row of the [embeddings_cache] table (line 168). *)
Record cache_row := mk_cache_row {
  cr_content_hash : string;
  cr_embedding : list Q;
  cr_tokens : nat;
  cr_model_version : string
}.

(** A row of the [knowledge_chunks] table (lines 209-219). *)
Record chunk_row := mk_chunk_row {
  kr_document_id : string;
  kr_chunk_index : nat;
  kr_content : string;
  kr_content_hash : string;
  kr_content_tokens : nat;
  kr_page_start : option Z;
  kr_page_end : option Z;
  kr_embedding : option (list Q)
}.

(** The world the ingestion code talks to: the two Supabase tables, the log
    of embedding requests sent to OpenAI, and whether the table inserts
    succeed (an insert that fails raises from [.execute()]). *)
Record world := mk_world {
  embeddings_cache : list cache_row;
  knowledge_chunks : list chunk_row;
  embed_requests : list string;
  cache_insert_fails : bool;
  chunks_insert_fails : bool
}.

(** Python exceptions raised by the collaborators. *)
Inductive exc := APIError (table : string).

(** Async code with exceptions over the shared world: a state and error
    monad. Effects performed before an exception persist. *)
Definition M (A : Type) : Type := world -> (exc + A) * world.

Definition ret {A} (a : A) : M A := fun w => (inr a, w).

Definition bind {A B} (m : M A) (k : A -> M B) : M B :=
  fun w => match m w with
           | (inl e, w') => (inl e, w')
           | (inr a, w') => k a w'
           end.

Notation "x <- m ;; k" := (bind m (fun x => k))
  (at level 61, m at next level, right associativity).

Fixpoint map_m {A B} (f : A -> M B) (l : list A) : M (list B) :=
  match l with
  | [] => ret []
  | x :: t => y <- f x ;; ys <- map_m f t ;; ret (y :: ys)
  end.

(** [supabase.table("embeddings_cache").select("embedding")
      .eq("content_hash", h).execute().data]. *)
Definition select_cache (h : string) : M (list (list Q)) :=
  fun w => (inr (map cr_embedding
                   (filter (fun r => String.eqb (cr_content_hash r) h)
                           (embeddings_cache w))), w).

Definition insert_cache (r : cache_row) : M unit :=
  fun w => if cache_insert_fails w
           then (inl (APIError "embeddings_cache"), w)
           else (inr tt, mk_world (embeddings_cache w ++ [r]) (knowledge_chunks w)
                                  (embed_requests w) (cache_insert_fails w)
                                  (chunks_insert_fails w)).

Definition insert_chunks (rs : list chunk_row) : M unit :=
  fun w => if chunks_insert_fails w
           then (inl (APIError "knowledge_chunks"), w)
           else (inr tt, mk_world (embeddings_cache w) (knowledge_chunks w ++ rs)
                                  (embed_requests w) (cache_insert_fails w)
                                  (chunks_insert_fails w)).

Section Gateway.

Variable count_tokens : string -> nat.
(** The vectors OpenAI returns for a text. *)
Variable embedder : string -> list Q.
(** [hashlib.sha256(...).hexdigest()]. *)
Variable sha256_hex : string -> string.

(** [embedder.embed_query(content)]: one embedding request. *)
Definition embed_query (c : string) : M (list Q) :=
  fun w => (inr (embedder c),
            mk_world (embeddings_cache w) (knowledge_chunks w)
                     (embed_requests w ++ [c]) (cache_insert_fails w)
                     (chunks_insert_fails w)).

(** [_get_or_create_embedding] (lines 144-175); [provider] is
    [EMBEDDING_PROVIDER]. *)
Definition get_or_create_embedding (provider content content_hash : string)
    : M (option (list Q)) :=
  if negb (String.eqb provider "openai") then ret None else
  data <- select_cache content_hash ;;
  match data with
  | v :: _ => ret (Some v)
  | [] =>
      embedding <- embed_query content ;;
      let token_count := count_tokens content in
      _ <- insert_cache (mk_cache_row content_hash embedding token_count EMBEDDING_MODEL) ;;
      ret (Some embedding)
  end.

(** Lines 203-221: the row of one chunk. *)
Definition chunk_to_row (provider document_id : string) (ch : chunk)
    : M chunk_row :=
  let c := content ch in
  let h := sha256_hex c in
  embedding <- get_or_create_embedding provider c h ;;
  ret (mk_chunk_row document_id (chunk_index ch) c h (content_tokens ch)
                    (Some (page_start ch)) (Some (page_end ch)) embedding).

(** [ingest_document] (lines 180-230), from the sentence list produced by
    text extraction and sentence segmentation on. *)
Definition ingest_document (provider document_id : string)
    (sentences : list sentence) : M nat :=
  let chunks := split_into_chunks count_tokens sentences in
  rows <- map_m (chunk_to_row provider document_id) chunks ;;
  _ <- (if nonempty rows then insert_chunks rows else ret tt) ;;
  ret (List.length rows).

End Gateway.

End Store.

(** ** Python floats *)

Module Float64.
Local Open Scope Q_scope.

(** A Python [float] is an IEEE 754 binary64 double: a finite double is the
    rational it denotes, besides the two infinities and NaN. *)

Inductive float := Fin (v : Q) | Inf (negative : bool) | NaN.

(** [2 ^ e] for any integer [e]. *)
Definition pow2 (e : Z) : Q := Qpower (2 # 1) e.

(** The integer nearest to [x], ties to the even one. *)
Definition rne (x : Q) : Z :=
  let f := Qfloor x in
  match Qcompare (x - inject_Z f) (1 # 2) with
  | Lt => f
  | Gt => (f + 1)%Z
  | Eq => if Z.even f then f else (f + 1)%Z
  end.

(** For [x > 0], the [e] with [2 ^ e <= x < 2 ^ (e + 1)]. *)
Definition mag (x : Q) : Z :=
  let e := (Z.log2 (Qnum x) - Z.log2 (Zpos (Qden x)))%Z in
  if Qle_bool (pow2 e) x then e else (e - 1)%Z.

(** The exponent of the last of the 53 significant bits of a double in the
    binade of [x]; subnormals stop at [2 ^ -1074]. *)
Definition quantum_exp (x : Q) : Z := Z.max (mag x - 52) (-1074).

Definition round_to (e : Z) (x : Q) : Q := inject_Z (rne (x / pow2 e)) * pow2 e.

(** Rounding a positive rational to the nearest double, ties to even; a
    result of [2 ^ 1024] or more overflows to infinity. *)
Definition round_pos (x : Q) : float :=
  let v := round_to (quantum_exp x) x in
  if Qle_bool (pow2 1024) v then Inf false else Fin v.

Definition fneg (f : float) : float :=
  match f with Fin v => Fin (- v) | Inf s => Inf (negb s) | NaN => NaN end.

(** The double nearest to the rational [x]: the result of every float
    operation below on exact operands, and the value Python gives a decimal
    literal such as [0.1]. *)
Definition round (x : Q) : float :=
  match Qcompare x 0 with
  | Eq => Fin 0
  | Gt => round_pos x
  | Lt => fneg (round_pos (- x))
  end.

(** [x + y]. *)
Definition fadd (x y : float) : float :=
  match x, y with
  | NaN, _ | _, NaN => NaN
  | Inf s, Inf t => if Bool.eqb s t then Inf s else NaN
  | Inf s, Fin _ | Fin _, Inf s => Inf s
  | Fin a, Fin b => round (a + b)
  end.

(** [x / n] for an [int] [n] (a [len]): [n] converts to a double exactly
    below [2 ^ 53]. *)
Definition fdiv_count (x : float) (n : nat) : float :=
  match x with
  | Fin a => round (a / inject_Z (Z.of_nat n))
  | Inf s => Inf s
  | NaN => NaN
  end.

(** [x <= y]; every comparison with NaN is false. *)
Definition fle (x y : float) : bool :=
  match x, y with
  | NaN, _ | _, NaN => false
  | Inf true, _ => true
  | _, Inf false => true
  | Inf false, _ => false
  | _, Inf true => false
  | Fin a, Fin b => Qle_bool a b
  end.

(** [x >= y]. *)
Definition fge (x y : float) : bool := fle y x.

(** The rational [q] is a double. *)
Definition is_double (q : Q) : bool :=
  match round q with Fin v => Qeq_bool v q | _ => false end.

End Float64.

(** ** services/query.py *)

Module Query.

Import Chunking Float64.

Definition RETRIEVAL_INITIAL_K : nat := 30.
Definition RERANK_FINAL_K : nat := RETRIEVAL_TOP_K.

Definition NO_ANSWER : string := "ospecificerat i underlaget".

(** A candidate row returned by the retrieval RPCs. Optional fields are the
    keys read with [.get]; [None] is an absent key (or SQL NULL). *)
Record candidate := mk_candidate {
  chunk_id : string;
  document_id : string;
  document_title : string;
  document_version : option string;
  cand_content : string;
  score : option Q;
  cand_page_start : option Z;
  cand_page_end : option Z;
  section : option string
}.

(** [c.get("score", 0)]. *)
Definition get_score (c : candidate) : Q :=
  match score c with Some q => q | None => 0 end.

Definition Qltb (a b : Q) : bool := negb (Qle_bool b a).

(** [sorted(candidates, key=lambda c: c.get("score", 0), reverse=True)].
    Python's [sorted] is stable and [reverse=True] keeps equal keys in their
    original order; a stable sort has exactly one result, computed here by
    insertion: each candidate goes before the first later candidate whose
    score is not greater than its own. *)
Fixpoint insert_desc (x : candidate) (l : list candidate) : list candidate :=
  match l with
  | [] => [x]
  | y :: t =>
      if Qle_bool (get_score y) (get_score x) then x :: y :: t
      else y :: insert_desc x t
  end.

Fixpoint sorted_desc (l : list candidate) : list candidate :=
  match l with
  | [] => []
  | x :: t => insert_desc x (sorted_desc t)
  end.

(** [_rerank] (lines 150-157). *)
Definition rerank (candidates : list candidate) : list candidate :=
  firstn RERANK_FINAL_K (sorted_desc candidates).

(** [sum(c.get("score", 0) for c in chunks)]: float additions from left to
    right, starting from the [int] [0]. A score is the double its JSON
    number parses to; the [int] [0] and [int] scores add exactly while the
    sum stays below [2 ^ 53], as the rounding does. *)
Definition sum_scores (chunks : list candidate) : float :=
  fold_left (fun acc c => fadd acc (round (get_score c))) chunks (Fin 0).

(** [sum(...) / len(chunks)]. *)
Definition avg_score (chunks : list candidate) : float :=
  fdiv_count (sum_scores chunks) (List.length chunks).

(** [_determine_confidence] (lines 205-226); [provider] is
    [EMBEDDING_PROVIDER]; the literals [0.1], [0.01], [0.75] and [0.50] are
    the doubles nearest to them. *)
Definition determine_confidence (provider : string) (chunks : list candidate)
    : string :=
  match chunks with
  | [] => "low"
  | _ =>
      let avg_score := avg_score chunks in
      if String.eqb provider "fulltext" then
        if fge avg_score (round (1 # 10)) then "high"
        else if fge avg_score (round (1 # 100)) then "medium"
        else "low"
      else
        if fge avg_score (round (75 # 100)) then "high"
        else if fge avg_score (round (50 # 100)) then "medium"
        else "low"
  end.

(** [max(c.get("score", 0) for c in reranked)] on a non-empty list: the
    running maximum is replaced only by a strictly greater score. *)
Definition max_score (reranked : list candidate) : Q :=
  match reranked with
  | [] => 0
  | c :: t => fold_left (fun m c' => if Qltb m (get_score c') then get_score c' else m)
                        t (get_score c)
  end.

(** [_is_weak_match] (lines 162-182). *)
Definition is_weak_match (provider : string) (reranked : list candidate)
    (confidence : string) : bool :=
  if String.eqb confidence "low" then true else
  match reranked with
  | [] => true
  | _ =>
      if String.eqb provider "openai" then
        if Qltb (max_score reranked) WEAK_MATCH_SCORE_THRESHOLD then true else false
      else false
  end.

(** Decimal rendering of a Python [int] in an f-string. *)
Definition z_str (z : Z) : string :=
  DecimalString.NilZero.string_of_int (Z.to_int z).

Definition nl : string := String (ascii_of_nat 10) EmptyString.
Definition dq : string := String (ascii_of_nat 34) EmptyString.

(** Truthiness of [chunk.get("page_start")] / [chunk.get("page_end")]. *)
Definition truthy (o : option Z) : bool :=
  match o with Some z => negb (Z.eqb z 0) | None => false end.

(** Lines 191-195: the page reference of one block. *)
Definition page_info (chunk : candidate) : string :=
  match cand_page_start chunk with
  | Some ps =>
      if truthy (cand_page_start chunk) then
        (", sida " ++ z_str ps ++
         match cand_page_end chunk with
         | Some pe => if truthy (cand_page_end chunk) && negb (Z.eqb pe ps)
                      then "-" ++ z_str pe else EmptyString
         | None => EmptyString
         end)%string
      else EmptyString
  | None => EmptyString
  end.

(** Lines 196-201: the block of the [i]-th chunk. *)
Definition context_block (i : nat) (chunk : candidate) : string :=
  ("[" ++ z_str (Z.of_nat i) ++ "] " ++ document_title chunk ++ " " ++
   "(v" ++ match document_version chunk with Some v => v | None => "?" end ++
   page_info chunk ++ ")" ++ nl ++
   "Chunk ID: " ++ chunk_id chunk ++ nl ++
   cand_content chunk)%string.

Definition context_delimiter : string := (nl ++ nl ++ "---" ++ nl ++ nl)%string.

(** The [for i, chunk in enumerate(chunks, 1)] loop appending to [parts]. *)
Fixpoint context_parts_from (parts : list string) (i : nat) (chunks : list candidate)
    : list string :=
  match chunks with
  | [] => parts
  | c :: t => context_parts_from (parts ++ [context_block i c]) (S i) t
  end.

(** [_build_context] (lines 187-202). *)
Definition build_context (chunks : list candidate) : string :=
  String.concat context_delimiter (context_parts_from [] 1 chunks).

Definition MODE_INSTRUCTIONS (mode : string) : option string :=
  if String.eqb mode "technical" then
    Some "Du är en teknisk expert på energisystem. Svara med tekniska termer, mätvärden, integrationskrav, risker, cybersäkerhet och regelverk. Var precis och detaljerad."%string
  else if String.eqb mode "sales" then
    Some "Du är en säljrådgivare. Förklara kundvärde i enkel svenska. Lyft fördelar, riskkontroll och varför Solpulsen är det bästa valet. Håll det kortfattat och övertygande."%string
  else if String.eqb mode "investor" then
    Some "Du är en affärsanalytiker. Fokusera på marknadspotential, competitive moat, skalbarhet, compliance, riskprofil och intäktsspår. Var strukturerad och faktabaserad."%string
  else None.

(** [SYSTEM_PROMPT_TEMPLATE.format(mode_instruction=..., context=...)]. *)
Definition system_prompt (mode_instruction context : string) : string :=
  ("Du är Pulsen A.I. Knowledge Engine, ett internt kunskapssystem för Solpulsen." ++ nl ++ nl ++
   mode_instruction ++ nl ++ nl ++
   "REGLER SOM ALDRIG FÅR BRYTAS:" ++ nl ++
   "1. Svara ENDAST baserat på den kontext som tillhandahålls nedan." ++ nl ++
   "2. Om informationen saknas i kontexten, skriv exakt: " ++ dq ++ NO_ANSWER ++ dq ++ nl ++
   "3. Inga gissningar, inga antaganden, ingen information utanför kontexten." ++ nl ++
   "4. Skriv alltid på svenska." ++ nl ++
   "5. Ingen fluff. Var koncis och faktabaserad." ++ nl ++
   "6. Avsluta alltid svaret med en källförteckning i formatet:" ++ nl ++
   "   KÄLLOR:" ++ nl ++
   "   - [Dokumenttitel, version, sida X-Y, Chunk ID: <id>]" ++ nl ++ nl ++
   "KONTEXT:" ++ nl ++ context)%string.

Record citation_item := mk_citation {
  ci_chunk_id : string;
  ci_document_id : string;
  ci_document_title : string;
  ci_document_version : option string;
  ci_page_start : option Z;
  ci_page_end : option Z;
  ci_section : option string;
  ci_content_preview : string
}.

Record retrieved_chunk := mk_retrieved {
  rc_chunk_id : string;
  rc_document_id : string;
  rc_document_title : string;
  rc_content : string;
  rc_score : Q;
  rc_rank : nat;
  rc_page_start : option Z;
  rc_page_end : option Z;
  rc_section : option string
}.

Definition to_citation (c : candidate) : citation_item :=
  mk_citation (chunk_id c) (document_id c) (document_title c) (document_version c)
              (cand_page_start c) (cand_page_end c) (section c)
              (substring 0 300 (cand_content c)).

Definition to_retrieved (i : nat) (c : candidate) : retrieved_chunk :=
  mk_retrieved (chunk_id c) (document_id c) (document_title c) (cand_content c)
               (get_score c) (S i) (cand_page_start c) (cand_page_end c) (section c).

Fixpoint enumerate_retrieved (i : nat) (l : list candidate) : list retrieved_chunk :=
  match l with
  | [] => []
  | c :: t => to_retrieved i c :: enumerate_retrieved (S i) t
  end.

Record query_response := mk_response {
  answer : string;
  citations : list citation_item;
  retrieved_chunks : list retrieved_chunk;
  confidence : string
}.

(** The observable calls of one query: context building, the
    [chat_completion] request, and the best-effort log write. *)
Inductive event :=
  | EvBuildContext (context : string)
  | EvChat (system : string) (question : string)
  | EvLog (answer : string).

(** [process_query] (lines 282-382) after retrieval: [candidates] is the
    result of [_retrieve_candidates] and [chat_completion] the generation
    collaborator. Returns the response and the calls made, in order. *)
Definition process_query (provider : string)
    (chat_completion : string -> string -> string)
    (candidates : list candidate) (question mode : string)
    : query_response * list event :=
  let reranked := rerank candidates in
  let conf := determine_confidence provider reranked in
  if negb (nonempty reranked) || is_weak_match provider reranked conf then
    (mk_response NO_ANSWER [] [] conf, [EvLog NO_ANSWER])
  else
    let context := build_context reranked in
    let mode_instruction :=
      match MODE_INSTRUCTIONS mode with
      | Some m => m
      | None => match MODE_INSTRUCTIONS "technical" with Some m => m | None => EmptyString end
      end in
    let sys := system_prompt mode_instruction context in
    let ans := chat_completion sys question in
    (mk_response ans (map to_citation reranked) (enumerate_retrieved 0 reranked) conf,
     [EvBuildContext context; EvChat sys question; EvLog ans]).

End Query.

(** ** services/ingestion.py: text extraction and sentence segmentation *)

Module Text.

Import Chunking.
Local Open Scope Z_scope.

(** Python [str] values that the code inspects character by character are
    modelled as lists of Unicode code points. *)
Definition char : Type := Z.
Definition text : Type := list char.

(** [str.isspace], which is also what [\s] matches in a [str] pattern of the
    [re] module. *)
Definition is_space (c : char) : bool :=
  ((9 <=? c) && (c <=? 13)) || ((28 <=? c) && (c <=? 32)) ||
  (c =? 133) || (c =? 160) || (c =? 5760) || ((8192 <=? c) && (c <=? 8202)) ||
  (c =? 8232) || (c =? 8233) || (c =? 8239) || (c =? 8287) || (c =? 12288).

(** The code points of an ASCII literal. *)
Definition lit (s : string) : text :=
  map (fun a => Z.of_nat (nat_of_ascii a)) (list_ascii_of_string s).

Definition teqb (a b : text) : bool := if list_eq_dec Z.eq_dec a b then true else false.

(** [str.strip()]. *)
Fixpoint lstrip (s : text) : text :=
  match s with
  | c :: t => if is_space c then lstrip t else s
  | [] => []
  end.

Definition rstrip (s : text) : text := rev (lstrip (rev s)).

Definition strip (s : text) : text := rstrip (lstrip s).

(** [sep.join(parts)]. *)
Fixpoint join (sep : text) (parts : list text) : text :=
  match parts with
  | [] => []
  | [x] => x
  | x :: t => x ++ sep ++ join sep t
  end.

Definition NEWLINE : char := 10.

(** [re.split(r"(?<=[.!?])\s+", s)]: a match starts at a whitespace
    character preceded by one of [.!?] and takes the whole whitespace run.
    [prev_term] records whether the previous character is one of [.!?],
    [in_match] whether the scan is inside a match, [cur] the piece being
    read. *)
Definition is_term (c : char) : bool := (c =? 46) || (c =? 33) || (c =? 63).

Fixpoint re_split_term (prev_term in_match : bool) (cur : text) (s : text) : list text :=
  match s with
  | [] => [cur]
  | c :: t =>
      if in_match && is_space c then re_split_term false true cur t
      else if negb in_match && prev_term && is_space c
      then cur :: re_split_term false true [] t
      else re_split_term (is_term c) false (cur ++ [c]) t
  end.

Definition split_sentences (s : text) : list text := re_split_term false false [] s.

(** Lines 86-91 of [_split_into_chunks] for one page: strip every piece and
    keep the non-empty ones, tagged with the page number. *)
Definition page_sentences (page_num : Z) (page_text : text) : list (text * Z) :=
  map (fun sent => (sent, page_num)) (filter nonempty (map strip (split_sentences page_text))).

(** Lines 85-91: the sentence units of a page map [[{page, text}]]. *)
Definition sentences_of (page_map : list (Z * text)) : list (text * Z) :=
  flat_map (fun page_info => page_sentences (fst page_info) (snd page_info)) page_map.

(** The UTF-8 encoding of a code point, and of a [str]: the [string] the
    chunk builder works on is the encoded sentence. *)
Definition utf8_char (c : char) : list Z :=
  if c <? 128 then [c]
  else if c <? 2048 then [192 + c / 64; 128 + c mod 64]
  else if c <? 65536 then [224 + c / 4096; 128 + (c / 64) mod 64; 128 + c mod 64]
  else [240 + c / 262144; 128 + (c / 4096) mod 64; 128 + (c / 64) mod 64; 128 + c mod 64].

Definition encode (s : text) : string :=
  string_of_list_ascii (map (fun b => ascii_of_nat (Z.to_nat b)) (flat_map utf8_char s)).

(** [_split_into_chunks(text, page_map)] (lines 80-139): the [text] argument
    is not read. *)
Definition split_text_into_chunks (count_tokens : string -> nat) (full_text : text)
    (page_map : list (Z * text)) : list chunk :=
  split_into_chunks count_tokens
    (map (fun sp => (encode (fst sp), snd sp)) (sentences_of page_map)).

(** [re.sub(r"<[^>]+>", " ", text)] (line 68). [buf] is [Some b] while the
    scan is inside a candidate tag whose characters after [<] are [b]: the
    first [>] closes it, and a tag needs at least one character between the
    brackets; at the end of the text an unclosed candidate is kept as is. *)
Definition LT : char := 60.
Definition GT : char := 62.
Definition SPACE : char := 32.

Fixpoint sub_tags (buf : option text) (s : text) : text :=
  match s with
  | [] => match buf with None => [] | Some b => LT :: b end
  | c :: t =>
      match buf with
      | None => if c =? LT then sub_tags (Some []) t else c :: sub_tags None t
      | Some b =>
          if c =? GT then
            match b with
            | [] => LT :: GT :: sub_tags None t
            | _ => SPACE :: sub_tags None t
            end
          else sub_tags (Some (b ++ [c])) t
      end
  end.

Definition strip_tags (s : text) : text := sub_tags None s.

(** [extract_text_from_pdf] (lines 35-43): [pages] holds what
    [page.extract_text()] returns for each page of the reader ([None] when
    PyPDF2 returns [None]); [i] is the index of the first page of [pages]. *)
Fixpoint pdf_pages_from (i : nat) (pages : list (option text)) : list (Z * text) :=
  match pages with
  | [] => []
  | p :: t =>
      let page_text := match p with Some x => x | None => [] end in
      if nonempty (strip page_text)
      then (Z.of_nat (S i), page_text) :: pdf_pages_from (S i) t
      else pdf_pages_from (S i) t
  end.

Definition extract_text_from_pdf (pages : list (option text)) : list (Z * text) :=
  pdf_pages_from 0 pages.

(** [extract_text_from_docx] (lines 46-49), from the paragraphs' texts. *)
Definition extract_text_from_docx (paragraphs : list text) : text :=
  join [NEWLINE] (filter (fun para => nonempty (strip para)) paragraphs).

(** [name.rsplit(".", 1)[-1]]: what follows the last [.], or the whole
    name when there is none. *)
Fixpoint take_until_dot (rev_s : text) : text :=
  match rev_s with
  | [] => []
  | c :: t => if c =? 46 then [] else c :: take_until_dot t
  end.

Definition rsplit_dot_last (s : text) : text := rev (take_until_dot (rev s)).

(** The exceptions [extract_text] can raise: its own [ValueError], and
    whatever PyPDF2 or python-docx raise on bytes they cannot read (a
    legacy binary [.doc], a damaged file). *)
Inductive extract_error :=
  | ValueError (message : text)
  | PdfReaderError
  | DocxReaderError.

Section Extract.

(** The bytes of an upload, and the libraries the code hands them to:
    [str.lower]; PyPDF2, [PdfReader] and then [page.extract_text()] of every
    page, [None] when one of them raises; python-docx, the paragraphs'
    texts of [DocxDocument], [None] when it raises; and
    [bytes.decode("utf-8", errors="replace")], which does not raise. *)
Variable bytes : Type.
Variable lower : text -> text.
Variable pdf_reader : bytes -> option (list (option text)).
Variable docx_reader : bytes -> option (list text).
Variable decode_utf8 : bytes -> text.

(** [extract_text] (lines 52-71): the full text and the page map. *)
Definition extract_text (file_bytes : bytes) (filename : text)
    : extract_error + (text * list (Z * text)) :=
  let ext := rsplit_dot_last (lower filename) in
  if teqb ext (lit "pdf") then
    match pdf_reader file_bytes with
    | Some raw_pages =>
        let pages := extract_text_from_pdf raw_pages in
        inr (join [NEWLINE] (map snd pages), pages)
    | None => inl PdfReaderError
    end
  else if teqb ext (lit "docx") || teqb ext (lit "doc") then
    match docx_reader file_bytes with
    | Some paragraphs =>
        let t := extract_text_from_docx paragraphs in
        inr (t, [(1, t)])
    | None => inl DocxReaderError
    end
  else if teqb ext (lit "md") || teqb ext (lit "txt") || teqb ext (lit "html") then
    let t0 := decode_utf8 file_bytes in
    let t := if teqb ext (lit "html") then strip_tags t0 else t0 in
    inr (t, [(1, t)])
  else inl (ValueError (lit "Unsupported file type: " ++ ext)).

End Extract.

(** [s.split(",")]. *)
Fixpoint split_on_aux (sep : char) (cur : text) (s : text) : list text :=
  match s with
  | [] => [cur]
  | c :: t => if c =? sep then cur :: split_on_aux sep [] t else split_on_aux sep (cur ++ [c]) t
  end.

Definition split_on (sep : char) (s : text) : list text := split_on_aux sep [] s.

Definition COMMA : char := 44.

(** routers/documents.py, [upload_document] (lines 74-81): the collection
    ids linked to the new document, in insertion order. *)
Definition collection_links (collection_ids : option text) : list text :=
  match collection_ids with
  | Some ids =>
      if nonempty ids then filter nonempty (map strip (split_on COMMA ids)) else []
  | None => []
  end.

End Text.

(** ** dependencies/auth.py *)

Module Auth.

Import Chunking Text.

Inductive http_error := HTTPException (status_code : nat) (detail : string).

Fixpoint starts_with (prefix s : text) : bool :=
  match prefix, s with
  | [], _ => true
  | p :: pt, c :: t => Z.eqb p c && starts_with pt t
  | _ :: _, [] => false
  end.

(** [s.removeprefix(prefix)]. *)
Definition removeprefix (prefix s : text) : text :=
  if starts_with prefix s then skipn (List.length prefix) s else s.

(** [get_bearer_token] (lines 17-38): the token, or the HTTP 401 raised. *)
Definition get_bearer_token (authorization : text) : http_error + text :=
  if negb (starts_with (lit "Bearer ") authorization) then
    inl (HTTPException 401 "Authorization header must start with 'Bearer '")
  else
    let token := strip (removeprefix (lit "Bearer ") authorization) in
    if negb (nonempty token) then inl (HTTPException 401 "Bearer token is empty")
    else inr token.

End Auth.

(** ** services/query.py: retrieval and best-effort logging *)

Module Pipeline.

Import Chunking Query.

(** The two retrieval RPCs with their parameters. *)
Inductive rpc_call :=
  | match_knowledge_chunks (query_embedding : list Q) (collection_id_filter : string)
      (match_count : nat) (score_threshold : Q)
  | search_knowledge_chunks_fulltext (search_query : string)
      (collection_id_filter : string) (match_count : nat).

(** The outside calls of retrieval: an embedding request and an RPC made
    with the user's JWT. *)
Inductive retrieval_event :=
  | EvEmbedQuery (query : string)
  | EvRpc (jwt : string) (call : rpc_call).

Section Retrieval.

(** [embedder.embed_query], and the [data] of an RPC's result for a JWT. *)
Variable embedder : string -> list Q.
Variable rpc : string -> rpc_call -> option (list candidate).

(** [result.data or []]. *)
Definition data_or_empty (d : option (list candidate)) : list candidate :=
  match d with Some l => l | None => [] end.

(** [_retrieve_vector] (lines 79-103). *)
Definition retrieve_vector (question collection_id jwt : string)
    : list candidate * list retrieval_event :=
  let embedding := embedder question in
  let call := match_knowledge_chunks embedding collection_id RETRIEVAL_INITIAL_K
                                     RETRIEVAL_SCORE_THRESHOLD in
  (data_or_empty (rpc jwt call), [EvEmbedQuery question; EvRpc jwt call]).

(** [_retrieve_fulltext] (lines 108-129). *)
Definition retrieve_fulltext (question collection_id jwt : string)
    : list candidate * list retrieval_event :=
  let call := search_knowledge_chunks_fulltext question collection_id RETRIEVAL_INITIAL_K in
  (data_or_empty (rpc jwt call), [EvRpc jwt call]).

(** [_retrieve_candidates] (lines 134-147). *)
Definition retrieve_candidates (provider question collection_id jwt : string)
    : list candidate * list retrieval_event :=
  if String.eqb provider "fulltext" then retrieve_fulltext question collection_id jwt
  else retrieve_vector question collection_id jwt.

End Retrieval.

(** A row of [knowledge_queries] (lines 252-262). *)
Record query_row := mk_query_row {
  ql_id : string;
  ql_user_id : option string;
  ql_collection_id : string;
  ql_mode : string;
  ql_question : string;
  ql_answer : string;
  ql_answer_citations : list citation_item;
  ql_confidence : string;
  ql_latency_ms : nat
}.

(** A row of [knowledge_query_chunks] (lines 266-274). *)
Record query_chunk_row := mk_query_chunk_row {
  qc_query_id : string;
  qc_chunk_id : string;
  qc_rank : nat;
  qc_score : Q
}.

(** The logging tables, whether [get_admin_supabase()] succeeds (it raises
    when the service-role key is not set), and whether each insert fails. *)
Record log_world := mk_log_world {
  knowledge_queries : list query_row;
  knowledge_query_chunks : list query_chunk_row;
  admin_available : bool;
  queries_insert_fails : bool;
  query_chunks_insert_fails : bool
}.

Inductive log_exc := LogRuntimeError | LogAPIError (table : string).

(** [enumerate(reranked_chunks)] into association rows, rank [i + 1]. *)
Fixpoint query_chunk_rows (query_id : string) (i : nat) (l : list candidate)
    : list query_chunk_row :=
  match l with
  | [] => []
  | c :: t => mk_query_chunk_row query_id (chunk_id c) (S i) (get_score c)
              :: query_chunk_rows query_id (S i) t
  end.

(** The body of the [try] of [_log_query] (lines 249-275). *)
Definition log_body (query_id : string) (user_id : option string)
    (collection_id mode question answer : string) (citations : list citation_item)
    (confidence : string) (latency_ms : nat) (reranked_chunks : list candidate)
    (w : log_world) : (log_exc + unit) * log_world :=
  if negb (admin_available w) then (inl LogRuntimeError, w) else
  if queries_insert_fails w then (inl (LogAPIError "knowledge_queries"), w) else
  let row := mk_query_row query_id user_id collection_id mode question answer
                          citations confidence latency_ms in
  let w1 := mk_log_world (knowledge_queries w ++ [row]) (knowledge_query_chunks w)
                         (admin_available w) (queries_insert_fails w)
                         (query_chunks_insert_fails w) in
  if nonempty reranked_chunks then
    if query_chunks_insert_fails w1 then (inl (LogAPIError "knowledge_query_chunks"), w1)
    else (inr tt, mk_log_world (knowledge_queries w1)
                               (knowledge_query_chunks w1 ++
                                query_chunk_rows query_id 0 reranked_chunks)
                               (admin_available w1) (queries_insert_fails w1)
                               (query_chunks_insert_fails w1))
  else (inr tt, w1).

(** [_log_query] (lines 231-277): [except Exception] swallows any error,
    so only the writes made before it remain. *)
Definition log_query (query_id : string) (user_id : option string)
    (collection_id mode question answer : string) (citations : list citation_item)
    (confidence : string) (latency_ms : nat) (reranked_chunks : list candidate)
    (w : log_world) : log_world :=
  snd (log_body query_id user_id collection_id mode question answer citations
                confidence latency_ms reranked_chunks w).

(** [process_query] end to end (lines 282-382): retrieval, the answer, and
    the log write. The query id ([uuid4]), the user id taken from the JWT
    and the measured latency are inputs. *)
Definition run_query (provider : string) (embedder : string -> list Q)
    (rpc : string -> rpc_call -> option (list candidate))
    (chat_completion : string -> string -> string)
    (question collection_id mode jwt query_id : string) (user_id : option string)
    (latency_ms : nat) (w : log_world)
    : query_response * list retrieval_event * list event * log_world :=
  let (candidates, revs) := retrieve_candidates embedder rpc provider question collection_id jwt in
  let (resp, evs) := process_query provider chat_completion candidates question mode in
  let w' := log_query query_id user_id collection_id mode question (answer resp)
                      (citations resp) (confidence resp) latency_ms (rerank candidates) w in
  (resp, revs, evs, w').

End Pipeline.

(** ** Concrete inputs used by the witnesses and counterexamples *)

Module Fixtures.

Import Chunking.

(** A whitespace word counter, standing in for the tokenizer on texts made of
    repeated short words (tiktoken encodes each [" a"] as one token). *)
Fixpoint word_count_aux (in_word : bool) (s : string) : nat :=
  match s with
  | EmptyString => 0
  | String c t =>
      if Ascii.eqb c " "%char then word_count_aux false t
      else if in_word then word_count_aux true t
      else S (word_count_aux true t)
  end.

Definition word_count (s : string) : nat := word_count_aux false s.

(** ["a a ... a."] with [n + 1] words. *)
Fixpoint words (n : nat) : string :=
  match n with
  | O => "a."
  | S k => String "a"%char (String " "%char (words k))
  end.

(** A sentence of 100 tokens and one of 1150 tokens, both on page 1. *)
Definition s100 : sentence := (words 99, 1%Z).
Definition s1150 : sentence := (words 1149, 1%Z).

(** An empty database whose [embeddings_cache] inserts fail. *)
Definition failing_cache_world : Store.world := Store.mk_world [] [] [] true false.

(** An empty database where every insert succeeds. *)
Definition empty_world : Store.world := Store.mk_world [] [] [] false false.

Definition unit_embedder (_ : string) : list Q := [1%Q].
Definition id_hash (c : string) : string := c.

(** A retrieved candidate with a score and page numbers. *)
Definition cand (id : string) (s : Q) (ps pe : option Z) : Query.candidate :=
  Query.mk_candidate id "doc" "Title" (Some "1"%string) "text" (Some s) ps pe None.
End Fixtures.

(** ** Spec-side notions used in the statements *)

Module Specs.

Import Chunking.
Local Open Scope nat_scope.

Section ChunkSpecs.

Variable ct : string -> nat.

(** A chunk whose recorded count is the sum of its sentences' counts, and
    that either stays within [CHUNK_MAX_TOKENS] or is an overlap carry-over
    of at most [CHUNK_OVERLAP_TOKENS] tokens followed by one sentence. *)
Definition cur_ok (l : list sentence) : Prop :=
  tokens_of ct l <= CHUNK_MAX_TOKENS \/
  exists o s, l = o ++ [s] /\ tokens_of ct o <= CHUNK_OVERLAP_TOKENS.

Definition bounded_chunk (c : closed) : Prop :=
  cl_tokens c = tokens_of ct (cl_sentences c) /\ cur_ok (cl_sentences c).

(** Sentences of the last chunk of [l], [prev] when [l] is empty. *)
Fixpoint last_sents (prev : list sentence) (l : list closed) : list sentence :=
  match l with
  | [] => prev
  | c :: t => last_sents (cl_sentences c) t
  end.

(** Every chunk starts with the carry-over computed from the previous one. *)
Fixpoint chained_from (prev : list sentence) (l : list closed) : Prop :=
  match l with
  | [] => True
  | c :: t => (exists rest, cl_sentences c = fst (overlap_of ct prev) ++ rest) /\
              chained_from (cl_sentences c) t
  end.

(** The chunks' sentences with each chunk's overlap seed dropped. *)
Fixpoint strip_from (prev : list sentence) (l : list closed) : list sentence :=
  match l with
  | [] => []
  | c :: t => skipn (List.length (fst (overlap_of ct prev))) (cl_sentences c) ++
              strip_from (cl_sentences c) t
  end.

Definition strip_overlap (l : list closed) : list sentence := strip_from [] l.

End ChunkSpecs.

Section QuerySpecs.

Import Query.

(** Arithmetic mean of the [score] fields (absent scores count as 0). *)
Definition qsum (l : list Q) : Q := fold_right Qplus 0%Q l.

Definition mean_score (l : list candidate) : Q :=
  (qsum (map get_score l) / inject_Z (Z.of_nat (List.length l)))%Q.

(** "[a] comes no later than [b] in score-descending order". *)
Definition score_desc (a b : candidate) : Prop := (get_score b <= get_score a)%Q.

Definition score_is (q : Q) (c : candidate) : bool := Qeq_bool (get_score c) q.

(** The page reference as the spec words it: ["sida X"] when start and end
    agree or end is absent, ["sida X-Y"] when they differ, nothing when no
    start page is known. *)
Definition page_ref_spec (c : candidate) : string :=
  match cand_page_start c, cand_page_end c with
  | None, _ => EmptyString
  | Some x, None => (", sida " ++ z_str x)%string
  | Some x, Some y =>
      if Z.eqb x y then (", sida " ++ z_str x)%string
      else (", sida " ++ z_str x ++ "-" ++ z_str y)%string
  end.

(** Page numbers are 1-based where present. *)
Definition positive_pages (c : candidate) : Prop :=
  (forall x, cand_page_start c = Some x -> (0 < x)%Z) /\
  (forall y, cand_page_end c = Some y -> (0 < y)%Z).

(** The blocks labelled [i], [i+1], ... in order. *)
Fixpoint context_blocks (i : nat) (l : list candidate) : list string :=
  match l with
  | [] => []
  | c :: t => context_block i c :: context_blocks (S i) t
  end.

End QuerySpecs.

Section StoreSpecs.

Import Store.

(** The vectors the cache holds for a content hash, in table order. *)
Definition cached_vectors (w : world) (h : string) : list (list Q) :=
  map cr_embedding (filter (fun r => String.eqb (cr_content_hash r) h) (embeddings_cache w)).

End StoreSpecs.

End Specs.

(** * Proofs: double rounding and the order on doubles *)

Module FloatProofs.
Import Float64.
Local Open Scope Q_scope.

Lemma two_neq : ~ (2 # 1) == 0. Proof. discriminate. Qed.

Lemma pow2_pos e : 0 < pow2 e.
Proof. apply Qpower_0_lt. reflexivity. Qed.

Lemma pow2_plus a b : pow2 (a + b) == pow2 a * pow2 b.
Proof. apply Qpower_plus, two_neq. Qed.

Lemma pow2_le a b : (a <= b)%Z -> pow2 a <= pow2 b.
Proof. intro H. apply Qpower_le_compat_l; [exact H|discriminate]. Qed.

Lemma pow2_Z e : (0 <= e)%Z -> pow2 e == inject_Z (2 ^ e).
Proof. intro H. unfold pow2. rewrite (Zpower_Qpower 2 e H). reflexivity. Qed.

Lemma pow2_lt_inv a b : pow2 a < pow2 b -> (a < b)%Z.
Proof. intro H. apply (Qpower_lt_compat_l_inv (2 # 1)); [exact H|reflexivity]. Qed.

Lemma qinv_le a b : 0 < a -> a <= b -> / b <= / a.
Proof.
  intros Ha H. destruct (Qle_lteq a b) as [H1 _]. destruct (H1 H) as [Hlt|Heq].
  - apply Qlt_le_weak.
    exact (proj1 (Qinv_lt_contravar a b Ha (Qlt_le_trans _ _ _ Ha H)) Hlt).
  - rewrite Heq. apply Qle_refl.
Qed.

(** ** Rounding to an integer *)

Lemma rne_cases x :
  rne x = Qfloor x \/ rne x = (Qfloor x + 1)%Z.
Proof.
  unfold rne. destruct (_ ?= _); auto. destruct (Z.even _); auto.
Qed.

Lemma rne_mono x y : x <= y -> (rne x <= rne y)%Z.
Proof.
  intro H.
  pose proof (Qfloor_resp_le x y H) as Hf.
  destruct (Z.lt_ge_cases (Qfloor x) (Qfloor y)) as [Hlt|Hge].
  - destruct (rne_cases x) as [Ex|Ex]; destruct (rne_cases y) as [Ey|Ey]; lia.
  - assert (Heq : Qfloor x = Qfloor y) by lia.
    set (f := Qfloor x) in *.
    assert (Hr : x - inject_Z f <= y - inject_Z f).
    { apply Qplus_le_compat; [exact H|apply Qle_refl]. }
    unfold rne. rewrite <- Heq. fold f.
    destruct (Qcompare_spec (x - inject_Z f) (1 # 2)) as [E1|E1|E1];
    destruct (Qcompare_spec (y - inject_Z f) (1 # 2)) as [E2|E2|E2];
    try (destruct (Z.even f)); try lia; exfalso;
    first [ apply (Qlt_not_le _ _ E2); rewrite <- E1; exact Hr
          | apply (Qlt_not_le _ _ E1); rewrite <- E2; exact Hr
          | exact (Qlt_not_le _ _ (Qlt_trans _ _ _ E2 E1) Hr) ].
Qed.

Lemma rne_Z z : rne (inject_Z z) = z.
Proof.
  unfold rne. rewrite Qfloor_Z.
  assert (E : inject_Z z - inject_Z z == 0) by ring.
  rewrite E. reflexivity.
Qed.

Lemma rne_comp x y : x == y -> rne x = rne y.
Proof.
  intro H. apply Z.le_antisymm; apply rne_mono; rewrite H; apply Qle_refl.
Qed.

Lemma rne_nonneg x : 0 <= x -> (0 <= rne x)%Z.
Proof. intro H. rewrite <- (rne_Z 0). apply rne_mono, H. Qed.

(** ** The exponent of a positive rational *)

Lemma log2_bounds (n : Z) : (0 < n)%Z ->
  inject_Z (2 ^ Z.log2 n) <= inject_Z n /\ inject_Z n < inject_Z (2 ^ (Z.log2 n + 1)).
Proof.
  intro Hn. destruct (Z.log2_spec n Hn) as [H1 H2].
  split; [rewrite <- Zle_Qle; exact H1|rewrite <- Zlt_Qlt, Z.add_1_r; exact H2].
Qed.

Lemma mag_spec x : 0 < x -> pow2 (mag x) <= x < pow2 (mag x + 1).
Proof.
  intro Hx. destruct x as [n d].
  assert (Hn : (0 < n)%Z).
  { unfold Qlt in Hx. cbn in Hx. lia. }
  set (ln := Z.log2 n). set (ld := Z.log2 (Zpos d)).
  assert (Hln : (0 <= ln)%Z) by apply Z.log2_nonneg.
  assert (Hld : (0 <= ld)%Z) by apply Z.log2_nonneg.
  destruct (log2_bounds n Hn) as [N1 N2].
  destruct (log2_bounds (Zpos d) eq_refl) as [D1 D2].
  fold ln in N1, N2. fold ld in D1, D2.
  rewrite <- pow2_Z in N1, N2, D1, D2 by lia.
  assert (Hq : n # d == inject_Z n / inject_Z (Zpos d)).
  { unfold Qdiv, Qeq. cbn. lia. }
  assert (Lo : pow2 (ln - ld - 1) < n # d).
  { rewrite Hq.
    assert (E : pow2 (ln - ld - 1) == pow2 ln / pow2 (ld + 1)).
    { unfold Qdiv. rewrite <- (Qpower_opp (2 # 1)). fold (pow2 (- (ld + 1))).
      rewrite <- pow2_plus. unfold pow2. apply Qpower_comp; [reflexivity|ring]. }
    rewrite E. apply (Qlt_le_trans _ (pow2 ln / inject_Z (Zpos d))).
    - unfold Qdiv. apply (proj2 (Qmult_lt_l _ _ _ (pow2_pos ln))).
      exact (proj1 (Qinv_lt_contravar (inject_Z (Zpos d)) _ ltac:(reflexivity) (pow2_pos _)) D2).
    - unfold Qdiv. apply Qmult_le_compat_r; [exact N1|].
      apply Qinv_le_0_compat. discriminate. }
  assert (Hi : n # d < pow2 (ln - ld + 1)).
  { rewrite Hq.
    assert (E : pow2 (ln - ld + 1) == pow2 (ln + 1) / pow2 ld).
    { unfold Qdiv. rewrite <- (Qpower_opp (2 # 1)). fold (pow2 (- ld)).
      rewrite <- pow2_plus. unfold pow2. apply Qpower_comp; [reflexivity|ring]. }
    rewrite E. apply (Qle_lt_trans _ (inject_Z n / pow2 ld)).
    - unfold Qdiv. apply (proj2 (Qmult_le_l _ _ (inject_Z n) ltac:(unfold Qlt; cbn; lia))).
      exact (qinv_le _ _ (pow2_pos _) D1).
    - unfold Qdiv. apply Qmult_lt_compat_r; [|exact N2].
      apply Qinv_lt_0_compat, pow2_pos. }
  unfold mag. cbn [Qnum Qden]. fold ln ld.
  destruct (Qle_bool (pow2 (ln - ld)) (n # d)) eqn:E.
  - apply Qle_bool_iff in E. split; [exact E|exact Hi].
  - split.
    + replace (ln - ld - 1)%Z with (ln - ld - 1)%Z by lia. apply Qlt_le_weak, Lo.
    + replace (ln - ld - 1 + 1)%Z with (ln - ld)%Z by lia.
      apply Qnot_le_lt. intro H. apply Qle_bool_iff in H. congruence.
Qed.

Lemma mag_unique x k : pow2 k <= x -> x < pow2 (k + 1) -> mag x = k.
Proof.
  intros H1 H2.
  assert (Hx : 0 < x) by exact (Qlt_le_trans _ _ _ (pow2_pos k) H1).
  destruct (mag_spec x Hx) as [M1 M2].
  apply Z.le_antisymm.
  - apply Z.lt_succ_r, (pow2_lt_inv _ (k + 1)). exact (Qle_lt_trans _ _ _ M1 H2).
  - apply Z.lt_succ_r, (pow2_lt_inv _ (mag x + 1)). exact (Qle_lt_trans _ _ _ H1 M2).
Qed.

Lemma mag_mono x y : 0 < x -> x <= y -> (mag x <= mag y)%Z.
Proof.
  intros Hx Hxy.
  destruct (mag_spec x Hx) as [X1 X2].
  destruct (mag_spec y (Qlt_le_trans _ _ _ Hx Hxy)) as [Y1 Y2].
  apply Z.lt_succ_r, (pow2_lt_inv _ (mag y + 1)).
  exact (Qle_lt_trans _ _ _ (Qle_trans _ _ _ X1 Hxy) Y2).
Qed.

(** ** Rounding to a multiple of a power of two *)

Lemma round_to_mono e x y : x <= y -> round_to e x <= round_to e y.
Proof.
  intro H. unfold round_to. apply Qmult_le_compat_r; [|apply Qlt_le_weak, pow2_pos].
  rewrite <- Zle_Qle. apply rne_mono.
  unfold Qdiv. apply Qmult_le_compat_r; [exact H|].
  apply Qinv_le_0_compat, Qlt_le_weak, pow2_pos.
Qed.

Lemma round_to_pow2 e k : (e <= k)%Z -> round_to e (pow2 k) == pow2 k.
Proof.
  intro H. unfold round_to.
  assert (E : pow2 k / pow2 e == inject_Z (2 ^ (k - e))).
  { rewrite <- pow2_Z by lia.
    replace k with ((k - e) + e)%Z at 1 by lia. rewrite pow2_plus.
    field. apply Qnot_eq_sym, Qlt_not_eq, pow2_pos. }
  rewrite (rne_comp _ _ E), rne_Z, <- pow2_Z by lia.
  rewrite <- pow2_plus. replace (k - e + e)%Z with k by lia. reflexivity.
Qed.

Lemma round_to_nonneg e x : 0 <= x -> 0 <= round_to e x.
Proof.
  intro H. unfold round_to. apply Qmult_le_0_compat; [|apply Qlt_le_weak, pow2_pos].
  change (inject_Z 0 <= inject_Z (rne (x / pow2 e))).
  rewrite <- Zle_Qle. apply rne_nonneg.
  unfold Qdiv. apply Qmult_le_0_compat; [exact H|].
  apply Qinv_le_0_compat, Qlt_le_weak, pow2_pos.
Qed.

Lemma quantum_exp_mono x y : 0 < x -> x <= y -> (quantum_exp x <= quantum_exp y)%Z.
Proof.
  intros Hx H. unfold quantum_exp. pose proof (mag_mono x y Hx H). lia.
Qed.

Lemma round_mag_mono x y :
  0 < x -> x <= y -> round_to (quantum_exp x) x <= round_to (quantum_exp y) y.
Proof.
  intros Hx H.
  pose proof (quantum_exp_mono x y Hx H) as He.
  destruct (Z.eq_dec (quantum_exp x) (quantum_exp y)) as [E|Ne].
  - rewrite E. apply round_to_mono, H.
  - assert (Hy : 0 < y) by exact (Qlt_le_trans _ _ _ Hx H).
    assert (Hm : (mag x < mag y)%Z /\ quantum_exp y = (mag y - 52)%Z).
    { unfold quantum_exp in *. lia. }
    destruct Hm as [Hm Ey].
    destruct (mag_spec x Hx) as [_ X2]. destruct (mag_spec y Hy) as [Y1 _].
    assert (Hxp : x <= pow2 (mag y)).
    { apply Qlt_le_weak. apply (Qlt_le_trans _ _ _ X2). apply pow2_le. lia. }
    apply (Qle_trans _ (pow2 (mag y))).
    + rewrite <- (round_to_pow2 (quantum_exp x) (mag y)) by lia.
      apply round_to_mono, Hxp.
    + rewrite <- (round_to_pow2 (quantum_exp y) (mag y)) at 1 by lia.
      apply round_to_mono, Y1.
Qed.

(** ** The order on floats *)

Lemma fle_refl f : f <> NaN -> fle f f = true.
Proof.
  destruct f as [v|[]|]; cbn; intro H; try reflexivity; [|congruence].
  apply Qle_bool_iff, Qle_refl.
Qed.

Lemma fle_trans a b c : fle a b = true -> fle b c = true -> fle a c = true.
Proof.
  destruct a as [x|[]|], b as [y|[]|], c as [z|[]|]; cbn; try discriminate; auto.
  rewrite !Qle_bool_iff. apply Qle_trans.
Qed.

Lemma fle_fneg a b : fle (fneg b) (fneg a) = fle a b.
Proof.
  destruct a as [x|[]|], b as [y|[]|]; cbn; try reflexivity.
  destruct (Qle_bool x y) eqn:E1, (Qle_bool (- y) (- x)) eqn:E2; try reflexivity.
  - apply Qle_bool_iff in E1. apply Qopp_le_compat in E1.
    apply Qle_bool_iff in E1. congruence.
  - apply Qle_bool_iff in E2. apply Qopp_le_compat in E2.
    rewrite !Qopp_involutive in E2. apply Qle_bool_iff in E2. congruence.
Qed.

Lemma round_pos_cases x :
  round_pos x = Inf false \/ round_pos x = Fin (round_to (quantum_exp x) x).
Proof. unfold round_pos. destruct (Qle_bool _ _); auto. Qed.

Lemma round_pos_mono x y : 0 < x -> x <= y -> fle (round_pos x) (round_pos y) = true.
Proof.
  intros Hx H. pose proof (round_mag_mono x y Hx H) as Hm.
  unfold round_pos.
  destruct (Qle_bool (pow2 1024) (round_to (quantum_exp x) x)) eqn:Ex;
  destruct (Qle_bool (pow2 1024) (round_to (quantum_exp y) y)) eqn:Ey;
    cbn; try reflexivity.
  - apply Qle_bool_iff in Ex.
    assert (C : Qle_bool (pow2 1024) (round_to (quantum_exp y) y) = true)
      by (apply Qle_bool_iff; exact (Qle_trans _ _ _ Ex Hm)).
    congruence.
  - apply Qle_bool_iff, Hm.
Qed.

Lemma fle_top f : f <> NaN -> fle f (Inf false) = true.
Proof. destruct f as [v|[]|]; cbn; intro H; try reflexivity; congruence. Qed.

Lemma round_pos_not_nan x : round_pos x <> NaN.
Proof. destruct (round_pos_cases x) as [E|E]; rewrite E; discriminate. Qed.

Lemma round_not_nan x : round x <> NaN.
Proof.
  unfold round. destruct (x ?= 0); [discriminate|
    |apply round_pos_not_nan].
  pose proof (round_pos_not_nan (- x)) as H.
  destruct (round_pos (- x)); cbn; discriminate || congruence.
Qed.

Lemma round_pos_ge0 x : 0 < x -> fle (Fin 0) (round_pos x) = true.
Proof.
  intro Hx. destruct (round_pos_cases x) as [E|E]; rewrite E; [reflexivity|].
  cbn. apply Qle_bool_iff, round_to_nonneg, Qlt_le_weak, Hx.
Qed.

Lemma round_mono x y : x <= y -> fle (round x) (round y) = true.
Proof.
  intro H. unfold round.
  destruct (Qcompare_spec x 0) as [Ex|Ex|Ex]; destruct (Qcompare_spec y 0) as [Ey|Ey|Ey].
  - reflexivity.
  - exfalso. rewrite Ex in H. exact (Qlt_not_le _ _ Ey H).
  - apply round_pos_ge0, Ey.
  - change (fle (fneg (round_pos (- x))) (fneg (Fin 0)) = true).
    rewrite fle_fneg. apply round_pos_ge0.
    apply Qopp_lt_compat in Ex. exact Ex.
  - rewrite fle_fneg. apply round_pos_mono.
    + apply Qopp_lt_compat in Ey. exact Ey.
    + apply Qopp_le_compat, H.
  - apply (fle_trans _ (Fin 0)).
    + change (fle (fneg (round_pos (- x))) (fneg (Fin 0)) = true).
      rewrite fle_fneg. apply round_pos_ge0.
      apply Qopp_lt_compat in Ex. exact Ex.
    + apply round_pos_ge0, Ey.
  - exfalso. rewrite Ey in H. exact (Qlt_not_le _ _ Ex H).
  - exfalso. exact (Qlt_not_le _ _ (Qlt_trans _ _ _ Ey Ex) H).
  - apply round_pos_mono; assumption.
Qed.

(** [s1] is below [s2], or [s1] is NaN or minus infinity: it classifies
    at most as high as [s2]. *)
Definition below (s1 s2 : float) : Prop :=
  s1 = NaN \/ s1 = Inf true \/ fle s1 s2 = true.

Lemma below_fadd s1 s2 x1 x2 :
  below s1 s2 -> x1 <> NaN -> fle x1 x2 = true -> below (fadd s1 x1) (fadd s2 x2).
Proof.
  unfold below. intros H Hx Hle.
  destruct s1 as [a|[]|], s2 as [b|[]|], x1 as [c|[]|], x2 as [d|[]|];
    cbn in Hle |- *; try discriminate; try congruence; auto;
    destruct H as [H|[H|H]]; try discriminate; cbn in H; try discriminate;
    try (right; right; apply fle_top, round_not_nan);
    try (right; right; reflexivity);
    try (left; reflexivity); try (right; left; reflexivity).
  right; right. apply round_mono. apply Qle_bool_iff in H. apply Qle_bool_iff in Hle.
  apply Qplus_le_compat; assumption.
Qed.

Lemma below_fdiv s1 s2 n : below s1 s2 -> below (fdiv_count s1 n) (fdiv_count s2 n).
Proof.
  unfold below. intros H.
  destruct s1 as [a|[]|], s2 as [b|[]|]; cbn; destruct H as [H|[H|H]];
    try discriminate; cbn in H; try discriminate; auto.
  - right; right. apply round_mono. apply Qle_bool_iff in H.
    unfold Qdiv. apply Qmult_le_compat_r; [exact H|].
    apply Qinv_le_0_compat. change 0 with (inject_Z 0). rewrite <- Zle_Qle. lia.
  - right; right. apply fle_top, round_not_nan.
Qed.

Lemma below_fge s1 s2 q : below s1 s2 -> fge s1 (Fin q) = true -> fge s2 (Fin q) = true.
Proof.
  unfold below, fge. intros [H|[H|H]] H1; subst; try discriminate.
  exact (fle_trans _ _ _ H1 H).
Qed.

Lemma below_refl s : s <> NaN -> below s s.
Proof. intro H. right; right. apply fle_refl, H. Qed.

Lemma is_double_round q : is_double q = true -> exists v, round q = Fin v /\ v == q.
Proof.
  unfold is_double. destruct (round q) as [v| |]; try discriminate.
  intro H. exists v. split; [reflexivity|apply Qeq_bool_iff, H].
Qed.

(** The largest double below 0.5. *)
Definition pred_half : Q := 9007199254740991 # 18014398509481984.

Lemma double_below_half q : is_double q = true -> q < 1 # 2 -> q <= pred_half.
Proof.
  intros Hd Hq. destruct (Qlt_le_dec pred_half q) as [Hgt|Hle]; [exfalso|exact Hle].
  assert (Hpos : 0 < q) by (apply (Qlt_trans _ pred_half); [reflexivity|exact Hgt]).
  destruct (is_double_round q Hd) as [v [Hr Hv]].
  unfold round in Hr. rewrite (proj1 (Qgt_alt q 0) Hpos) in Hr.
  unfold round_pos in Hr.
  assert (Hm : mag q = (-2)%Z).
  { apply mag_unique.
    - apply (Qle_trans _ pred_half); [vm_compute; discriminate|apply Qlt_le_weak, Hgt].
    - apply (Qlt_le_trans _ _ _ Hq). vm_compute. discriminate. }
  unfold quantum_exp in Hr. rewrite Hm in Hr. cbn [Z.max Z.sub Z.add Z.opp Z.compare] in Hr.
  destruct (Qle_bool _ _) in Hr; [discriminate|]. injection Hr as Hr.
  unfold round_to in Hr. set (z := rne (q / pow2 (-54))) in Hr.
  assert (Hz : q / pow2 (-54) == inject_Z z).
  { rewrite <- Hv, <- Hr. unfold Qdiv. rewrite <- Qmult_assoc, Qmult_inv_r, Qmult_1_r;
      [reflexivity|apply Qnot_eq_sym, Qlt_not_eq, pow2_pos]. }
  assert (L : inject_Z (2 ^ 53 - 1) < q / pow2 (-54)).
  { apply (Qle_lt_trans _ (pred_half / pow2 (-54))); [vm_compute; discriminate|].
    unfold Qdiv. apply Qmult_lt_compat_r; [vm_compute; reflexivity|exact Hgt]. }
  assert (U : q / pow2 (-54) < inject_Z (2 ^ 53)).
  { apply (Qlt_le_trans _ ((1 # 2) / pow2 (-54))); [|vm_compute; discriminate].
    unfold Qdiv. apply Qmult_lt_compat_r; [vm_compute; reflexivity|exact Hq]. }
  rewrite Hz in L, U. rewrite <- Zlt_Qlt in L, U. lia.
Qed.

End FloatProofs.

(** * Proofs: the chunk builder *)

Module ChunkingProofs.

Import Chunking Specs.
Local Open Scope nat_scope.

Section Proofs.

Variable ct : string -> nat.

Lemma tokens_of_app l1 l2 :
  tokens_of ct (l1 ++ l2) = tokens_of ct l1 + tokens_of ct l2.
Proof.
  induction l1 as [|[s p] t IH]; cbn [tokens_of app]; [reflexivity|].
  rewrite IH. lia.
Qed.

Lemma overlap_walk_spec r : forall acc a o ot,
  tokens_of ct acc = a -> a <= CHUNK_OVERLAP_TOKENS ->
  overlap_walk ct r acc a = (o, ot) ->
  tokens_of ct o = ot /\ ot <= CHUNK_OVERLAP_TOKENS /\
  exists k, o = rev (firstn k r) ++ acc.
Proof.
  induction r as [|[s p] rest IH]; intros acc a o ot Ha Hle Hw;
    cbn [overlap_walk] in Hw.
  - inversion Hw; subst. repeat split; auto. exists 0. reflexivity.
  - destruct (a + ct s <=? CHUNK_OVERLAP_TOKENS) eqn:E.
    + apply Nat.leb_le in E.
      destruct (IH ((s, p) :: acc) (a + ct s) o ot) as [H1 [H2 [k Hk]]];
        auto.
      * cbn [tokens_of]. lia.
      * repeat split; auto. exists (S k). cbn [firstn rev].
        rewrite Hk, <- app_assoc. reflexivity.
    + inversion Hw; subst. repeat split; auto. exists 0. reflexivity.
Qed.

(** The carry-over is a suffix of the closed accumulator, in order, and its
    summed count, which becomes the new running count, is at most
    [CHUNK_OVERLAP_TOKENS]. *)
Lemma overlap_of_spec cur o ot :
  overlap_of ct cur = (o, ot) ->
  tokens_of ct o = ot /\ ot <= CHUNK_OVERLAP_TOKENS /\ exists pre, cur = pre ++ o.
Proof.
  unfold overlap_of. intro H.
  destruct (overlap_walk_spec (rev cur) [] 0 o ot eq_refl
              ltac:(unfold CHUNK_OVERLAP_TOKENS; lia) H) as [H1 [H2 [k Hk]]].
  repeat split; auto.
  exists (rev (skipn k (rev cur))).
  rewrite Hk, app_nil_r, <- rev_app_distr, firstn_skipn, rev_involutive.
  reflexivity.
Qed.

Lemma fold_step_inv (P : builder -> Prop) :
  (forall b sp, P b -> P (step ct b sp)) ->
  forall l b, P b -> P (fold_left (step ct) l b).
Proof.
  intros Hs l. induction l as [|x t IH]; intros b Hb; cbn [fold_left]; auto.
Qed.

Lemma nonempty_false {A} (l : list A) : nonempty l = false -> l = [].
Proof. destruct l; [reflexivity|discriminate]. Qed.

(** The step, split on whether it closes the accumulator. *)
Lemma step_close b sp ov ovt :
  (CHUNK_MAX_TOKENS <? b_tokens b + ct (fst sp)) && nonempty (b_sentences b) = true ->
  overlap_of ct (b_sentences b) = (ov, ovt) ->
  step ct b sp = mk_builder (b_chunks b ++ [close b]) (ovt + ct (fst sp))
                            (ov ++ [sp]) (S (b_index b)).
Proof. intros E Ho. unfold step. rewrite E, Ho. reflexivity. Qed.

Lemma step_keep b sp :
  (CHUNK_MAX_TOKENS <? b_tokens b + ct (fst sp)) && nonempty (b_sentences b) = false ->
  step ct b sp = mk_builder (b_chunks b) (b_tokens b + ct (fst sp))
                            (b_sentences b ++ [sp]) (b_index b).
Proof. intros E. unfold step. rewrite E. reflexivity. Qed.

Ltac step_cases b sp :=
  let E := fresh "E" in
  let ov := fresh "ov" in
  let ovt := fresh "ovt" in
  let Ho := fresh "Ho" in
  destruct ((CHUNK_MAX_TOKENS <? b_tokens b + ct (fst sp)) && nonempty (b_sentences b)) eqn:E;
  [destruct (overlap_of ct (b_sentences b)) as [ov ovt] eqn:Ho;
   rewrite (step_close b sp ov ovt E Ho)
  | rewrite (step_keep b sp E)].

(** ** Token bound *)

Definition inv_bound (b : builder) : Prop :=
  b_tokens b = tokens_of ct (b_sentences b) /\
  Forall (bounded_chunk ct) (b_chunks b) /\ cur_ok ct (b_sentences b).

Lemma inv_bound_step b sp : inv_bound b -> inv_bound (step ct b sp).
Proof.
  intros [Ht [Hf Hc]]. destruct sp as [s p].
  step_cases b (s, p); unfold inv_bound; cbn [b_tokens b_sentences b_chunks fst].
  - destruct (overlap_of_spec _ _ _ Ho) as [H1 [H2 _]].
    split; [|split].
    + rewrite tokens_of_app. cbn [tokens_of]. lia.
    + apply Forall_app. split; auto. constructor; [|constructor].
      split; auto.
    + right. exists ov, (s, p). split; auto. lia.
  - split; [|split].
    + rewrite tokens_of_app. cbn [tokens_of]. lia.
    + exact Hf.
    + apply andb_false_iff in E as [E|E].
      * left. apply Nat.ltb_ge in E. rewrite tokens_of_app. cbn [tokens_of fst] in *.
        lia.
      * right. exists [], (s, p). rewrite (nonempty_false _ E).
        split; [reflexivity|cbn; unfold CHUNK_OVERLAP_TOKENS; lia].
Qed.

Lemma build_chunks_bounded ss :
  Forall (bounded_chunk ct) (build_chunks ct ss).
Proof.
  unfold build_chunks.
  assert (H : inv_bound (fold_left (step ct) ss builder_init)).
  { apply fold_step_inv; [apply inv_bound_step|].
    split; [reflexivity|split; [constructor|left; cbn; unfold CHUNK_MAX_TOKENS; lia]]. }
  destruct H as [Ht [Hf Hc]]. unfold finish.
  destruct (nonempty _); auto.
  apply Forall_app. split; auto. constructor; [|constructor]. split; auto.
Qed.


(** ** Overlap chaining, coverage and indices *)

Lemma last_sents_app prev l c : last_sents prev (l ++ [c]) = cl_sentences c.
Proof. revert prev; induction l as [|x t IH]; intro prev; cbn; auto. Qed.

Lemma chained_from_app prev l c :
  chained_from ct prev (l ++ [c]) <->
  chained_from ct prev l /\
  exists rest, cl_sentences c = fst (overlap_of ct (last_sents prev l)) ++ rest.
Proof.
  revert prev; induction l as [|x t IH]; intro prev;
    cbn [app chained_from last_sents]; [tauto|].
  rewrite IH. tauto.
Qed.

Lemma strip_from_app prev l c :
  strip_from ct prev (l ++ [c]) =
  strip_from ct prev l ++
  skipn (List.length (fst (overlap_of ct (last_sents prev l)))) (cl_sentences c).
Proof.
  revert prev; induction l as [|x t IH]; intro prev;
    cbn [app strip_from last_sents].
  - rewrite !app_nil_r. reflexivity.
  - rewrite IH, app_assoc. reflexivity.
Qed.

Lemma skipn_length_app {A} (x y : list A) : skipn (List.length x) (x ++ y) = y.
Proof. induction x; cbn; auto. Qed.

Lemma seq_snoc n : seq 0 n ++ [n] = seq 0 (List.length (repeat tt n) + 1).
Proof. rewrite repeat_length, seq_app. reflexivity. Qed.

Definition inv_cover (pre : list sentence) (b : builder) : Prop :=
  chained_from ct [] (b_chunks b) /\
  (exists rest, b_sentences b = fst (overlap_of ct (last_sents [] (b_chunks b))) ++ rest) /\
  map cl_index (b_chunks b) = seq 0 (List.length (b_chunks b)) /\
  b_index b = List.length (b_chunks b) /\
  strip_overlap ct (b_chunks b) ++
    skipn (List.length (fst (overlap_of ct (last_sents [] (b_chunks b))))) (b_sentences b)
  = pre.

(** Closing the accumulator keeps all invariants and appends [close b]. *)
Lemma inv_cover_close pre b rest :
  inv_cover pre b -> b_sentences b = fst (overlap_of ct (last_sents [] (b_chunks b))) ++ rest ->
  chained_from ct [] (b_chunks b ++ [close b]) /\
  map cl_index (b_chunks b ++ [close b]) = seq 0 (List.length (b_chunks b ++ [close b])) /\
  strip_overlap ct (b_chunks b ++ [close b]) = pre.
Proof.
  intros [Hch [_ [Hidx [Hbi Hst]]]] Hr.
  split; [|split].
  - apply chained_from_app. split; [exact Hch|]. exists rest. exact Hr.
  - rewrite map_app, Hidx, length_app. cbn [map cl_index close].
    rewrite Hbi, seq_app. reflexivity.
  - unfold strip_overlap in *. rewrite strip_from_app. exact Hst.
Qed.

Lemma inv_cover_step pre b sp :
  inv_cover pre b -> inv_cover (pre ++ [sp]) (step ct b sp).
Proof.
  intros Hinv. pose proof Hinv as [Hch [[rest Hr] [Hidx [Hbi Hst]]]].
  step_cases b sp; unfold inv_cover; cbn [b_chunks b_sentences b_index].
  - destruct (inv_cover_close pre b rest Hinv Hr) as [C1 [C2 C3]].
    rewrite last_sents_app. cbn [cl_sentences close]. rewrite Ho. cbn [fst].
    split; [exact C1|split; [exists [sp]; reflexivity|split; [exact C2|split]]].
    + rewrite length_app, Hbi. cbn. lia.
    + rewrite skipn_length_app, C3. reflexivity.
  - set (o := fst (overlap_of ct (last_sents [] (b_chunks b)))) in *.
    split; [exact Hch|split; [|split; [exact Hidx|split; [exact Hbi|]]]].
    + exists (rest ++ [sp]). rewrite Hr, app_assoc. reflexivity.
    + rewrite Hr in Hst |- *. rewrite <- app_assoc, skipn_length_app.
      rewrite skipn_length_app in Hst. rewrite <- Hst, app_assoc. reflexivity.
Qed.

Lemma build_chunks_cover ss :
  chained_from ct [] (build_chunks ct ss) /\
  map cl_index (build_chunks ct ss) = seq 0 (List.length (build_chunks ct ss)) /\
  strip_overlap ct (build_chunks ct ss) = ss.
Proof.
  assert (H : forall l b pre, inv_cover pre b ->
                inv_cover (pre ++ l) (fold_left (step ct) l b)).
  { induction l as [|x t IH]; intros b pre Hb; cbn [fold_left].
    - rewrite app_nil_r. exact Hb.
    - replace (pre ++ x :: t) with ((pre ++ [x]) ++ t)
        by (rewrite <- app_assoc; reflexivity).
      apply IH, inv_cover_step, Hb. }
  assert (H0 : inv_cover [] builder_init).
  { split; [exact I|split; [exists []; reflexivity|split; [reflexivity|split; reflexivity]]]. }
  specialize (H ss builder_init [] H0). cbn [app] in H.
  unfold build_chunks, finish.
  set (b := fold_left (step ct) ss builder_init) in *.
  pose proof H as [Hch [[rest Hr] [Hidx [Hbi Hst]]]].
  destruct (nonempty (b_sentences b)) eqn:En.
  - exact (inv_cover_close ss b rest H Hr).
  - rewrite (nonempty_false _ En), skipn_nil, app_nil_r in Hst.
    split; [exact Hch|split; [exact Hidx|exact Hst]].
Qed.

Lemma in_skipn_in {A} n (l : list A) x : In x (skipn n l) -> In x l.
Proof. intro H. rewrite <- (firstn_skipn n l). apply in_or_app. right. exact H. Qed.

Lemma in_strip_from prev l s :
  In s (strip_from ct prev l) -> exists c, In c l /\ In s (cl_sentences c).
Proof.
  revert prev; induction l as [|c t IH]; intros prev H; cbn [strip_from] in H.
  - contradiction.
  - apply in_app_or in H as [H|H].
    + exists c. split; [left; reflexivity|]. exact (in_skipn_in _ _ _ H).
    + destruct (IH _ H) as [c' [H1 H2]]. exists c'. split; [right|]; assumption.
Qed.

Lemma chained_from_nth prev l :
  chained_from ct prev l ->
  forall i c1 c2, nth_error l i = Some c1 -> nth_error l (S i) = Some c2 ->
  exists rest, cl_sentences c2 = fst (overlap_of ct (cl_sentences c1)) ++ rest.
Proof.
  revert prev; induction l as [|c t IH]; intros prev Hch i c1 c2 H1 H2;
    [destruct i; discriminate|].
  destruct Hch as [_ Ht]. destruct i as [|i].
  - cbn in H1. injection H1 as <-.
    destruct t as [|c' t']; cbn in H2; [discriminate|]. injection H2 as <-.
    destruct Ht as [H _]. exact H.
  - cbn in H1, H2. exact (IH _ Ht i c1 c2 H1 H2).
Qed.

End Proofs.

Import Fixtures.

(** The chunk builder on the fixture [[s100; s1150]]: the 100-token sentence
    is carried into the second chunk, which reaches 1250 tokens. *)
Lemma build_chunks_fixture :
  build_chunks word_count [s100; s1150] =
  [mk_closed 0 [s100] 100; mk_closed 1 [s100; s1150] 1250].
Proof. vm_compute. reflexivity. Qed.

Lemma fixture_sentences_small :
  Forall (fun s => word_count (fst s) <= CHUNK_MAX_TOKENS) [s100; s1150].
Proof.
  repeat constructor; apply Nat.leb_le; vm_compute; reflexivity.
Qed.

Lemma fixture_chunk_in :
  In (make_chunk (mk_closed 1 [s100; s1150] 1250))
     (split_into_chunks word_count [s100; s1150]).
Proof.
  unfold split_into_chunks. rewrite build_chunks_fixture. right. left. reflexivity.
Qed.

Lemma fixture_chunk_over :
  ~ (content_tokens (make_chunk (mk_closed 1 [s100; s1150] 1250)) <= CHUNK_MAX_TOKENS).
Proof. intro Hle. apply Nat.leb_le in Hle. vm_compute in Hle. discriminate Hle. Qed.

(** C1 (as stated): the chunks of an input in which no sentence exceeds
    [CHUNK_MAX_TOKENS] tokens all have [content_tokens <= CHUNK_MAX_TOKENS].
    False: a 100-token sentence carried as overlap plus a 1150-token sentence
    makes a chunk of 1250 tokens. *)
Lemma C1_counterexample :
  ~ (forall ss d,
       Forall (fun s => word_count (fst s) <= CHUNK_MAX_TOKENS) ss ->
       In d (split_into_chunks word_count ss) ->
       content_tokens d <= CHUNK_MAX_TOKENS).
Proof.
  intro H. apply fixture_chunk_over.
  exact (H _ _ fixture_sentences_small fixture_chunk_in).
Qed.

(** C1 (amended): every chunk's [content_tokens] is the summed count of its
    sentences, and either is at most [CHUNK_MAX_TOKENS] or the chunk is an
    overlap carry-over of at most [CHUNK_OVERLAP_TOKENS] tokens followed by a
    single sentence; so a chunk none of whose sentences exceeds
    [CHUNK_MAX_TOKENS] has at most [CHUNK_MAX_TOKENS + CHUNK_OVERLAP_TOKENS]
    tokens. *)
Theorem C1_token_bound_amended (ct : string -> nat) ss c :
  In c (build_chunks ct ss) ->
  content_tokens (make_chunk c) = tokens_of ct (cl_sentences c) /\
  (content_tokens (make_chunk c) <= CHUNK_MAX_TOKENS \/
   exists o s, cl_sentences c = o ++ [s] /\ tokens_of ct o <= CHUNK_OVERLAP_TOKENS) /\
  (Forall (fun s => ct (fst s) <= CHUNK_MAX_TOKENS) (cl_sentences c) ->
   content_tokens (make_chunk c) <= CHUNK_MAX_TOKENS + CHUNK_OVERLAP_TOKENS).
Proof.
  intro Hin.
  pose proof (proj1 (Forall_forall _ _) (build_chunks_bounded ct ss) c Hin)
    as [Ht Hc].
  cbn [make_chunk content_tokens]. rewrite Ht.
  split; [reflexivity|split; [exact Hc|]].
  intro Hs. destruct Hc as [Hc|[o [s [Hos Ho]]]].
  - unfold CHUNK_OVERLAP_TOKENS. lia.
  - rewrite Hos in *. rewrite tokens_of_app. cbn [tokens_of].
    apply Forall_app in Hs as [_ Hs]. inversion Hs as [|? ? Hs1 _]; subst.
    destruct s as [s p]. cbn [fst] in Hs1. lia.
Qed.

Lemma C1_token_bound_amended_witness :
  In (mk_closed 1 [s100; s1150] 1250) (build_chunks word_count [s100; s1150]) /\
  content_tokens (make_chunk (mk_closed 1 [s100; s1150] 1250)) <= CHUNK_MAX_TOKENS + CHUNK_OVERLAP_TOKENS.
Proof.
  assert (Hin : In (mk_closed 1 [s100; s1150] 1250) (build_chunks word_count [s100; s1150])).
  { rewrite build_chunks_fixture. right. left. reflexivity. }
  split; [exact Hin|].
  exact (proj2 (proj2 (C1_token_bound_amended word_count [s100; s1150] _ Hin))
           fixture_sentences_small).
Defined.

(** C6: whenever a chunk is closed, the sentences carried into the next
    accumulator are a suffix of the closed chunk, in order, their summed
    count (the reset running count) is at most [CHUNK_OVERLAP_TOKENS], and
    the next chunk starts with them. *)
Theorem C6_overlap_bound (ct : string -> nat) ss i c1 c2 :
  nth_error (build_chunks ct ss) i = Some c1 ->
  nth_error (build_chunks ct ss) (S i) = Some c2 ->
  let (carried, carried_tokens) := overlap_of ct (cl_sentences c1) in
  carried_tokens = tokens_of ct carried /\
  carried_tokens <= CHUNK_OVERLAP_TOKENS /\
  (exists pre, cl_sentences c1 = pre ++ carried) /\
  (exists rest, cl_sentences c2 = carried ++ rest).
Proof.
  intros H1 H2.
  destruct (chained_from_nth ct [] _ (proj1 (build_chunks_cover ct ss)) i c1 c2 H1 H2)
    as [rest Hr].
  destruct (overlap_of ct (cl_sentences c1)) as [o ot] eqn:Ho.
  destruct (overlap_of_spec ct _ _ _ Ho) as [Ht [Hle Hpre]].
  cbn [fst] in Hr.
  split; [symmetry; exact Ht|split; [exact Hle|split; [exact Hpre|exists rest; exact Hr]]].
Qed.

Lemma C6_overlap_bound_witness :
  let (carried, carried_tokens) := overlap_of word_count [s100] in
  carried_tokens = tokens_of word_count carried /\
  carried_tokens <= CHUNK_OVERLAP_TOKENS /\
  (exists pre, [s100] = pre ++ carried) /\
  (exists rest, [s100; s1150] = carried ++ rest).
Proof.
  exact (C6_overlap_bound word_count [s100; s1150] 0
           (mk_closed 0 [s100] 100) (mk_closed 1 [s100; s1150] 1250)
           ltac:(rewrite build_chunks_fixture; reflexivity)
           ltac:(rewrite build_chunks_fixture; reflexivity)).
Defined.

(** C7: every input sentence lies in some chunk; dropping each chunk's
    overlap seed and concatenating gives back the input exactly, in order;
    and the chunk indices are [0, 1, 2, ...]. *)
Theorem C7_coverage_and_indices (ct : string -> nat) ss :
  (forall s, In s ss -> exists c, In c (build_chunks ct ss) /\ In s (cl_sentences c)) /\
  strip_overlap ct (build_chunks ct ss) = ss /\
  map chunk_index (split_into_chunks ct ss) =
    seq 0 (List.length (split_into_chunks ct ss)).
Proof.
  destruct (build_chunks_cover ct ss) as [_ [Hidx Hst]].
  split; [|split; [exact Hst|]].
  - intros s Hs. rewrite <- Hst in Hs. exact (in_strip_from ct [] _ s Hs).
  - unfold split_into_chunks. rewrite map_map, length_map. exact Hidx.
Qed.

End ChunkingProofs.

(** * Proofs: confidence, weak-match gate and the query short-circuit *)

Module QueryProofs.

Import Chunking Float64 FloatProofs Query Specs.
Local Open Scope Q_scope.

Lemma qle_bool_false a b : Qle_bool a b = false -> b < a.
Proof.
  intro H. apply Qnot_le_lt. intro H'. apply Qle_bool_iff in H'. congruence.
Qed.

(** Comparing with a literal that is a double is comparing with its value. *)
Lemma fge_round_double q m : is_double q = true -> fge m (round q) = fge m (Fin q).
Proof.
  intro H. destruct (is_double_round q H) as [v [E Hv]]. rewrite E.
  unfold fge. destruct m as [w|[]|]; cbn; try reflexivity.
  apply Qleb_comp; [exact Hv|reflexivity].
Qed.

(** [_determine_confidence] on a non-empty list, in terms of [avg_score];
    [0.75] and [0.50] are doubles. *)
Lemma determine_confidence_avg p l :
  l <> [] ->
  determine_confidence p l =
  if String.eqb p "fulltext" then
    (if fge (avg_score l) (round (1 # 10)) then "high"
     else if fge (avg_score l) (round (1 # 100)) then "medium" else "low")%string
  else
    (if fge (avg_score l) (Fin (75 # 100)) then "high"
     else if fge (avg_score l) (Fin (50 # 100)) then "medium" else "low")%string.
Proof.
  intro Hne. destruct l as [|c t]; [contradiction|].
  unfold determine_confidence. cbv beta iota zeta.
  rewrite !(fge_round_double (75 # 100)) by (vm_compute; reflexivity).
  rewrite !(fge_round_double (50 # 100)) by (vm_compute; reflexivity).
  reflexivity.
Qed.

(** A three-level threshold table on a float, with thresholds [b <= a]. *)
Lemma three_level a b m :
  fle b a = true ->
  let r := (if fge m a then "high"
            else if fge m b then "medium" else "low")%string in
  (r = "high"%string <-> fge m a = true) /\
  (r = "medium"%string <-> fge m b = true /\ fge m a = false) /\
  (r = "low"%string <-> fge m b = false).
Proof.
  intros Hba r. subst r. unfold fge.
  destruct (fle a m) eqn:E1; [|destruct (fle b m) eqn:E2].
  - assert (E2 : fle b m = true) by exact (fle_trans _ _ _ Hba E1).
    rewrite E2. split; [split; reflexivity|split; split; try discriminate].
    + intros [_ H]. discriminate H.
  - split; [split; discriminate|].
    split; [split; [intros _; split; reflexivity|intros _; reflexivity]|split; discriminate].
  - split; [split; discriminate|]. split; [split; [discriminate|intros [H _]; discriminate H]|].
    split; auto.
Qed.

Lemma thresholds_semantic : fle (Fin (50 # 100)) (Fin (75 # 100)) = true.
Proof. reflexivity. Qed.

Lemma thresholds_lexical : fle (round (1 # 100)) (round (1 # 10)) = true.
Proof. apply round_mono. discriminate. Qed.

(** The running float sum of the scores stays below the sum of [length l]
    copies of a bound [x] of the rounded scores (and above it, for a lower
    bound). *)
Lemma sum_below_upper x l : forall a b,
  (forall c, In c l -> fle (round (get_score c)) x = true) ->
  below a b ->
  below (fold_left (fun acc c => fadd acc (round (get_score c))) l a)
        (Nat.iter (List.length l) (fun s => fadd s x) b).
Proof.
  induction l as [|c t IH]; intros a b Hx Hab; [exact Hab|].
  cbn [fold_left List.length]. rewrite Nat.iter_succ_r.
  apply IH; [intros c' Hc'; apply Hx; right; exact Hc'|].
  apply below_fadd; [exact Hab|apply round_not_nan|apply Hx; left; reflexivity].
Qed.

Lemma sum_below_lower x l : forall a b,
  x <> NaN ->
  (forall c, In c l -> fle x (round (get_score c)) = true) ->
  below a b ->
  below (Nat.iter (List.length l) (fun s => fadd s x) a)
        (fold_left (fun acc c => fadd acc (round (get_score c))) l b).
Proof.
  induction l as [|c t IH]; intros a b Hn Hx Hab; [exact Hab|].
  cbn [fold_left List.length]. rewrite Nat.iter_succ_r.
  apply IH; [exact Hn|intros c' Hc'; apply Hx; right; exact Hc'|].
  apply below_fadd; [exact Hab|exact Hn|apply Hx; left; reflexivity].
Qed.

Lemma length_small {A} (l : list A) :
  l <> [] -> (List.length l <= RERANK_FINAL_K)%nat -> In (List.length l) [1; 2; 3; 4; 5; 6]%nat.
Proof.
  intros Hne Hlen. destruct l as [|x t]; [contradiction|].
  unfold RERANK_FINAL_K, RETRIEVAL_TOP_K in Hlen. cbn [List.length] in *. cbn [In]. lia.
Qed.

(** At most six scores, all doubles below 0.50: the float mean is below
    0.50. *)
Lemma semantic_low l :
  l <> [] -> (List.length l <= RERANK_FINAL_K)%nat ->
  (forall c, In c l -> is_double (get_score c) = true /\ get_score c < 50 # 100) ->
  fge (avg_score l) (Fin (50 # 100)) = false.
Proof.
  intros Hne Hlen H.
  assert (Hb : below (sum_scores l)
                 (Nat.iter (List.length l) (fun s => fadd s (Fin pred_half)) (Fin 0))).
  { apply sum_below_upper; [|apply below_refl; discriminate].
    intros c Hc. destruct (H c Hc) as [Hd Hlt].
    destruct (is_double_round _ Hd) as [v [E Hv]]. rewrite E. cbn [fle].
    apply Qle_bool_iff. rewrite Hv. apply double_below_half; [exact Hd|].
    apply (Qlt_le_trans _ _ _ Hlt). discriminate. }
  pose proof (below_fdiv _ _ (List.length l) Hb) as Hd.
  assert (T : forallb (fun n => negb (fge (fdiv_count
                 (Nat.iter n (fun s => fadd s (Fin pred_half)) (Fin 0)) n) (Fin (50 # 100))))
                [1; 2; 3; 4; 5; 6]%nat = true) by (vm_compute; reflexivity).
  pose proof (proj1 (forallb_forall _ _) T _ (length_small l Hne Hlen)) as T1.
  unfold avg_score. destruct (fge (fdiv_count (sum_scores l) (List.length l)) (Fin (50 # 100)))
    eqn:E; [|reflexivity].
  cbv beta in T1. rewrite (below_fge _ _ _ Hd E) in T1. discriminate T1.
Qed.

(** At most six scores, all at least 0.75: the float mean is at least
    0.75. *)
Lemma semantic_high l :
  l <> [] -> (List.length l <= RERANK_FINAL_K)%nat ->
  (forall c, In c l -> 75 # 100 <= get_score c) ->
  fge (avg_score l) (Fin (75 # 100)) = true.
Proof.
  intros Hne Hlen H.
  assert (Hb : below (Nat.iter (List.length l) (fun s => fadd s (round (75 # 100))) (Fin 0))
                 (sum_scores l)).
  { apply sum_below_lower; [apply round_not_nan| |apply below_refl; discriminate].
    intros c Hc. apply round_mono, H, Hc. }
  pose proof (below_fdiv _ _ (List.length l) Hb) as Hd.
  assert (T : forallb (fun n => fge (fdiv_count
                 (Nat.iter n (fun s => fadd s (round (75 # 100))) (Fin 0)) n) (Fin (75 # 100)))
                [1; 2; 3; 4; 5; 6]%nat = true) by (vm_compute; reflexivity).
  pose proof (proj1 (forallb_forall _ _) T _ (length_small l Hne Hlen)) as T1.
  exact (below_fge _ _ _ Hd T1).
Qed.

(** Exact double values of [0.85] and [0.7]: the float mean of
    [0.85, 0.7, 0.7] is 0.75, while the exact mean of these doubles is
    below 0.75. *)
Definition ce_doubles : list candidate :=
  [Fixtures.cand "a" (7656119366529843 # 9007199254740992) None None;
   Fixtures.cand "b" (3152519739159347 # 4503599627370496) None None;
   Fixtures.cand "c" (3152519739159347 # 4503599627370496) None None].

(** [0.12, 0.95, 0.43]: exact mean 0.50, float mean just below it. *)
Definition ce_decimals : list candidate :=
  [Fixtures.cand "a" (12 # 100) None None; Fixtures.cand "b" (95 # 100) None None;
   Fixtures.cand "c" (43 # 100) None None].

Lemma ce_doubles_high :
  Forall (fun c => is_double (get_score c) = true) ce_doubles /\
  mean_score ce_doubles < 75 # 100 /\
  determine_confidence "openai" ce_doubles = "high"%string.
Proof.
  split; [|split; [vm_compute; reflexivity|vm_compute; reflexivity]].
  repeat (apply Forall_cons; [vm_compute; reflexivity|]). apply Forall_nil.
Qed.

Lemma ce_decimals_low :
  mean_score ce_decimals == 50 # 100 /\
  determine_confidence "openai" ce_decimals = "low"%string.
Proof. split; vm_compute; reflexivity. Qed.

(** C4 (as stated): on a non-empty list, ["openai"] mode gives ["high"]
    exactly when the arithmetic mean of the scores is at least 0.75 and
    ["low"] exactly when it is below 0.50. False: the code compares the
    float mean (a float sum divided by the count) and the scores 0.85, 0.7,
    0.7 (as doubles) have exact mean below 0.75 but float mean 0.75. *)
Lemma C4_counterexample :
  ~ (forall l, l <> [] ->
       (determine_confidence "openai" l = "high"%string <-> 75 # 100 <= mean_score l) /\
       (determine_confidence "openai" l = "low"%string <-> mean_score l < 50 # 100)).
Proof.
  intro H. destruct ce_doubles_high as [_ [Hm Hh]].
  destruct (H ce_doubles ltac:(discriminate)) as [[H1 _] _].
  exact (Qlt_not_le _ _ Hm (H1 Hh)).
Qed.

(** C4 (amended): [_determine_confidence] returns ["low"] on the empty list
    and otherwise classifies the float mean [avg_score] (the left-to-right
    float sum of the scores divided by their count) with the table of the
    retrieval mode: in ["openai"] mode against the doubles 0.75 and 0.50,
    in ["fulltext"] mode against the doubles nearest 0.1 and 0.01. For at
    most six candidates (the size of a reranked set) the float mean keeps
    the semantic bounds: scores all at least 0.75 give ["high"], doubles
    all below 0.50 give ["low"]. *)
Theorem C4_confidence_float_mean (l : list candidate) :
  (l = [] -> forall p, determine_confidence p l = "low"%string) /\
  (l <> [] ->
   (determine_confidence "openai" l = "high"%string <->
      fge (avg_score l) (Fin (75 # 100)) = true) /\
   (determine_confidence "openai" l = "medium"%string <->
      fge (avg_score l) (Fin (50 # 100)) = true /\ fge (avg_score l) (Fin (75 # 100)) = false) /\
   (determine_confidence "openai" l = "low"%string <->
      fge (avg_score l) (Fin (50 # 100)) = false) /\
   (determine_confidence "fulltext" l = "high"%string <->
      fge (avg_score l) (round (1 # 10)) = true) /\
   (determine_confidence "fulltext" l = "medium"%string <->
      fge (avg_score l) (round (1 # 100)) = true /\ fge (avg_score l) (round (1 # 10)) = false) /\
   (determine_confidence "fulltext" l = "low"%string <->
      fge (avg_score l) (round (1 # 100)) = false)) /\
  (l <> [] -> (List.length l <= RERANK_FINAL_K)%nat ->
   Forall (fun c => 75 # 100 <= get_score c) l ->
   determine_confidence "openai" l = "high"%string) /\
  ((List.length l <= RERANK_FINAL_K)%nat ->
   Forall (fun c => is_double (get_score c) = true /\ get_score c < 50 # 100) l ->
   determine_confidence "openai" l = "low"%string).
Proof.
  assert (Table : l <> [] ->
    (determine_confidence "openai" l = "high"%string <->
       fge (avg_score l) (Fin (75 # 100)) = true) /\
    (determine_confidence "openai" l = "medium"%string <->
       fge (avg_score l) (Fin (50 # 100)) = true /\ fge (avg_score l) (Fin (75 # 100)) = false) /\
    (determine_confidence "openai" l = "low"%string <->
       fge (avg_score l) (Fin (50 # 100)) = false) /\
    (determine_confidence "fulltext" l = "high"%string <->
       fge (avg_score l) (round (1 # 10)) = true) /\
    (determine_confidence "fulltext" l = "medium"%string <->
       fge (avg_score l) (round (1 # 100)) = true /\ fge (avg_score l) (round (1 # 10)) = false) /\
    (determine_confidence "fulltext" l = "low"%string <->
       fge (avg_score l) (round (1 # 100)) = false)).
  { intro Hne. rewrite !(determine_confidence_avg _ _ Hne).
    cbn [String.eqb Ascii.eqb Bool.eqb andb].
    destruct (three_level _ _ (avg_score l) thresholds_semantic) as [A1 [A2 A3]].
    destruct (three_level _ _ (avg_score l) thresholds_lexical) as [B1 [B2 B3]].
    repeat split; first [apply A1|apply A2|apply A3|apply B1|apply B2|apply B3|idtac]; auto;
      try (apply A2; split; assumption); try (apply B2; split; assumption). }
  split; [intros -> p; reflexivity|split; [exact Table|split]].
  - intros Hne Hlen Hs. apply (proj1 (Table Hne)).
    apply semantic_high; [exact Hne|exact Hlen|]. rewrite Forall_forall in Hs. exact Hs.
  - intros Hlen Hs. destruct l as [|c t]; [reflexivity|].
    assert (Hne : c :: t <> []) by discriminate.
    apply (proj1 (proj2 (proj2 (Table Hne)))).
    apply semantic_low; [exact Hne|exact Hlen|]. rewrite Forall_forall in Hs. exact Hs.
Qed.

(** ** The weak-match gate *)

Lemma qltb_iff a b : Qltb a b = true <-> a < b.
Proof.
  unfold Qltb. rewrite negb_true_iff. split.
  - apply qle_bool_false.
  - intro H. destruct (Qle_bool b a) eqn:E; [|reflexivity].
    apply Qle_bool_iff in E. exfalso. exact (Qlt_not_le _ _ H E).
Qed.

Lemma is_weak_match_iff p r conf :
  is_weak_match p r conf = true <->
  conf = "low"%string \/ r = [] \/
  (p = "openai"%string /\ r <> [] /\ max_score r < WEAK_MATCH_SCORE_THRESHOLD).
Proof.
  unfold is_weak_match.
  destruct (String.eqb conf "low") eqn:El.
  - apply String.eqb_eq in El. split; auto.
  - apply String.eqb_neq in El.
    destruct r as [|c t]; [split; auto|].
    destruct (String.eqb p "openai") eqn:Ep.
    + apply String.eqb_eq in Ep.
      destruct (Qltb (max_score (c :: t)) WEAK_MATCH_SCORE_THRESHOLD) eqn:Em.
      * apply qltb_iff in Em. split; auto. intros _. right; right.
        split; [exact Ep|split; [discriminate|exact Em]].
      * split; [discriminate|].
        intros [H|[H|[_ [_ H]]]]; [contradiction|discriminate|].
        apply qltb_iff in H. congruence.
    + apply String.eqb_neq in Ep. split; [discriminate|].
      intros [H|[H|[H _]]]; [contradiction|discriminate|contradiction].
Qed.

Lemma max_fold_ge t : forall m,
  m <= fold_left (fun m c' => if Qltb m (get_score c') then get_score c' else m) t m /\
  forall x, In x t ->
    get_score x <= fold_left (fun m c' => if Qltb m (get_score c') then get_score c' else m) t m.
Proof.
  induction t as [|c t IH]; intro m; cbn [fold_left].
  - split; [apply Qle_refl|intros x []].
  - set (m' := if Qltb m (get_score c) then get_score c else m).
    assert (Hm : m <= m' /\ get_score c <= m').
    { subst m'. destruct (Qltb m (get_score c)) eqn:E.
      - apply qltb_iff in E. split; [apply Qlt_le_weak; exact E|apply Qle_refl].
      - unfold Qltb in E. apply negb_false_iff, Qle_bool_iff in E.
        split; [apply Qle_refl|exact E]. }
    destruct (IH m') as [H1 H2]. destruct Hm as [Hm1 Hm2].
    split; [exact (Qle_trans _ _ _ Hm1 H1)|].
    intros x [<-|Hx]; [exact (Qle_trans _ _ _ Hm2 H1)|exact (H2 x Hx)].
Qed.

Lemma max_score_ge r x : In x r -> get_score x <= max_score r.
Proof.
  destruct r as [|c t]; [intros []|].
  destruct (max_fold_ge t (get_score c)) as [H1 H2].
  intros [<-|Hx]; [exact H1|exact (H2 x Hx)].
Qed.

(** ** The short-circuit of [process_query] *)

Lemma nonempty_true {A} (l : list A) : nonempty l = true -> l <> [].
Proof. destruct l; [discriminate|intros _; discriminate]. Qed.

(** C2: [process_query] answers with the sentinel, empty citations and
    retrieved chunks, without building a context or calling
    [chat_completion], exactly when the reranked list is empty, the
    confidence is ["low"], or the mode is ["openai"] and the top score is
    below the 0.50 floor. *)
Theorem C2_ungroundable_short_circuit (p : string)
    (chat_completion : string -> string -> string)
    (candidates : list candidate) (question mode : string) :
  let r := rerank candidates in
  let out := process_query p chat_completion candidates question mode in
  (answer (fst out) = NO_ANSWER /\ citations (fst out) = [] /\
   retrieved_chunks (fst out) = [] /\
   (forall sys q, ~ In (EvChat sys q) (snd out)) /\
   (forall ctx, ~ In (EvBuildContext ctx) (snd out))) <->
  (r = [] \/ determine_confidence p r = "low"%string \/
   (p = "openai"%string /\ max_score r < WEAK_MATCH_SCORE_THRESHOLD)).
Proof.
  intros r out. subst out. unfold process_query. fold r.
  cbv beta zeta.
  destruct (negb (nonempty r) || is_weak_match p r (determine_confidence p r)) eqn:E;
    cbn [fst snd answer citations retrieved_chunks].
  - split.
    + intros _. apply orb_true_iff in E as [E|E].
      * left. destruct r; [reflexivity|discriminate].
      * apply is_weak_match_iff in E as [E|[E|[E1 [_ E2]]]]; auto.
    + intros _. split; [reflexivity|split; [reflexivity|split; [reflexivity|]]].
      split; [intros sys q Hin|intros ctx Hin]; destruct Hin as [Hin|[]]; discriminate.
  - apply orb_false_iff in E as [E1 E2]. apply negb_false_iff in E1.
    split.
    + intros [_ [H _]]. exfalso. apply (nonempty_true _ E1).
      destruct r; [reflexivity|discriminate].
    + intros H. exfalso.
      assert (Hw : is_weak_match p r (determine_confidence p r) = true).
      { apply is_weak_match_iff.
        destruct H as [H|[H|[Hp Hm]]]; auto.
        right; right. split; [exact Hp|split; [exact (nonempty_true _ E1)|exact Hm]]. }
      congruence.
Qed.

(** ** The reranker *)

Lemma insert_desc_perm x l : Permutation (insert_desc x l) (x :: l).
Proof.
  induction l as [|y t IH]; cbn [insert_desc]; [reflexivity|].
  destruct (Qle_bool (get_score y) (get_score x)); [reflexivity|].
  exact (perm_trans (perm_skip y IH) (perm_swap x y t)).
Qed.

Lemma sorted_desc_perm l : Permutation (sorted_desc l) l.
Proof.
  induction l as [|x t IH]; cbn [sorted_desc]; [reflexivity|].
  exact (perm_trans (insert_desc_perm x (sorted_desc t)) (perm_skip x IH)).
Qed.

Lemma insert_desc_sorted x l :
  Sorted score_desc l -> Sorted score_desc (insert_desc x l).
Proof.
  induction l as [|y t IH]; intro H; cbn [insert_desc].
  - constructor; constructor.
  - destruct (Qle_bool (get_score y) (get_score x)) eqn:E.
    + constructor; [exact H|]. constructor. apply Qle_bool_iff, E.
    + apply qle_bool_false in E.
      apply Sorted_inv in H as [Ht Hh]. constructor; [apply IH, Ht|].
      destruct t as [|z t']; cbn [insert_desc].
      * constructor. apply Qlt_le_weak, E.
      * destruct (Qle_bool (get_score z) (get_score x)); constructor.
        -- apply Qlt_le_weak, E.
        -- inversion Hh; assumption.
Qed.

Lemma sorted_desc_sorted l : Sorted score_desc (sorted_desc l).
Proof.
  induction l as [|x t IH]; cbn [sorted_desc]; [constructor|].
  apply insert_desc_sorted, IH.
Qed.

Lemma insert_desc_filter q x l :
  filter (score_is q) (insert_desc x l) = filter (score_is q) (x :: l).
Proof.
  induction l as [|y t IH]; cbn [insert_desc]; [reflexivity|].
  destruct (Qle_bool (get_score y) (get_score x)) eqn:E; [reflexivity|].
  cbn [filter]. rewrite IH. cbn [filter].
  destruct (score_is q x) eqn:Ex, (score_is q y) eqn:Ey; try reflexivity.
  exfalso. unfold score_is in Ex, Ey. apply Qeq_bool_iff in Ex, Ey.
  assert (Hle : Qle_bool (get_score y) (get_score x) = true).
  { apply Qle_bool_iff. rewrite Ex, Ey. apply Qle_refl. }
  congruence.
Qed.

Lemma sorted_desc_filter q l :
  filter (score_is q) (sorted_desc l) = filter (score_is q) l.
Proof.
  induction l as [|x t IH]; cbn [sorted_desc]; [reflexivity|].
  rewrite insert_desc_filter. cbn [filter]. rewrite IH. reflexivity.
Qed.

Lemma score_desc_trans : Transitive score_desc.
Proof. intros a b c H1 H2. unfold score_desc in *. exact (Qle_trans _ _ _ H2 H1). Qed.

Lemma strongly_sorted_app_le l1 l2 :
  StronglySorted score_desc (l1 ++ l2) ->
  forall x y, In x l1 -> In y l2 -> score_desc x y.
Proof.
  induction l1 as [|a t IH]; intros H x y Hx Hy; [destruct Hx|].
  apply StronglySorted_inv in H as [Hs Hf].
  destruct Hx as [<-|Hx].
  - rewrite Forall_forall in Hf. apply Hf, in_or_app. right. exact Hy.
  - exact (IH Hs x y Hx Hy).
Qed.

(** C5: [_rerank] returns the first [RERANK_FINAL_K] = 6 elements of the
    stable score-descending sort of its input: that sort is a permutation of
    the input, ordered by descending score, and keeps candidates of equal
    score in input order; every kept score is at least every dropped one. *)
Theorem C5_rerank_prefix_of_stable_sort (candidates : list candidate) :
  let sorted := sorted_desc candidates in
  rerank candidates = firstn 6 sorted /\
  (List.length (rerank candidates) <= 6)%nat /\
  Permutation sorted candidates /\
  Sorted score_desc sorted /\
  (forall q, filter (score_is q) sorted = filter (score_is q) candidates) /\
  (forall x y, In x (rerank candidates) -> In y (skipn 6 sorted) -> score_desc x y).
Proof.
  intro sorted.
  split; [reflexivity|]. split; [apply firstn_le_length|].
  split; [apply sorted_desc_perm|]. split; [apply sorted_desc_sorted|].
  split; [intro q; apply sorted_desc_filter|].
  intros x y Hx Hy.
  apply (strongly_sorted_app_le (firstn 6 sorted) (skipn 6 sorted)); auto.
  rewrite firstn_skipn.
  apply Sorted_StronglySorted; [exact score_desc_trans|apply sorted_desc_sorted].
Qed.

(** ** The context assembler *)

Lemma str_app_nil_r (a : string) : (a ++ EmptyString)%string = a.
Proof. induction a as [|ch a IH]; cbn; [reflexivity|rewrite IH; reflexivity]. Qed.

Lemma str_app_assoc (a b c : string) : ((a ++ b) ++ c)%string = (a ++ (b ++ c))%string.
Proof. induction a as [|ch a IH]; cbn; [reflexivity|rewrite IH; reflexivity]. Qed.

Lemma context_parts_from_blocks parts i l :
  context_parts_from parts i l = parts ++ context_blocks i l.
Proof.
  revert parts i; induction l as [|c t IH]; intros parts i; cbn.
  - rewrite app_nil_r. reflexivity.
  - rewrite IH, <- app_assoc. reflexivity.
Qed.

Lemma context_blocks_snoc i l c :
  context_blocks i (l ++ [c]) = context_blocks i l ++ [context_block (i + List.length l) c].
Proof.
  revert i; induction l as [|d t IH]; intro i; cbn [app context_blocks List.length].
  - rewrite Nat.add_0_r. reflexivity.
  - rewrite IH, Nat.add_succ_r. reflexivity.
Qed.

Lemma concat_snoc sep xs y :
  xs <> [] -> String.concat sep (xs ++ [y]) = (String.concat sep xs ++ sep ++ y)%string.
Proof.
  induction xs as [|x t IH]; intro Hne; [contradiction|].
  destruct t as [|z t'].
  - reflexivity.
  - cbn [app]. cbn [app] in IH.
    change (String.concat sep (x :: z :: t' ++ [y]))
      with (String.append x (String.append sep (String.concat sep (z :: t' ++ [y])))).
    rewrite IH by discriminate.
    change (String.concat sep (x :: z :: t'))
      with (String.append x (String.append sep (String.concat sep (z :: t')))).
    rewrite !str_app_assoc. reflexivity.
Qed.

(** C9: with 1-based page numbers, a block's page reference is
    [", sida X"] when start and end agree or end is absent, [", sida X-Y"]
    when they differ, and absent without a start page; the context is the
    blocks labelled 1, 2, ... in rank order joined by the delimiter. *)
Theorem C9_context_format :
  (forall c, positive_pages c -> page_info c = page_ref_spec c) /\
  build_context [] = EmptyString /\
  (forall c, build_context [c] = context_block 1 c) /\
  (forall l c, l <> [] ->
     build_context (l ++ [c]) =
     (build_context l ++ context_delimiter ++ context_block (S (List.length l)) c)%string).
Proof.
  split; [|split; [reflexivity|split; [reflexivity|]]].
  - intros c [Hs He]. unfold page_info, page_ref_spec, truthy.
    destruct (cand_page_start c) as [x|] eqn:Ex; [|reflexivity].
    assert (Hx : Z.eqb x 0 = false) by (apply Z.eqb_neq; specialize (Hs x eq_refl); lia).
    rewrite Hx. cbn [negb].
    destruct (cand_page_end c) as [y|] eqn:Ey.
    + assert (Hy : Z.eqb y 0 = false) by (apply Z.eqb_neq; specialize (He y eq_refl); lia).
      rewrite Hy, Z.eqb_sym. cbn [negb andb].
      destruct (Z.eqb x y); cbn [negb]; [rewrite str_app_nil_r|]; reflexivity.
    + rewrite str_app_nil_r. reflexivity.
  - intros l c Hne. unfold build_context.
    rewrite !context_parts_from_blocks. cbn [app].
    rewrite context_blocks_snoc, concat_snoc.
    + reflexivity.
    + destruct l; [contradiction|discriminate].
Qed.

Lemma rerank_in c candidates : In c (rerank candidates) -> In c candidates.
Proof.
  unfold rerank. intro H.
  apply (Permutation_in _ (sorted_desc_perm candidates)).
  rewrite <- (firstn_skipn RERANK_FINAL_K (sorted_desc candidates)).
  apply in_or_app. left. exact H.
Qed.

Lemma rerank_length candidates : (List.length (rerank candidates) <= RERANK_FINAL_K)%nat.
Proof. unfold rerank. rewrite length_firstn. lia. Qed.

(** C10: for the reranked list of candidates whose scores are doubles (what
    Python holds), with the confidence [process_query] computes from the
    same list, [_is_weak_match] holds exactly when the list is empty or the
    confidence is ["low"], in every mode: in the semantic mode a confidence
    other than ["low"] puts the maximum score at or above the 0.50 floor,
    since at most six doubles all below 0.50 have a float mean below 0.50. *)
Theorem C10_weak_match_reduces (p : string) (candidates : list candidate) :
  Forall (fun c => is_double (get_score c) = true) candidates ->
  let r := rerank candidates in
  (is_weak_match p r (determine_confidence p r) = true <->
   r = [] \/ determine_confidence p r = "low"%string) /\
  (r <> [] -> determine_confidence "openai" r <> "low"%string ->
   WEAK_MATCH_SCORE_THRESHOLD <= max_score r).
Proof.
  intros Hd r.
  assert (Floor : r <> [] -> determine_confidence "openai" r <> "low"%string ->
                  WEAK_MATCH_SCORE_THRESHOLD <= max_score r).
  { intros Hne Hlow. apply Qnot_lt_le. intro Hlt. apply Hlow.
    rewrite (determine_confidence_avg _ _ Hne). cbn [String.eqb Ascii.eqb Bool.eqb andb].
    destruct (three_level _ _ (avg_score r) thresholds_semantic) as [_ [_ A3]].
    apply A3, semantic_low; [exact Hne|apply rerank_length|].
    intros c Hc. split.
    - rewrite Forall_forall in Hd. apply Hd, (rerank_in c candidates), Hc.
    - exact (Qle_lt_trans _ _ _ (max_score_ge r c Hc) Hlt). }
  split; [|exact Floor].
  rewrite is_weak_match_iff. split.
  - intros [H|[H|[Hp [Hne Hlt]]]]; auto.
    destruct (String.eqb (determine_confidence p r) "low") eqn:E.
    + right. apply String.eqb_eq, E.
    + apply String.eqb_neq in E. subst p. exfalso.
      exact (Qlt_not_le _ _ Hlt (Floor Hne E)).
  - intros [H|H]; auto.
Qed.

(** ** Concrete runs *)

Definition scenario_high : list candidate :=
  [Fixtures.cand "a" (9 # 10) None None; Fixtures.cand "b" (8 # 10) None None;
   Fixtures.cand "c" (75 # 100) None None].

(** The doubles of 0.85, 0.7, 0.7 in ["openai"] mode: float mean 0.75, high
    confidence; scores 0.9, 0.8, 0.75: all at least 0.75, high confidence. *)
Lemma C4_confidence_float_mean_witness :
  ce_doubles <> [] /\ fge (avg_score ce_doubles) (Fin (75 # 100)) = true /\
  determine_confidence "openai" ce_doubles = "high"%string /\
  scenario_high <> [] /\ (List.length scenario_high <= RERANK_FINAL_K)%nat /\
  Forall (fun c => 75 # 100 <= get_score c) scenario_high /\
  determine_confidence "openai" scenario_high = "high"%string.
Proof.
  assert (Hne : ce_doubles <> []) by discriminate.
  assert (Hf : fge (avg_score ce_doubles) (Fin (75 # 100)) = true) by (vm_compute; reflexivity).
  assert (Hne' : scenario_high <> []) by discriminate.
  assert (Hl : (List.length scenario_high <= RERANK_FINAL_K)%nat) by (vm_compute; lia).
  assert (Hs : Forall (fun c => 75 # 100 <= get_score c) scenario_high).
  { repeat (apply Forall_cons; [vm_compute; discriminate|]). apply Forall_nil. }
  split; [exact Hne|split; [exact Hf|split]].
  - exact (proj2 (proj1 (proj1 (proj2 (C4_confidence_float_mean ce_doubles)) Hne)) Hf).
  - split; [exact Hne'|split; [exact Hl|split; [exact Hs|]]].
    exact (proj1 (proj2 (proj2 (C4_confidence_float_mean scenario_high))) Hne' Hl Hs).
Defined.

Definition scenario_lexical : list candidate := [Fixtures.cand "a" (1 # 16) None None].

Definition scenario_medium : list candidate :=
  [Fixtures.cand "a" (1 # 2) None None; Fixtures.cand "b" (3 # 4) None None;
   Fixtures.cand "c" (1 # 4) None None].

(** A single lexical match of score 0.0625: medium confidence, hence not
    weak, though its score is below 0.50; scores 0.5, 0.75, 0.25 in
    ["openai"] mode: medium confidence and maximum score at least 0.50. *)
Lemma C10_weak_match_reduces_witness :
  Forall (fun c => is_double (get_score c) = true) scenario_lexical /\
  is_weak_match "fulltext" (rerank scenario_lexical)
    (determine_confidence "fulltext" (rerank scenario_lexical)) = false /\
  Forall (fun c => is_double (get_score c) = true) scenario_medium /\
  WEAK_MATCH_SCORE_THRESHOLD <= max_score (rerank scenario_medium).
Proof.
  assert (H1 : Forall (fun c => is_double (get_score c) = true) scenario_lexical).
  { repeat (apply Forall_cons; [vm_compute; reflexivity|]). apply Forall_nil. }
  assert (H2 : Forall (fun c => is_double (get_score c) = true) scenario_medium).
  { repeat (apply Forall_cons; [vm_compute; reflexivity|]). apply Forall_nil. }
  split; [exact H1|split; [|split; [exact H2|]]].
  - destruct (is_weak_match "fulltext" (rerank scenario_lexical)
                (determine_confidence "fulltext" (rerank scenario_lexical))) eqn:E;
      [|reflexivity].
    destruct (proj1 (proj1 (C10_weak_match_reduces "fulltext" scenario_lexical H1)) E)
      as [H|H]; vm_compute in H; discriminate H.
  - apply (proj2 (C10_weak_match_reduces "openai" scenario_medium H2));
      [vm_compute; discriminate|vm_compute; discriminate].
Defined.

Definition scenario_weak : list candidate :=
  [Fixtures.cand "a" (3 # 10) None None; Fixtures.cand "b" (4 # 10) None None].

(** Scores 0.3 and 0.4 in ["openai"] mode: low confidence, so the sentinel
    answer comes back and no context is built and no model is called. *)
Lemma C2_ungroundable_short_circuit_witness :
  answer (fst (process_query "openai" (fun _ _ => "x"%string) scenario_weak "q" "sales"))
    = NO_ANSWER /\
  (forall ctx, ~ In (EvBuildContext ctx)
     (snd (process_query "openai" (fun _ _ => "x"%string) scenario_weak "q" "sales"))).
Proof.
  destruct (proj2 (C2_ungroundable_short_circuit "openai" (fun _ _ => "x"%string)
                     scenario_weak "q" "sales")) as [H1 [_ [_ [_ H5]]]].
  - right. left. vm_compute. reflexivity.
  - split; [exact H1|exact H5].
Defined.

Definition scenario_ties : list candidate :=
  [Fixtures.cand "a" (5 # 10) None None; Fixtures.cand "b" (9 # 10) None None;
   Fixtures.cand "c" (5 # 10) None None; Fixtures.cand "d" (6 # 10) None None;
   Fixtures.cand "e" (5 # 10) None None; Fixtures.cand "f" (7 # 10) None None;
   Fixtures.cand "g" (5 # 10) None None].

(** Seven candidates, four tied at 0.5: the tied ones keep their input order
    and six are kept. *)
Lemma C5_rerank_prefix_of_stable_sort_witness :
  map chunk_id (rerank scenario_ties) = ["b"; "f"; "d"; "a"; "c"; "e"]%string /\
  filter (score_is (5 # 10)) (sorted_desc scenario_ties) =
    filter (score_is (5 # 10)) scenario_ties.
Proof.
  split; [vm_compute; reflexivity|].
  exact (proj1 (proj2 (proj2 (proj2 (proj2 (C5_rerank_prefix_of_stable_sort scenario_ties)))))
           (5 # 10)).
Defined.

(** The spec's scenarios: pages 3-3 render as [", sida 3"], pages 3-5 as
    [", sida 3-5"]. *)
Lemma C9_context_format_witness :
  page_info (Fixtures.cand "a" 1 (Some 3%Z) (Some 3%Z)) = ", sida 3"%string /\
  page_info (Fixtures.cand "b" 1 (Some 3%Z) (Some 5%Z)) = ", sida 3-5"%string.
Proof.
  assert (P : forall (i : string) (a b : Z), (0 < a)%Z -> (0 < b)%Z ->
            positive_pages (Fixtures.cand i 1 (Some a) (Some b))).
  { intros i a b Ha Hb. split; intros x Hx; injection Hx as <-; assumption. }
  split.
  - rewrite (proj1 C9_context_format _ (P "a"%string 3%Z 3%Z eq_refl eq_refl)). reflexivity.
  - rewrite (proj1 C9_context_format _ (P "b"%string 3%Z 5%Z eq_refl eq_refl)). reflexivity.
Defined.

End QueryProofs.

(** * The embedding cache gateway and the ingestion pipeline *)

Module StoreProofs.

Import Chunking Store Specs.

Section Gateway.

Variable ct : string -> nat.
Variable emb : string -> list Q.

Lemma select_cache_eq h w : select_cache h w = (inr (cached_vectors w h), w).
Proof. reflexivity. Qed.

Lemma gateway_off p c h w :
  p <> "openai"%string -> get_or_create_embedding ct emb p c h w = (inr None, w).
Proof.
  intro Hp. unfold get_or_create_embedding.
  apply String.eqb_neq in Hp. rewrite Hp. reflexivity.
Qed.

Lemma gateway_hit c h w v rest :
  cached_vectors w h = v :: rest ->
  get_or_create_embedding ct emb "openai" c h w = (inr (Some v), w).
Proof.
  intro Hv. unfold get_or_create_embedding. rewrite String.eqb_refl. cbn [negb].
  unfold bind. cbv beta. rewrite select_cache_eq, Hv. reflexivity.
Qed.

Lemma gateway_miss c h w :
  cached_vectors w h = [] ->
  get_or_create_embedding ct emb "openai" c h w =
  if cache_insert_fails w
  then (inl (APIError "embeddings_cache"),
        mk_world (embeddings_cache w) (knowledge_chunks w) (embed_requests w ++ [c])
                 (cache_insert_fails w) (chunks_insert_fails w))
  else (inr (Some (emb c)),
        mk_world (embeddings_cache w ++ [mk_cache_row h (emb c) (ct c) EMBEDDING_MODEL])
                 (knowledge_chunks w) (embed_requests w ++ [c])
                 (cache_insert_fails w) (chunks_insert_fails w)).
Proof.
  intro Hv. unfold get_or_create_embedding. rewrite String.eqb_refl. cbn [negb].
  unfold bind. cbv beta. rewrite select_cache_eq, Hv. cbn.
  destruct (cache_insert_fails w); reflexivity.
Qed.

Lemma cached_vectors_snoc w h r :
  cached_vectors w h = [] -> String.eqb (cr_content_hash r) h = true ->
  cached_vectors (mk_world (embeddings_cache w ++ [r]) (knowledge_chunks w)
                   (embed_requests w) (cache_insert_fails w) (chunks_insert_fails w)) h
  = [cr_embedding r].
Proof.
  unfold cached_vectors. cbn [embeddings_cache]. intros Hv Hr.
  rewrite filter_app, map_app. cbn [filter]. rewrite Hr.
  apply map_eq_nil in Hv. rewrite Hv. reflexivity.
Qed.

End Gateway.

(** C8: with [EMBEDDING_PROVIDER] other than ["openai"] the gateway returns
    [None] and touches nothing; in ["openai"] mode a cache hit returns the
    first stored vector with no embedding request; a miss embeds exactly the
    given content, appends [{content_hash, vector, token_count, model}] to
    the cache and returns the vector; and when cache inserts succeed, a
    second call with the same content hash returns the same vector and
    issues no further embedding request. *)
Theorem C8_gateway_cache (ct : string -> nat) (emb : string -> list Q) :
  (forall p c h w, p <> "openai"%string ->
     get_or_create_embedding ct emb p c h w = (inr None, w)) /\
  (forall c h w v rest, cached_vectors w h = v :: rest ->
     get_or_create_embedding ct emb "openai" c h w = (inr (Some v), w)) /\
  (forall c h w, cached_vectors w h = [] -> cache_insert_fails w = false ->
     get_or_create_embedding ct emb "openai" c h w =
     (inr (Some (emb c)),
      mk_world (embeddings_cache w ++ [mk_cache_row h (emb c) (ct c) EMBEDDING_MODEL])
               (knowledge_chunks w) (embed_requests w ++ [c])
               false (chunks_insert_fails w))) /\
  (forall p c c' h w r1 w1, cache_insert_fails w = false ->
     get_or_create_embedding ct emb p c h w = (inr r1, w1) ->
     get_or_create_embedding ct emb p c' h w1 = (inr r1, w1)).
Proof.
  split; [exact (gateway_off ct emb)|].
  split; [exact (gateway_hit ct emb)|].
  split.
  - intros c h w Hv Hf. rewrite (gateway_miss ct emb c h w Hv), Hf. reflexivity.
  - intros p c c' h w r1 w1 Hf H1.
    destruct (String.eqb p "openai") eqn:Ep.
    2:{ apply String.eqb_neq in Ep.
        rewrite (gateway_off ct emb p c h w Ep) in H1. injection H1 as <- <-.
        apply gateway_off, Ep. }
    apply String.eqb_eq in Ep. subst p.
    destruct (cached_vectors w h) as [|v rest] eqn:Hv.
    + rewrite (gateway_miss ct emb c h w Hv), Hf in H1. injection H1 as <- <-.
      apply (gateway_hit ct emb c' h _ (emb c) []).
      apply (cached_vectors_snoc w h (mk_cache_row h (emb c) (ct c) EMBEDDING_MODEL) Hv).
      apply String.eqb_refl.
    + rewrite (gateway_hit ct emb c h w v rest Hv) in H1. injection H1 as <- <-.
      apply (gateway_hit ct emb c' h w v rest Hv).
Qed.

Import Fixtures.

(** A concrete run: two calls for the same content on an empty cache. *)
Lemma C8_gateway_cache_witness :
  get_or_create_embedding word_count unit_embedder "openai" "a b." "h" empty_world =
    (inr (Some [1%Q]),
     mk_world [mk_cache_row "h" [1%Q] 2 EMBEDDING_MODEL] [] ["a b."%string] false false) /\
  get_or_create_embedding word_count unit_embedder "openai" "a b." "h"
    (mk_world [mk_cache_row "h" [1%Q] 2 EMBEDDING_MODEL] [] ["a b."%string] false false) =
    (inr (Some [1%Q]),
     mk_world [mk_cache_row "h" [1%Q] 2 EMBEDDING_MODEL] [] ["a b."%string] false false) /\
  get_or_create_embedding word_count unit_embedder "fulltext" "a b." "h" empty_world =
    (inr None, empty_world).
Proof.
  destruct (C8_gateway_cache word_count unit_embedder) as [Hoff [Hhit [Hmiss Hidem]]].
  split; [|split].
  - apply (Hmiss "a b."%string "h"%string empty_world); reflexivity.
  - apply (Hidem "openai"%string "a b."%string "a b."%string "h"%string empty_world);
      [reflexivity|].
    apply (Hmiss "a b."%string "h"%string empty_world); reflexivity.
  - apply Hoff. discriminate.
Defined.

Section Ingestion.

Variable ct : string -> nat.
Variable emb : string -> list Q.
Variable sha : string -> string.

Lemma chunk_to_row_hit doc ch w v rest :
  cached_vectors w (sha (content ch)) = v :: rest ->
  exists r, chunk_to_row ct emb sha "openai" doc ch w = (inr r, w).
Proof.
  intro Hv. unfold chunk_to_row, bind. cbv beta zeta.
  rewrite (gateway_hit ct emb _ _ w v rest Hv). eexists. reflexivity.
Qed.

Lemma chunk_to_row_miss doc ch w :
  cached_vectors w (sha (content ch)) = [] -> cache_insert_fails w = true ->
  exists w', chunk_to_row ct emb sha "openai" doc ch w = (inl (APIError "embeddings_cache"), w')
    /\ embeddings_cache w' = embeddings_cache w /\ knowledge_chunks w' = knowledge_chunks w.
Proof.
  intros Hv Hf. unfold chunk_to_row, bind. cbv beta zeta.
  rewrite (gateway_miss ct emb _ _ w Hv), Hf. eexists. split; [reflexivity|auto].
Qed.

Lemma map_m_cache_failure doc l w :
  cache_insert_fails w = true ->
  (exists ch, In ch l /\ cached_vectors w (sha (content ch)) = []) ->
  exists w', map_m (chunk_to_row ct emb sha "openai" doc) l w =
             (inl (APIError "embeddings_cache"), w')
    /\ embeddings_cache w' = embeddings_cache w /\ knowledge_chunks w' = knowledge_chunks w.
Proof.
  intros Hf. induction l as [|ch t IH]; intros [m [Hin Hm]]; [destruct Hin|].
  cbn [map_m]. unfold bind at 1.
  destruct (cached_vectors w (sha (content ch))) as [|v rest] eqn:Hv.
  - destruct (chunk_to_row_miss doc ch w Hv Hf) as [w' [Heq Hw']].
    rewrite Heq. exists w'. auto.
  - destruct (chunk_to_row_hit doc ch w v rest Hv) as [r Heq]. rewrite Heq.
    destruct Hin as [<-|Hin]; [congruence|].
    destruct (IH (ex_intro _ m (conj Hin Hm))) as [w' [Heq' Hw']].
    unfold bind. rewrite Heq'. exists w'. auto.
Qed.

End Ingestion.

(** C3, as the code behaves: the cache insert is not guarded, so in
    ["openai"] mode, when storing a newly computed embedding fails, the
    failure propagates out of [ingest_document]: the ingestion raises that
    error and no chunk of the document is stored in that run. *)
Theorem C3_cache_failure_propagates (ct : string -> nat) (emb : string -> list Q)
    (sha : string -> string) (doc : string) (ss : list sentence) (w : world) :
  cache_insert_fails w = true ->
  (exists ch, In ch (split_into_chunks ct ss) /\ cached_vectors w (sha (content ch)) = []) ->
  exists w', ingest_document ct emb sha "openai" doc ss w =
             (inl (APIError "embeddings_cache"), w')
    /\ knowledge_chunks w' = knowledge_chunks w
    /\ embeddings_cache w' = embeddings_cache w.
Proof.
  intros Hf Hex. unfold ingest_document, bind. cbv zeta.
  destruct (map_m_cache_failure ct emb sha doc _ w Hf Hex) as [w' [Heq [Hc Hk]]].
  rewrite Heq. exists w'. auto.
Qed.

(** One sentence of 100 words, an empty cache whose inserts fail. *)
Lemma C3_cache_failure_propagates_witness :
  cache_insert_fails failing_cache_world = true /\
  (exists ch, In ch (split_into_chunks word_count [s100]) /\
     cached_vectors failing_cache_world (id_hash (content ch)) = []) /\
  exists w', ingest_document word_count unit_embedder id_hash "openai" "doc" [s100]
               failing_cache_world = (inl (APIError "embeddings_cache"), w')
    /\ knowledge_chunks w' = knowledge_chunks failing_cache_world
    /\ embeddings_cache w' = embeddings_cache failing_cache_world.
Proof.
  assert (Hex : exists ch, In ch (split_into_chunks word_count [s100]) /\
     cached_vectors failing_cache_world (id_hash (content ch)) = []).
  { exists (make_chunk (mk_closed 0 [s100] 100)). split; [left; vm_compute; reflexivity|reflexivity]. }
  split; [reflexivity|]. split; [exact Hex|].
  exact (C3_cache_failure_propagates word_count unit_embedder id_hash "doc" [s100]
           failing_cache_world eq_refl Hex).
Defined.

Lemma ingest_fixture_fails :
  fst (ingest_document word_count unit_embedder id_hash "openai" "doc" [s100]
         failing_cache_world) = inl (APIError "embeddings_cache").
Proof. vm_compute. reflexivity. Qed.

(** C3 as stated does not hold: with a failing cache insert, ingesting a
    one-sentence document in ["openai"] mode does not succeed. *)
Lemma C3_counterexample :
  ~ (forall (ct : string -> nat) (emb : string -> list Q) (sha : string -> string)
            doc ss w,
       cache_insert_fails w = true -> chunks_insert_fails w = false -> ss <> [] ->
       exists n w', ingest_document ct emb sha "openai" doc ss w = (inr n, w')
                    /\ knowledge_chunks w' <> knowledge_chunks w).
Proof.
  intro H.
  destruct (H word_count unit_embedder id_hash "doc"%string [s100] failing_cache_world
              eq_refl eq_refl ltac:(discriminate)) as [n [w' [Heq _]]].
  pose proof ingest_fixture_fails as Hf. rewrite Heq in Hf. discriminate.
Qed.

End StoreProofs.

(** * Proofs: text extraction and sentence segmentation *)

Module TextProofs.

Import Chunking Text.

(** ** [str.strip] *)

Definition nsp (c : char) : bool := negb (is_space c).

(** No whitespace at either end. *)
Definition no_edge_space (x : text) : Prop :=
  (forall c, hd_error x = Some c -> is_space c = false) /\
  (forall c, hd_error (rev x) = Some c -> is_space c = false).

Lemma lstrip_app u v :
  lstrip (u ++ v) = if forallb is_space u then lstrip v else lstrip u ++ v.
Proof.
  induction u as [|c u IH]; [reflexivity|].
  cbn [app lstrip forallb]. destruct (is_space c); cbn [andb]; [exact IH|reflexivity].
Qed.

Lemma lstrip_hd x c : hd_error (lstrip x) = Some c -> is_space c = false.
Proof.
  induction x as [|d x IH]; cbn [lstrip]; [discriminate|].
  destruct (is_space d) eqn:E; [exact IH|]. cbn. intro H. injection H as <-. exact E.
Qed.

Lemma lstrip_id x : (forall c, hd_error x = Some c -> is_space c = false) -> lstrip x = x.
Proof.
  destruct x as [|d x]; [reflexivity|]. intro H. cbn [lstrip].
  rewrite (H d eq_refl). reflexivity.
Qed.

Lemma lstrip_split x : exists a, x = a ++ lstrip x /\ forallb is_space a = true.
Proof.
  induction x as [|d x [a [Ha Hs]]]; [exists []; auto|].
  cbn [lstrip]. destruct (is_space d) eqn:E.
  - exists (d :: a). cbn [app forallb]. rewrite E, Hs. split; [rewrite <- Ha|]; reflexivity.
  - exists []. auto.
Qed.

Lemma forallb_space_last a c : forallb is_space a = true -> hd_error (rev a) = Some c ->
  is_space c = true.
Proof.
  intros Ha Hc. rewrite forallb_forall in Ha. apply Ha.
  destruct (rev a) as [|d r] eqn:E; [discriminate|]. injection Hc as ->.
  apply in_rev. rewrite E. left. reflexivity.
Qed.

Lemma lstrip_last x c : hd_error (rev x) = Some c -> is_space c = false ->
  hd_error (rev (lstrip x)) = Some c.
Proof.
  intros Hc Hn. destruct (lstrip_split x) as [a [Ha Hs]].
  destruct (lstrip x) as [|d t] eqn:E.
  - rewrite app_nil_r in Ha. subst x.
    rewrite (forallb_space_last a c Hs Hc) in Hn. discriminate.
  - rewrite Ha, rev_app_distr in Hc. cbn [rev] in Hc |- *.
    destruct (rev t ++ [d]) eqn:E2; [destruct (rev t); discriminate|exact Hc].
Qed.

Lemma rstrip_split x : exists b, x = rstrip x ++ b /\ forallb is_space b = true.
Proof.
  destruct (lstrip_split (rev x)) as [a [Ha Hs]]. exists (rev a). unfold rstrip.
  set (y := lstrip (rev x)) in *. split.
  - rewrite <- (rev_involutive x), Ha, rev_app_distr. reflexivity.
  - rewrite forallb_forall in Hs |- *. intros z Hz. apply Hs, in_rev, Hz.
Qed.

Lemma strip_no_edge_space x : no_edge_space (strip x).
Proof.
  unfold strip, rstrip. split.
  - intros c Hc.
    destruct (hd_error (lstrip x)) as [d|] eqn:Hd.
    + assert (Hl := lstrip_hd x d Hd).
      assert (H2 : hd_error (rev (rev (lstrip x))) = Some d) by (rewrite rev_involutive; exact Hd).
      rewrite (lstrip_last (rev (lstrip x)) d H2 Hl) in Hc. injection Hc as <-. exact Hl.
    + destruct (lstrip x); [|discriminate]. discriminate.
  - intros c Hc. rewrite rev_involutive in Hc. exact (lstrip_hd _ c Hc).
Qed.

Lemma strip_id x : no_edge_space x -> strip x = x.
Proof.
  intros [H1 H2]. unfold strip, rstrip. rewrite (lstrip_id x H1), (lstrip_id (rev x) H2).
  apply rev_involutive.
Qed.

Lemma strip_idem x : strip (strip x) = strip x.
Proof. apply strip_id, strip_no_edge_space. Qed.

Lemma strip_infix x : exists a b, x = a ++ strip x ++ b /\
  forallb is_space a = true /\ forallb is_space b = true.
Proof.
  destruct (lstrip_split x) as [a [Ha Hsa]]. destruct (rstrip_split (lstrip x)) as [b [Hb Hsb]].
  exists a, b. unfold strip. split; [|auto]. rewrite <- Hb. exact Ha.
Qed.

Lemma filter_nsp_spaces a : forallb is_space a = true -> filter nsp a = [].
Proof.
  induction a as [|c a IH]; cbn; [reflexivity|]. unfold nsp.
  destruct (is_space c); cbn; [exact IH|discriminate].
Qed.

Lemma filter_nsp_strip x : filter nsp (strip x) = filter nsp x.
Proof.
  destruct (strip_infix x) as [a [b [Hx [Ha Hb]]]].
  rewrite Hx at 2. rewrite !filter_app, (filter_nsp_spaces a Ha), (filter_nsp_spaces b Hb).
  rewrite app_nil_r. reflexivity.
Qed.

(** ** [re.split(r"(?<=[.!?])\s+", ...)] *)

Definition ends_term (x : text) : bool :=
  match rev x with c :: _ => is_term c | [] => false end.

(** No [.], [!] or [?] directly followed by whitespace inside [x]. *)
Definition no_term_space (x : text) : Prop :=
  forall a b c d, x = a ++ c :: d :: b -> is_term c = true -> is_space d = true -> False.

(** [P] holds of every element but the last. *)
Fixpoint all_but_last {A} (P : A -> Prop) (l : list A) : Prop :=
  match l with
  | [] => True
  | [_] => True
  | x :: t => P x /\ all_but_last P t
  end.

Lemma filter_nsp_space c t : is_space c = true -> filter nsp (c :: t) = filter nsp t.
Proof. intro H. cbn [filter]. unfold nsp at 1. rewrite H. reflexivity. Qed.

Lemma re_split_content pt im cur s :
  filter nsp (List.concat (re_split_term pt im cur s)) = filter nsp (cur ++ s).
Proof.
  revert pt im cur; induction s as [|c t IH]; intros pt im cur; cbn [re_split_term].
  - cbn [List.concat]. rewrite !app_nil_r. reflexivity.
  - destruct (im && is_space c) eqn:E1.
    + apply andb_true_iff in E1 as [_ Hc].
      rewrite IH, !filter_app, filter_nsp_space by exact Hc. reflexivity.
    + destruct (negb im && pt && is_space c) eqn:E2.
      * apply andb_true_iff in E2 as [_ Hc]. cbn [List.concat].
        rewrite filter_app, IH, !filter_app, filter_nsp_space by exact Hc. reflexivity.
      * rewrite IH, <- app_assoc. reflexivity.
Qed.

Lemma re_split_nonempty pt im cur s : re_split_term pt im cur s <> [].
Proof.
  revert pt im cur; induction s as [|c t IH]; intros pt im cur; cbn [re_split_term];
    [discriminate|].
  destruct (im && is_space c); [apply IH|].
  destruct (negb im && pt && is_space c); [discriminate|apply IH].
Qed.

Lemma re_split_infix pt im cur s x :
  (im = true -> cur = []) ->
  In x (re_split_term pt im cur s) ->
  (exists u v, s = u ++ v /\ x = cur ++ u) \/ (exists a b, s = a ++ x ++ b).
Proof.
  revert pt im cur; induction s as [|c t IH]; intros pt im cur Him Hin;
    cbn [re_split_term] in Hin.
  - destruct Hin as [<-|[]]. left. exists [], []. rewrite !app_nil_r. auto.
  - destruct (im && is_space c) eqn:E1.
    + apply andb_true_iff in E1 as [Hi _]. rewrite (Him Hi) in *.
      destruct (IH false true [] (fun _ => eq_refl) Hin) as [[u [v [-> ->]]]|[a [b ->]]].
      * right. exists [c], v. reflexivity.
      * right. exists (c :: a), b. reflexivity.
    + destruct (negb im && pt && is_space c) eqn:E2.
      * destruct Hin as [<-|Hin].
        -- left. exists [], (c :: t). rewrite app_nil_r. auto.
        -- destruct (IH false true [] (fun _ => eq_refl) Hin)
             as [[u [v [-> ->]]]|[a [b ->]]].
           ++ right. exists [c], v. reflexivity.
           ++ right. exists (c :: a), b. reflexivity.
      * destruct (IH (is_term c) false (cur ++ [c]) ltac:(discriminate) Hin)
          as [[u [v [-> ->]]]|[a [b ->]]].
        -- left. exists (c :: u), v. rewrite <- app_assoc. auto.
        -- right. exists (c :: a), b. reflexivity.
Qed.

Lemma no_term_space_snoc cur c :
  no_term_space cur -> (ends_term cur = true -> is_space c = false) ->
  no_term_space (cur ++ [c]).
Proof.
  intros Hn Hc a b c1 d1 Heq Ht Hs.
  destruct b as [|b0 b'] using rev_ind.
  - assert (Heq' : (a ++ [c1]) ++ [d1] = cur ++ [c]) by (rewrite <- app_assoc; exact (eq_sym Heq)).
    apply app_inj_tail in Heq' as [<- <-].
    assert (He : ends_term (a ++ [c1]) = true).
    { unfold ends_term. rewrite rev_unit. exact Ht. }
    rewrite (Hc He) in Hs. discriminate.
  - assert (Heq' : (a ++ c1 :: d1 :: b') ++ [b0] = cur ++ [c]).
    { rewrite <- app_assoc. cbn [app]. exact (eq_sym Heq). }
    apply app_inj_tail in Heq' as [Hcur _].
    exact (Hn a b' c1 d1 (eq_sym Hcur) Ht Hs).
Qed.

Lemma all_but_last_cons {A} (P : A -> Prop) x l :
  l <> [] -> P x -> all_but_last P l -> all_but_last P (x :: l).
Proof. destruct l; [contradiction|]. intros _ Hx Hl. split; assumption. Qed.

Lemma re_split_shape pt im cur s :
  (im = true -> cur = [] /\ pt = false) -> pt = ends_term cur -> no_term_space cur ->
  all_but_last (fun x => ends_term x = true) (re_split_term pt im cur s) /\
  Forall no_term_space (re_split_term pt im cur s).
Proof.
  revert pt im cur; induction s as [|c t IH]; intros pt im cur Him Hpt Hn;
    cbn [re_split_term].
  - split; [exact I|constructor; [exact Hn|constructor]].
  - assert (Hnil : no_term_space []) by (intros a b c1 d1 H; destruct a; discriminate).
    destruct (im && is_space c) eqn:E1.
    + apply andb_true_iff in E1 as [Hi _]. destruct (Him Hi) as [-> _].
      apply IH; auto.
    + destruct (negb im && pt && is_space c) eqn:E2.
      * apply andb_true_iff in E2 as [E2 _]. apply andb_true_iff in E2 as [_ Hp].
        destruct (IH false true [] (fun _ => conj eq_refl eq_refl) eq_refl Hnil) as [H1 H2].
        split.
        -- apply all_but_last_cons; [apply re_split_nonempty|congruence|exact H1].
        -- constructor; [exact Hn|exact H2].
      * apply IH.
        -- discriminate.
        -- unfold ends_term. rewrite rev_unit. reflexivity.
        -- apply no_term_space_snoc; [exact Hn|]. intro He.
           destruct im.
           ++ destruct (Him eq_refl) as [-> _]. discriminate.
           ++ subst pt. rewrite He in E2. exact E2.
Qed.

Lemma is_term_not_space c : is_term c = true -> is_space c = false.
Proof.
  unfold is_term. intro H.
  repeat (apply orb_true_iff in H as [H|H]); apply Z.eqb_eq in H; subst c; reflexivity.
Qed.

Lemma ends_term_strip x : ends_term x = true -> ends_term (strip x) = true.
Proof.
  unfold ends_term. destruct (rev x) as [|c r] eqn:E; [discriminate|]. intro Ht.
  assert (Hn := is_term_not_space c Ht).
  assert (Hl : hd_error (rev (lstrip x)) = Some c) by (apply lstrip_last; [rewrite E|]; auto).
  assert (Hs : strip x = lstrip x).
  { unfold strip, rstrip. rewrite lstrip_id; [apply rev_involutive|].
    intros d Hd. rewrite Hl in Hd. injection Hd as <-. exact Hn. }
  rewrite Hs. destruct (rev (lstrip x)); [discriminate|]. injection Hl as ->. exact Ht.
Qed.

Lemma no_term_space_infix a x b : no_term_space (a ++ x ++ b) -> no_term_space x.
Proof.
  intros H a' b' c d Hx. apply (H (a ++ a') (b' ++ b) c d).
  rewrite Hx, <- !app_assoc. reflexivity.
Qed.

Lemma all_but_last_filter {A} (P : A -> Prop) (f : A -> bool) l :
  all_but_last P l -> all_but_last P (filter f l).
Proof.
  induction l as [|x t IH]; [auto|]. intro H. cbn [filter].
  assert (Ht : all_but_last P t) by (destruct t; [exact I|exact (proj2 H)]).
  destruct (f x); [|exact (IH Ht)].
  destruct (filter f t) as [|y u] eqn:E; [exact I|].
  split; [|exact (IH Ht)].
  destruct t as [|z t']; [discriminate|exact (proj1 H)].
Qed.

Lemma all_but_last_map {A B} (P : A -> Prop) (Q : B -> Prop) (g : A -> B) l :
  (forall x, P x -> Q (g x)) -> all_but_last P l -> all_but_last Q (map g l).
Proof.
  intro Hg. induction l as [|x t IH]; [auto|]. destruct t as [|y u]; [intros; exact I|].
  intros [Hx Ht]. split; [exact (Hg x Hx)|exact (IH Ht)].
Qed.

Lemma map_fst_page_sentences p txt :
  map fst (page_sentences p txt) = filter nonempty (map strip (split_sentences txt)).
Proof. unfold page_sentences. rewrite map_map. apply map_id. Qed.

Lemma filter_concat (f : char -> bool) (l : list text) :
  filter f (List.concat l) = List.concat (map (filter f) l).
Proof. induction l as [|x t IH]; [reflexivity|]. cbn. rewrite filter_app, IH. reflexivity. Qed.

Lemma concat_filter_nonempty (l : list text) : List.concat (filter nonempty l) = List.concat l.
Proof. induction l as [|[|c x] t IH]; cbn; [reflexivity|exact IH|rewrite IH; reflexivity]. Qed.

Lemma page_sentences_content p txt :
  filter nsp (List.concat (map fst (page_sentences p txt))) = filter nsp txt.
Proof.
  rewrite map_fst_page_sentences, concat_filter_nonempty, filter_concat, map_map.
  rewrite (map_ext _ _ filter_nsp_strip), <- filter_concat.
  exact (re_split_content false false [] txt).
Qed.

(** X1: every sentence unit built from a page map is non-empty, has no
    whitespace at either end, and is a contiguous piece of the text of the
    page whose number it carries. *)
Theorem X1_sentence_units (page_map : list (Z * text)) x q :
  In (x, q) (sentences_of page_map) ->
  x <> [] /\ strip x = x /\
  exists page_text a b, In (q, page_text) page_map /\ page_text = a ++ x ++ b.
Proof.
  unfold sentences_of. intro H. apply in_flat_map in H as [[p txt] [Hpm Hin]].
  unfold page_sentences in Hin. apply in_map_iff in Hin as [sent [Heq Hin]].
  injection Heq as -> ->. apply filter_In in Hin as [Hin Hne].
  apply in_map_iff in Hin as [piece [<- Hp]].
  split; [destruct (strip piece); [discriminate|intro; discriminate]|].
  split; [apply strip_idem|].
  destruct (strip_infix piece) as [a' [b' [Hpiece _]]].
  destruct (re_split_infix false false [] txt piece ltac:(discriminate) Hp)
    as [[u [v [Ht Hu]]]|[a [b Ht]]].
  - exists txt, a', (b' ++ v). split; [exact Hpm|].
    cbn [app] in Hu. subst piece. rewrite Ht. rewrite Hpiece at 1.
    rewrite <- !app_assoc. reflexivity.
  - exists txt, (a ++ a'), (b' ++ b). split; [exact Hpm|].
    rewrite Ht. rewrite Hpiece at 1. rewrite <- !app_assoc. reflexivity.
Qed.

Lemma X1_sentence_units_witness :
  In (lit "Hi.", 1%Z) (sentences_of [(1%Z, lit "Hi. Yo")]) /\
  (lit "Hi." <> [] /\ strip (lit "Hi.") = lit "Hi." /\
   exists page_text a b, In (1%Z, page_text) [(1%Z, lit "Hi. Yo")] /\
                         page_text = a ++ lit "Hi." ++ b).
Proof.
  assert (H : In (lit "Hi.", 1%Z) (sentences_of [(1%Z, lit "Hi. Yo")]))
    by (vm_compute; left; reflexivity).
  split; [exact H|exact (X1_sentence_units _ _ _ H)].
Defined.

(** X2: segmentation loses no character other than whitespace and keeps the
    order: the sentence units of a page map, concatenated, have the same
    non-whitespace characters as the pages' texts concatenated. *)
Theorem X2_sentence_content (page_map : list (Z * text)) :
  filter nsp (List.concat (map fst (sentences_of page_map))) =
  filter nsp (List.concat (map snd page_map)).
Proof.
  induction page_map as [|[p txt] t IH]; [reflexivity|].
  unfold sentences_of in *. cbn [flat_map map List.concat fst snd].
  rewrite map_app, concat_app, !filter_app, IH, page_sentences_content. reflexivity.
Qed.

(** X3: on one page, every sentence but the last ends with [.], [!] or [?],
    and no sentence contains one of them directly followed by whitespace:
    the page is cut at every such place and nowhere else. *)
Theorem X3_sentence_boundaries (p : Z) (page_text : text) :
  all_but_last (fun x => ends_term x = true) (map fst (page_sentences p page_text)) /\
  Forall no_term_space (map fst (page_sentences p page_text)).
Proof.
  rewrite map_fst_page_sentences.
  assert (Hnil : no_term_space []) by (intros a b c1 d1 H; destruct a; discriminate).
  destruct (re_split_shape false false [] page_text ltac:(discriminate) eq_refl Hnil)
    as [H1 H2].
  split.
  - apply all_but_last_filter. exact (all_but_last_map _ _ strip _ ends_term_strip H1).
  - apply Forall_forall. intros y Hy. apply filter_In in Hy as [Hy _].
    revert y Hy. apply Forall_forall. apply Forall_map. refine (Forall_impl _ _ H2).
    intros x Hx. destruct (strip_infix x) as [a [b [Hx' _]]].
    rewrite Hx' in Hx. exact (no_term_space_infix a _ b Hx).
Qed.

(** ** [re.sub(r"<[^>]+>", " ", text)] *)

(** [re.search(r"<[^>]+>", x)] finds nothing: a [<] followed by a run of
    characters other than [>] and then a [>] has an empty run. *)
Definition no_tag (x : text) : Prop :=
  forall a b c, x = a ++ LT :: b ++ GT :: c -> ~ In GT b -> b = [].

(** Every [<] is directly followed by [>], or no [>] comes after it. *)
Definition lt_ok (x : text) : Prop :=
  forall a y, x = a ++ LT :: y -> (exists y', y = GT :: y') \/ ~ In GT y.

Lemma lt_ok_nil : lt_ok [].
Proof. intros a y H. destruct a; discriminate. Qed.

Lemma lt_ok_cons c x : c <> LT -> lt_ok x -> lt_ok (c :: x).
Proof.
  intros Hc Hx [|d a] y H; cbn [app] in H; injection H as H1 H2.
  - contradiction.
  - exact (Hx a y H2).
Qed.

Lemma lt_ok_tail c x : lt_ok (c :: x) -> lt_ok x.
Proof. intros H a y E. apply (H (c :: a) y). rewrite E. reflexivity. Qed.

Lemma lt_ok_pair x : lt_ok x -> lt_ok (LT :: GT :: x).
Proof.
  intros Hx [|d [|e a]] y H; cbn [app] in H.
  - left. exists x. injection H as H. symmetry. exact H.
  - unfold LT, GT in H. discriminate.
  - injection H as _ _ H. exact (Hx a y H).
Qed.

Lemma lt_ok_open x : ~ In GT x -> lt_ok (LT :: x).
Proof.
  intros Hx [|d a] y H; cbn [app] in H; right.
  - injection H as H. subst. exact Hx.
  - injection H as _ H. intro Hy. apply Hx. rewrite H. apply in_or_app. right. right. exact Hy.
Qed.

Lemma first_gt s : In GT s -> exists u v, s = u ++ GT :: v /\ ~ In GT u.
Proof.
  induction s as [|c t IH]; intro H; [contradiction|].
  destruct (Z.eq_dec c GT) as [->|Hc].
  - exists [], t. split; [reflexivity|intro F; exact F].
  - destruct H as [H|H]; [congruence|].
    destruct (IH H) as [u [v [-> Hu]]].
    exists (c :: u), v. split; [reflexivity|].
    intros [F|F]; [congruence|contradiction].
Qed.

(** Inside a candidate tag: with no [>] ahead it is kept as it was read. *)
Lemma sub_tags_open b s : ~ In GT s -> sub_tags (Some b) s = LT :: b ++ s.
Proof.
  revert b; induction s as [|c t IH]; intros b Hs; cbn [sub_tags].
  - rewrite app_nil_r. reflexivity.
  - assert (Hc : Z.eqb c GT = false)
      by (apply Z.eqb_neq; intro E; apply Hs; left; exact E).
    rewrite Hc, IH, <- app_assoc; [reflexivity|].
    intro F. apply Hs. right. exact F.
Qed.

(** ... and the first [>] ahead closes it. *)
Lemma sub_tags_close b u v : ~ In GT u ->
  sub_tags (Some b) (u ++ GT :: v) =
  match b ++ u with [] => [LT; GT] | _ => [SPACE] end ++ sub_tags None v.
Proof.
  revert b; induction u as [|c t IH]; intros b Hu; cbn [app sub_tags].
  - rewrite Z.eqb_refl, app_nil_r. destruct b; reflexivity.
  - assert (Hc : Z.eqb c GT = false)
      by (apply Z.eqb_neq; intro E; apply Hu; left; exact E).
    rewrite Hc, IH, <- app_assoc; [reflexivity|].
    intro F. apply Hu. right. exact F.
Qed.

Lemma strip_tags_lt_ok_len n s : (List.length s <= n)%nat ->
  lt_ok (sub_tags None s) /\ (List.length (sub_tags None s) <= List.length s)%nat.
Proof.
  revert s; induction n as [|n IH]; intros [|c t] Hl; cbn [List.length] in Hl;
    try (split; [exact lt_ok_nil|cbn; lia]); [lia|].
  cbn [sub_tags]. destruct (Z.eqb c LT) eqn:E.
  - destruct (in_dec Z.eq_dec GT t) as [Hi|Hn].
    + destruct (first_gt t Hi) as [u [v [-> Hu]]].
      rewrite sub_tags_close by exact Hu. cbn [app].
      rewrite length_app in Hl. cbn [List.length] in Hl.
      destruct (IH v ltac:(lia)) as [H1 H2].
      rewrite !length_app. cbn [List.length].
      destruct u as [|d u]; cbn [app List.length].
      * split; [exact (lt_ok_pair _ H1)|lia].
      * split; [apply lt_ok_cons; [unfold SPACE, LT; discriminate|exact H1]|rewrite length_app; cbn [List.length]; lia].
    + rewrite sub_tags_open by exact Hn. cbn [app List.length].
      split; [exact (lt_ok_open t Hn)|lia].
  - destruct (IH t ltac:(lia)) as [H1 H2]. cbn [List.length].
    split; [|lia]. apply lt_ok_cons; [apply Z.eqb_neq; exact E|exact H1].
Qed.

Lemma lt_ok_fix_len n x : (List.length x <= n)%nat -> lt_ok x -> sub_tags None x = x.
Proof.
  revert x; induction n as [|n IH]; intros [|c t] Hl Hx; cbn [List.length] in Hl;
    try reflexivity; [lia|].
  cbn [sub_tags]. destruct (Z.eqb c LT) eqn:E.
  - apply Z.eqb_eq in E. subst c.
    destruct (Hx [] t eq_refl) as [[t' ->]|Hn].
    + cbn [sub_tags]. rewrite Z.eqb_refl. cbn [List.length] in Hl.
      rewrite (IH t'); [reflexivity|lia|].
      exact (lt_ok_tail _ _ (lt_ok_tail _ _ Hx)).
    + rewrite sub_tags_open by exact Hn. reflexivity.
  - rewrite (IH t); [reflexivity|lia|exact (lt_ok_tail _ _ Hx)].
Qed.

Lemma lt_ok_no_tag x : lt_ok x -> no_tag x.
Proof.
  intros H a b c E Hb. destruct (H a (b ++ GT :: c) E) as [[y' Hy]|Hn].
  - destruct b as [|d b']; [reflexivity|]. cbn [app] in Hy. injection Hy as Hd _.
    subst d. exfalso. apply Hb. left. reflexivity.
  - exfalso. apply Hn. apply in_or_app. right. left. reflexivity.
Qed.

Lemma no_tag_lt_ok x : no_tag x -> lt_ok x.
Proof.
  intros H a y E. destruct (in_dec Z.eq_dec GT y) as [Hi|Hn]; [left|right; exact Hn].
  destruct (first_gt y Hi) as [u [v [-> Hu]]].
  rewrite (H a u v E Hu). exists v. reflexivity.
Qed.

(** X4: after the tag substitution of an HTML upload no [<...>] tag is left,
    the text never gets longer, and the substitution is the identity
    exactly on texts without a tag, so applying it twice is applying it
    once. *)
Theorem X4_strip_tags (s : text) :
  no_tag (strip_tags s) /\ (List.length (strip_tags s) <= List.length s)%nat /\
  (strip_tags s = s <-> no_tag s) /\ strip_tags (strip_tags s) = strip_tags s.
Proof.
  destruct (strip_tags_lt_ok_len _ s (le_n _)) as [H1 H2].
  assert (Hfix : forall x, no_tag x -> strip_tags x = x)
    by (intros x Hx; exact (lt_ok_fix_len _ x (le_n _) (no_tag_lt_ok x Hx))).
  split; [exact (lt_ok_no_tag _ H1)|split; [exact H2|split]].
  - split; [intro E; rewrite <- E; exact (lt_ok_no_tag _ H1)|apply Hfix].
  - apply Hfix. exact (lt_ok_no_tag _ H1).
Qed.

(** ** [extract_text_from_pdf] *)

Lemma pdf_pages_from_in i pages p x :
  In (p, x) (pdf_pages_from i pages) <->
  exists k, p = Z.of_nat (S (i + k)) /\ nth_error pages k = Some (Some x) /\ strip x <> [].
Proof.
  revert i; induction pages as [|o t IH]; intro i; cbn [pdf_pages_from].
  - split; [intro H; contradiction|intros [[|k] [_ [H _]]]; discriminate].
  - set (pt := match o with Some y => y | None => [] end).
    assert (Hrest : In (p, x) (pdf_pages_from (S i) t) <->
                    exists k, p = Z.of_nat (S (i + S k)) /\ nth_error t k = Some (Some x) /\
                              strip x <> []).
    { rewrite IH. split; intros [k Hk]; exists k; rewrite Nat.add_succ_r in *; exact Hk. }
    destruct (nonempty (strip pt)) eqn:E.
    + split.
      * intros [H|H].
        -- injection H as <- <-. exists 0%nat. rewrite Nat.add_0_r.
           split; [reflexivity|]. destruct o as [y|]; [|discriminate].
           split; [reflexivity|]. intro F. subst pt. rewrite F in E. discriminate.
        -- apply Hrest in H as [k Hk]. exists (S k). exact Hk.
      * intros [[|k] [Hp [Hn Hs]]].
        -- left. cbn in Hn. injection Hn as ->. rewrite Hp, Nat.add_0_r. reflexivity.
        -- right. apply Hrest. exists k. exact (conj Hp (conj Hn Hs)).
    + split.
      * intro H. apply Hrest in H as [k Hk]. exists (S k). exact Hk.
      * intros [[|k] [Hp [Hn Hs]]].
        -- cbn in Hn. injection Hn as ->. subst pt. apply ChunkingProofs.nonempty_false in E.
           contradiction.
        -- apply Hrest. exists k. exact (conj Hp (conj Hn Hs)).
Qed.

Lemma pdf_pages_from_gt i pages :
  Forall (fun q => Z.of_nat i < fst q)%Z (pdf_pages_from i pages).
Proof.
  revert i; induction pages as [|o t IH]; intro i; cbn [pdf_pages_from]; [constructor|].
  assert (H : Forall (fun q => Z.of_nat i < fst q)%Z (pdf_pages_from (S i) t))
    by (refine (Forall_impl _ _ (IH (S i))); intros q Hq; lia).
  destruct (nonempty _); [constructor; [cbn [fst]; lia|]|]; exact H.
Qed.

Lemma pdf_pages_from_sorted i pages :
  StronglySorted (fun a b => fst a < fst b)%Z (pdf_pages_from i pages).
Proof.
  revert i; induction pages as [|o t IH]; intro i; cbn [pdf_pages_from]; [constructor|].
  destruct (nonempty _); [|apply IH].
  constructor; [apply IH|]. exact (pdf_pages_from_gt (S i) t).
Qed.

(** X5: the page map of a PDF lists, in strictly increasing page order, the
    pages whose extracted text is not blank, each with its 1-based page
    number and its text; blank pages and pages with no text are left out. *)
Theorem X5_pdf_page_map (pages : list (option text)) :
  StronglySorted (fun a b => fst a < fst b)%Z (extract_text_from_pdf pages) /\
  (forall p x, In (p, x) (extract_text_from_pdf pages) <->
     exists k, p = Z.of_nat (S k) /\ nth_error pages k = Some (Some x) /\ strip x <> []).
Proof.
  split; [apply pdf_pages_from_sorted|].
  intros p x. unfold extract_text_from_pdf. rewrite pdf_pages_from_in. reflexivity.
Qed.

End TextProofs.


(** * Proofs: chunk runs and page ranges *)

Module ChunkRunProofs.

Import Chunking Text.
Local Open Scope nat_scope.

Section Runs.

Variable ct : string -> nat.

(** After the sentences [pre] have been read: every closed chunk is a
    non-empty run of consecutive sentences of [pre], the open accumulator
    is a suffix of [pre], and there are no more chunks, counting the open
    one, than sentences. *)
Definition inv_runs (pre : list sentence) (b : builder) : Prop :=
  Forall (fun c => cl_sentences c <> [] /\ exists x y, pre = x ++ cl_sentences c ++ y)
         (b_chunks b) /\
  (exists a, pre = a ++ b_sentences b) /\
  List.length (b_chunks b) + (if nonempty (b_sentences b) then 1 else 0) <= List.length pre.

Lemma nonempty_snoc {A} (l : list A) x : nonempty (l ++ [x]) = true.
Proof. destruct l; reflexivity. Qed.

Lemma inv_runs_step pre b sp : inv_runs pre b -> inv_runs (pre ++ [sp]) (step ct b sp).
Proof.
  intros [Hc [[a Ha] Hn]].
  assert (Hold : Forall (fun c => cl_sentences c <> [] /\
                           exists x y, pre ++ [sp] = x ++ cl_sentences c ++ y) (b_chunks b)).
  { refine (Forall_impl _ _ Hc). intros c [Hne [x [y Hxy]]]. split; [exact Hne|].
    exists x, (y ++ [sp]). rewrite Hxy, <- !app_assoc. reflexivity. }
  destruct ((CHUNK_MAX_TOKENS <? b_tokens b + ct (fst sp)) && nonempty (b_sentences b)) eqn:E.
  - destruct (overlap_of ct (b_sentences b)) as [ov ovt] eqn:Ho.
    rewrite (ChunkingProofs.step_close ct b sp ov ovt E Ho).
    apply andb_prop in E as [_ Hne].
    destruct (ChunkingProofs.overlap_of_spec ct _ _ _ Ho) as [_ [_ [pre0 Hpre0]]].
    unfold inv_runs; cbn [b_chunks b_sentences]. rewrite Hne in Hn.
    split; [|split].
    + apply Forall_app. split; [exact Hold|]. constructor; [|constructor].
      cbn [cl_sentences close]. split; [exact (QueryProofs.nonempty_true _ Hne)|].
      exists a, [sp]. rewrite Ha. rewrite <- app_assoc. reflexivity.
    + exists (a ++ pre0). rewrite Ha, Hpre0, <- !app_assoc. reflexivity.
    + rewrite nonempty_snoc, !length_app. cbn [List.length]. lia.
  - rewrite (ChunkingProofs.step_keep ct b sp E).
    unfold inv_runs; cbn [b_chunks b_sentences].
    split; [exact Hold|split].
    + exists a. rewrite Ha, <- app_assoc. reflexivity.
    + rewrite nonempty_snoc, length_app. cbn [List.length].
      destruct (nonempty (b_sentences b)); lia.
Qed.

Lemma fold_inv_runs l : forall b pre, inv_runs pre b ->
  inv_runs (pre ++ l) (fold_left (step ct) l b).
Proof.
  induction l as [|x t IH]; intros b pre Hb; cbn [fold_left].
  - rewrite app_nil_r. exact Hb.
  - replace (pre ++ x :: t) with ((pre ++ [x]) ++ t) by (rewrite <- app_assoc; reflexivity).
    apply IH, inv_runs_step, Hb.
Qed.

Lemma build_chunks_runs ss :
  Forall (fun c => cl_sentences c <> [] /\ exists x y, ss = x ++ cl_sentences c ++ y)
         (build_chunks ct ss) /\
  List.length (build_chunks ct ss) <= List.length ss.
Proof.
  assert (H0 : inv_runs [] builder_init).
  { split; [constructor|split; [exists []; reflexivity|cbn; lia]]. }
  destruct (fold_inv_runs ss builder_init [] H0) as [Hc [[a Ha] Hn]].
  cbn [app] in Hc, Ha, Hn. unfold build_chunks, finish.
  set (b := fold_left (step ct) ss builder_init) in *.
  destruct (nonempty (b_sentences b)) eqn:E.
  - split.
    + apply Forall_app. split; [exact Hc|]. constructor; [|constructor].
      cbn [cl_sentences close]. split; [exact (QueryProofs.nonempty_true _ E)|].
      exists a, []. rewrite app_nil_r. exact Ha.
    + rewrite length_app. cbn [List.length]. lia.
  - split; [exact Hc|lia].
Qed.

Lemma build_chunks_nil ss : build_chunks ct ss = [] <-> ss = [].
Proof.
  split; [|intros ->; reflexivity].
  intro H. destruct ss as [|s ss'] using rev_ind; [reflexivity|exfalso].
  unfold build_chunks, finish in H. rewrite fold_left_app in H. cbn [fold_left] in H.
  unfold step at 1 in H. cbn [b_sentences b_chunks] in H.
  rewrite nonempty_snoc in H. destruct (b_chunks _); discriminate.
Qed.

End Runs.

(** The smallest and largest page of a non-empty list, as Python's [min] and
    [max] compute them. *)
Lemma list_min_spec l : l <> [] -> In (list_min l) l /\ forall z, In z l -> (list_min l <= z)%Z.
Proof.
  induction l as [|x t IH]; intro H; [contradiction|].
  destruct t as [|y t']; [cbn; split; [left; reflexivity|intros z [<-|[]]; lia]|].
  destruct (IH ltac:(discriminate)) as [H1 H2].
  change (list_min (x :: y :: t')) with (Z.min x (list_min (y :: t'))).
  split.
  - destruct (Z.min_spec x (list_min (y :: t'))) as [[_ ->]|[_ ->]];
      [left; reflexivity|right; exact H1].
  - intros z [<-|Hz]; [lia|]. specialize (H2 z Hz). lia.
Qed.

Lemma list_max_spec l : l <> [] -> In (list_max l) l /\ forall z, In z l -> (z <= list_max l)%Z.
Proof.
  induction l as [|x t IH]; intro H; [contradiction|].
  destruct t as [|y t']; [cbn; split; [left; reflexivity|intros z [<-|[]]; lia]|].
  destruct (IH ltac:(discriminate)) as [H1 H2].
  change (list_max (x :: y :: t')) with (Z.max x (list_max (y :: t'))).
  split.
  - destruct (Z.max_spec x (list_max (y :: t'))) as [[_ ->]|[_ ->]];
      [right; exact H1|left; reflexivity].
  - intros z [<-|Hz]; [lia|]. specialize (H2 z Hz). lia.
Qed.

(** A chunk dict of [split_into_chunks] and the run of sentences it was
    built from. *)
Lemma chunk_run ct ss c : In c (split_into_chunks ct ss) ->
  exists run, run <> [] /\ (exists x y, ss = x ++ run ++ y) /\
    content c = String.concat " " (map fst run) /\
    page_start c = list_min (map snd run) /\ page_end c = list_max (map snd run).
Proof.
  unfold split_into_chunks. intro H. apply in_map_iff in H as [cl [<- Hin]].
  destruct (build_chunks_runs ct ss) as [Hc _].
  rewrite Forall_forall in Hc. destruct (Hc cl Hin) as [Hne Hxy].
  exists (cl_sentences cl). repeat split; auto.
Qed.

Lemma chunk_pages ct ss c : In c (split_into_chunks ct ss) ->
  (page_start c <= page_end c)%Z /\
  (exists s, In s ss /\ snd s = page_start c) /\ (exists s, In s ss /\ snd s = page_end c).
Proof.
  intro H. destruct (chunk_run ct ss c H) as [run [Hne [[x [y Hss]] [_ [Hs He]]]]].
  assert (Hm : map snd run <> []) by (destruct run; [contradiction|discriminate]).
  destruct (list_min_spec _ Hm) as [Hmin Hmin'].
  destruct (list_max_spec _ Hm) as [Hmax Hmax'].
  assert (Hsub : forall s, In s run -> In s ss)
    by (intros s Hs'; rewrite Hss; apply in_or_app; right; apply in_or_app; left; exact Hs').
  rewrite Hs, He. split; [exact (Hmax' _ Hmin)|split].
  - apply in_map_iff in Hmin as [s [Hs1 Hs2]]. exists s. split; [exact (Hsub s Hs2)|exact Hs1].
  - apply in_map_iff in Hmax as [s [Hs1 Hs2]]. exists s. split; [exact (Hsub s Hs2)|exact Hs1].
Qed.

(** X6: [_split_into_chunks] makes at most one chunk per sentence unit and
    none exactly when there is no sentence unit. *)
Theorem X6_chunk_count (ct : string -> nat) (ss : list sentence) :
  (List.length (split_into_chunks ct ss) <= List.length ss) /\
  (split_into_chunks ct ss = [] <-> ss = []).
Proof.
  unfold split_into_chunks. rewrite length_map.
  split; [exact (proj2 (build_chunks_runs ct ss))|].
  rewrite <- build_chunks_nil with (ct := ct).
  split; [|intros ->; reflexivity].
  intro H. destruct (build_chunks ct ss); [reflexivity|discriminate].
Qed.

(** X7: every chunk is built from a non-empty run of consecutive sentence
    units, its content is their texts joined by single spaces, and its page
    range is the smallest to the largest of their pages: it contains the
    page of each of its sentences. *)
Theorem X7_chunk_run_pages (ct : string -> nat) (ss : list sentence) (c : chunk) :
  In c (split_into_chunks ct ss) ->
  exists run, run <> [] /\ (exists x y, ss = x ++ run ++ y) /\
    content c = String.concat " " (map fst run) /\
    (page_start c <= page_end c)%Z /\
    (forall s, In s run -> page_start c <= snd s <= page_end c)%Z /\
    (exists s, In s run /\ snd s = page_start c) /\ (exists s, In s run /\ snd s = page_end c).
Proof.
  intro H. destruct (chunk_run ct ss c H) as [run [Hne [Hxy [Hc [Hs He]]]]].
  assert (Hm : map snd run <> []) by (destruct run; [contradiction|discriminate]).
  destruct (list_min_spec _ Hm) as [Hmin Hmin'].
  destruct (list_max_spec _ Hm) as [Hmax Hmax'].
  exists run. rewrite Hs, He. split; [exact Hne|split; [exact Hxy|split; [exact Hc|split]]].
  - exact (Hmax' _ Hmin).
  - split.
    + intros s Hs'. split; [apply Hmin'|apply Hmax']; apply in_map; exact Hs'.
    + split.
      * apply in_map_iff in Hmin as [s [Hs1 Hs2]]. exists s. split; assumption.
      * apply in_map_iff in Hmax as [s [Hs1 Hs2]]. exists s. split; assumption.
Qed.


Lemma X7_chunk_run_pages_witness :
  In (mk_chunk 0 "a b" 2 1 2) (split_into_chunks (fun _ => 1) [("a"%string, 1%Z); ("b"%string, 2%Z)]) /\
  exists run, run <> [] /\ (exists x y, [("a"%string, 1%Z); ("b"%string, 2%Z)] = x ++ run ++ y) /\
    content (mk_chunk 0 "a b" 2 1 2) = String.concat " " (map fst run) /\
    (page_start (mk_chunk 0 "a b" 2 1 2) <= page_end (mk_chunk 0 "a b" 2 1 2))%Z /\
    (forall s, In s run -> page_start (mk_chunk 0 "a b" 2 1 2) <= snd s <=
                           page_end (mk_chunk 0 "a b" 2 1 2))%Z /\
    (exists s, In s run /\ snd s = page_start (mk_chunk 0 "a b" 2 1 2)) /\
    (exists s, In s run /\ snd s = page_end (mk_chunk 0 "a b" 2 1 2)).
Proof.
  assert (H : In (mk_chunk 0 "a b" 2 1 2)
                 (split_into_chunks (fun _ => 1) [("a"%string, 1%Z); ("b"%string, 2%Z)]))
    by (vm_compute; left; reflexivity).
  split; [exact H|exact (X7_chunk_run_pages _ _ _ H)].
Defined.

(** The page of every sentence unit handed to the chunk builder is the page
    number of an entry of the page map. *)
Lemma sentence_page (pm : list (Z * text)) s :
  In s (map (fun sp => (encode (fst sp), snd sp)) (sentences_of pm)) ->
  exists txt, In (snd s, txt) pm.
Proof.
  intro H. apply in_map_iff in H as [sp [<- Hsp]]. cbn [snd].
  unfold sentences_of in Hsp. apply in_flat_map in Hsp as [[p txt] [Hpm Hin]].
  unfold page_sentences in Hin. apply in_map_iff in Hin as [sent [<- _]].
  exists txt. exact Hpm.
Qed.

(** The pages a chunk of an upload can name. *)
Lemma text_chunk_pages ct full pm c :
  In c (split_text_into_chunks ct full pm) ->
  (page_start c <= page_end c)%Z /\
  (exists txt, In (page_start c, txt) pm) /\ (exists txt, In (page_end c, txt) pm).
Proof.
  unfold split_text_into_chunks. intro H.
  destruct (chunk_pages ct _ c H) as [Hle [[s [Hs E1]] [s' [Hs' E2]]]].
  split; [exact Hle|split; [rewrite <- E1; exact (sentence_page pm s Hs)
                           |rewrite <- E2; exact (sentence_page pm s' Hs')]].
Qed.

Section Uploads.

Variable bytes : Type.
Variable lower : text -> text.
Variable pdf_reader : bytes -> option (list (option text)).
Variable docx_reader : bytes -> option (list text).
Variable decode_utf8 : bytes -> text.

Lemma extract_text_pages fb fn full pm :
  extract_text bytes lower pdf_reader docx_reader decode_utf8 fb fn = inr (full, pm) ->
  if teqb (rsplit_dot_last (lower fn)) (lit "pdf")
  then exists raw, pdf_reader fb = Some raw /\ pm = extract_text_from_pdf raw
  else pm = [(1%Z, full)].
Proof.
  unfold extract_text. destruct (teqb _ (lit "pdf")).
  - destruct (pdf_reader fb) as [raw|]; [|discriminate].
    intro H. injection H as _ <-. exists raw. split; reflexivity.
  - destruct (_ || _).
    + destruct (docx_reader fb); [intro H; injection H as <- <-; reflexivity|discriminate].
    + destruct (_ || _ || _); [intro H; injection H as <- <-; reflexivity|discriminate].
Qed.

End Uploads.

(** X8: for an upload that is not a PDF (docx, doc, md, txt or html), every
    chunk of the text's segmentation has page range 1 to 1. *)
Theorem X8_non_pdf_chunk_pages (bytes : Type) (lower : text -> text)
    (pdf_reader : bytes -> option (list (option text)))
    (docx_reader : bytes -> option (list text))
    (decode_utf8 : bytes -> text) (ct : string -> nat) fb fn full pm c :
  extract_text bytes lower pdf_reader docx_reader decode_utf8 fb fn = inr (full, pm) ->
  teqb (rsplit_dot_last (lower fn)) (lit "pdf") = false ->
  In c (split_text_into_chunks ct full pm) ->
  page_start c = 1%Z /\ page_end c = 1%Z.
Proof.
  intros He Hext Hc.
  pose proof (extract_text_pages _ _ _ _ _ _ _ _ _ He) as Hpm. rewrite Hext in Hpm. subst pm.
  destruct (text_chunk_pages ct full _ c Hc) as [_ [[t1 H1] [t2 H2]]].
  destruct H1 as [H1|[]]; destruct H2 as [H2|[]].
  injection H1 as H1 _. injection H2 as H2 _. split; symmetry; assumption.
Qed.


Lemma X8_non_pdf_chunk_pages_witness :
  extract_text unit (fun x => x) (fun _ => None) (fun _ => Some [lit "Hello world."]) (fun _ => [])
    tt (lit "a.docx") = inr (lit "Hello world.", [(1%Z, lit "Hello world.")]) /\
  teqb (rsplit_dot_last (lit "a.docx")) (lit "pdf") = false /\
  In (mk_chunk 0 "Hello world." 1 1 1)
     (split_text_into_chunks (fun _ => 1) (lit "Hello world.") [(1%Z, lit "Hello world.")]) /\
  page_start (mk_chunk 0 "Hello world." 1 1 1) = 1%Z /\
  page_end (mk_chunk 0 "Hello world." 1 1 1) = 1%Z.
Proof.
  assert (H1 : extract_text unit (fun x => x) (fun _ => None)
                 (fun _ => Some [lit "Hello world."]) (fun _ => []) tt (lit "a.docx") =
               inr (lit "Hello world.", [(1%Z, lit "Hello world.")])) by reflexivity.
  assert (H2 : teqb (rsplit_dot_last (lit "a.docx")) (lit "pdf") = false) by reflexivity.
  assert (H3 : In (mk_chunk 0 "Hello world." 1 1 1)
                  (split_text_into_chunks (fun _ => 1) (lit "Hello world.")
                                          [(1%Z, lit "Hello world.")]))
    by (vm_compute; left; reflexivity).
  split; [exact H1|split; [exact H2|split; [exact H3|]]].
  exact (X8_non_pdf_chunk_pages unit (fun x => x) (fun _ => None)
           (fun _ => Some [lit "Hello world."]) (fun _ => []) (fun _ => 1) tt (lit "a.docx")
           _ _ _ H1 H2 H3).
Defined.

(** X9: for a PDF upload that PyPDF2 reads, every chunk's page range runs
    from a page to a page no earlier, and both are 1-based numbers of pages
    of the PDF whose extracted text is not blank. *)
Theorem X9_pdf_chunk_pages (bytes : Type) (lower : text -> text)
    (pdf_reader : bytes -> option (list (option text)))
    (docx_reader : bytes -> option (list text))
    (decode_utf8 : bytes -> text) (ct : string -> nat) fb fn full pm c :
  extract_text bytes lower pdf_reader docx_reader decode_utf8 fb fn = inr (full, pm) ->
  teqb (rsplit_dot_last (lower fn)) (lit "pdf") = true ->
  In c (split_text_into_chunks ct full pm) ->
  (page_start c <= page_end c)%Z /\
  exists pages, pdf_reader fb = Some pages /\
  (exists k x, page_start c = Z.of_nat (S k) /\ nth_error pages k = Some (Some x) /\
               strip x <> []) /\
  (exists k x, page_end c = Z.of_nat (S k) /\ nth_error pages k = Some (Some x) /\
               strip x <> []).
Proof.
  intros He Hext Hc.
  pose proof (extract_text_pages _ _ _ _ _ _ _ _ _ He) as Hpm. rewrite Hext in Hpm.
  destruct Hpm as [pages [Hp ->]].
  destruct (text_chunk_pages ct full _ c Hc) as [Hle [[t1 H1] [t2 H2]]].
  unfold extract_text_from_pdf in H1, H2.
  apply TextProofs.pdf_pages_from_in in H1 as [k1 Hk1].
  apply TextProofs.pdf_pages_from_in in H2 as [k2 Hk2].
  split; [exact Hle|exists pages; split; [exact Hp|split; [exists k1, t1|exists k2, t2]]];
    assumption.
Qed.

Definition report_pages : list (option text) := [Some (lit "Intro."); None; Some (lit "End.")].

Lemma X9_pdf_chunk_pages_witness :
  extract_text unit (fun x => x) (fun _ => Some report_pages) (fun _ => None) (fun _ => [])
    tt (lit "r.pdf") =
    inr (lit "Intro." ++ [NEWLINE] ++ lit "End.", [(1%Z, lit "Intro."); (3%Z, lit "End.")]) /\
  teqb (rsplit_dot_last (lit "r.pdf")) (lit "pdf") = true /\
  In (mk_chunk 0 "Intro. End." 2 1 3)
     (split_text_into_chunks (fun _ => 1) (lit "Intro." ++ [NEWLINE] ++ lit "End.")
                             [(1%Z, lit "Intro."); (3%Z, lit "End.")]) /\
  ((page_start (mk_chunk 0 "Intro. End." 2 1 3) <= page_end (mk_chunk 0 "Intro. End." 2 1 3))%Z /\
   exists pages, Some report_pages = Some pages /\
   (exists k x, page_start (mk_chunk 0 "Intro. End." 2 1 3) = Z.of_nat (S k) /\
                nth_error pages k = Some (Some x) /\ strip x <> []) /\
   (exists k x, page_end (mk_chunk 0 "Intro. End." 2 1 3) = Z.of_nat (S k) /\
                nth_error pages k = Some (Some x) /\ strip x <> [])).
Proof.
  assert (H1 : extract_text unit (fun x => x) (fun _ => Some report_pages) (fun _ => None)
                 (fun _ => []) tt (lit "r.pdf") =
               inr (lit "Intro." ++ [NEWLINE] ++ lit "End.",
                    [(1%Z, lit "Intro."); (3%Z, lit "End.")])) by reflexivity.
  assert (H2 : teqb (rsplit_dot_last (lit "r.pdf")) (lit "pdf") = true) by reflexivity.
  assert (H3 : In (mk_chunk 0 "Intro. End." 2 1 3)
                  (split_text_into_chunks (fun _ => 1) (lit "Intro." ++ [NEWLINE] ++ lit "End.")
                                          [(1%Z, lit "Intro."); (3%Z, lit "End.")]))
    by (vm_compute; left; reflexivity).
  split; [exact H1|split; [exact H2|split; [exact H3|]]].
  exact (X9_pdf_chunk_pages unit (fun x => x) (fun _ => Some report_pages) (fun _ => None)
           (fun _ => []) (fun _ => 1) tt (lit "r.pdf") _ _ _ H1 H2 H3).
Defined.

End ChunkRunProofs.


(** * Proofs: the ingestion run *)

Module IngestProofs.

Import Chunking Store Specs.

(** The row [ingest_document] builds for a chunk, with embedding [e]. *)
Definition chunk_row_of (sha256_hex : string -> string) (document_id : string) (ch : chunk)
    (e : option (list Q)) : chunk_row :=
  mk_chunk_row document_id (chunk_index ch) (content ch) (sha256_hex (content ch))
               (content_tokens ch) (Some (page_start ch)) (Some (page_end ch)) e.

Section Rows.

Variable ct : string -> nat.
Variable emb : string -> list Q.
Variable sha : string -> string.
Variable doc : string.

Lemma map_m_off p l w : p <> "openai"%string ->
  map_m (chunk_to_row ct emb sha p doc) l w = (inr (map (fun ch => chunk_row_of sha doc ch None) l), w).
Proof.
  intro Hp. induction l as [|ch t IH]; [reflexivity|].
  cbn [map_m map]. unfold bind at 1. unfold chunk_to_row at 1, bind at 1. cbv zeta.
  rewrite (StoreProofs.gateway_off ct emb p _ _ w Hp). unfold ret at 1. cbv beta iota.
  unfold bind at 1. rewrite IH. reflexivity.
Qed.

Lemma cached_vectors_app cache kc er cf kf new h :
  cached_vectors (mk_world (cache ++ new) kc er cf kf) h =
  cached_vectors (mk_world cache kc er cf kf) h ++
  map cr_embedding (filter (fun r => String.eqb (cr_content_hash r) h) new).
Proof. unfold cached_vectors. cbn [embeddings_cache]. rewrite filter_app, map_app. reflexivity. Qed.

Lemma cached_vectors_world w h :
  cached_vectors w h = cached_vectors (mk_world (embeddings_cache w) [] [] false false) h.
Proof. reflexivity. Qed.

(** One chunk in ["openai"] mode when cache inserts succeed. *)
Lemma chunk_to_row_openai ch w : cache_insert_fails w = false ->
  chunk_to_row ct emb sha "openai" doc ch w =
  match cached_vectors w (sha (content ch)) with
  | v :: _ => (inr (chunk_row_of sha doc ch (Some v)), w)
  | [] => (inr (chunk_row_of sha doc ch (Some (emb (content ch)))),
           mk_world (embeddings_cache w ++
                       [mk_cache_row (sha (content ch)) (emb (content ch)) (ct (content ch))
                                     EMBEDDING_MODEL])
                    (knowledge_chunks w) (embed_requests w ++ [content ch]) false
                    (chunks_insert_fails w))
  end.
Proof.
  intro Hf. unfold chunk_to_row, bind. cbv zeta.
  destruct (cached_vectors w (sha (content ch))) as [|v rest] eqn:Hv.
  - rewrite (StoreProofs.gateway_miss ct emb _ _ w Hv), Hf. reflexivity.
  - rewrite (StoreProofs.gateway_hit ct emb _ _ w v rest Hv). reflexivity.
Qed.

Lemma hd_app_cons {A} (x : A) l l' : hd_error ((x :: l) ++ l') = Some x.
Proof. reflexivity. Qed.

(** The loop over the chunks in ["openai"] mode when cache inserts succeed:
    rows in chunk order, each with the first cached vector of its hash;
    the cache and the request log only grow; a request is sent only for a
    content whose hash was not cached at the start, once per hash. *)
Lemma map_m_openai l : forall w, cache_insert_fails w = false ->
  exists rows new reqs,
    map_m (chunk_to_row ct emb sha "openai" doc) l w =
      (inr rows, mk_world (embeddings_cache w ++ new) (knowledge_chunks w)
                          (embed_requests w ++ reqs) false (chunks_insert_fails w)) /\
    Forall2 (fun ch r => exists v, r = chunk_row_of sha doc ch (Some v) /\
               hd_error (cached_vectors (mk_world (embeddings_cache w ++ new) [] [] false false)
                                        (sha (content ch))) = Some v) l rows /\
    (forall c, In c reqs -> cached_vectors w (sha c) = [] /\
                            exists ch, In ch l /\ content ch = c) /\
    NoDup (map sha reqs).
Proof.
  induction l as [|ch t IH]; intros w Hf.
  - exists [], [], []. cbn [map_m]. rewrite !app_nil_r.
    split; [destruct w; cbn in *; subst; reflexivity|].
    split; [constructor|split; [intros c []|constructor]].
  - cbn [map_m]. unfold bind at 1. rewrite (chunk_to_row_openai ch w Hf).
    destruct (cached_vectors w (sha (content ch))) as [|v rest] eqn:Hv.
    + set (cr := mk_cache_row (sha (content ch)) (emb (content ch)) (ct (content ch))
                              EMBEDDING_MODEL).
      set (w1 := mk_world (embeddings_cache w ++ [cr]) (knowledge_chunks w)
                          (embed_requests w ++ [content ch]) false (chunks_insert_fails w)).
      destruct (IH w1 eq_refl) as [rows [new [reqs [Heq [Hrows [Hreqs Hnd]]]]]].
      unfold bind. rewrite Heq.
      exists (chunk_row_of sha doc ch (Some (emb (content ch))) :: rows), (cr :: new),
             (content ch :: reqs).
      cbn [embeddings_cache knowledge_chunks embed_requests chunks_insert_fails w1].
      rewrite <- !app_assoc. cbn [app].
      split; [reflexivity|split; [constructor|split]].
      * exists (emb (content ch)). split; [reflexivity|].
        rewrite cached_vectors_app. rewrite <- cached_vectors_world, Hv. cbn [app filter].
        unfold cr at 1. cbn [cr_content_hash]. rewrite String.eqb_refl. reflexivity.
      * refine (Forall2_impl _ _ Hrows). intros ch' r [v' [Hr Hv']]. exists v'.
        split; [exact Hr|]. unfold w1 in Hv'. cbn [embeddings_cache] in Hv'.
        rewrite <- app_assoc in Hv'. exact Hv'.
      * intros c [<-|Hc]; [split; [exact Hv|exists ch; split; [left|]; reflexivity]|].
        destruct (Hreqs c Hc) as [Hc1 [ch' [Hin Hch']]].
        unfold w1 in Hc1. rewrite (cached_vectors_world _ (sha c)) in Hc1.
        cbn [embeddings_cache] in Hc1. rewrite cached_vectors_app in Hc1.
        apply app_eq_nil in Hc1 as [Hc1 _].
        split; [rewrite cached_vectors_world; exact Hc1|exists ch'; split; [right|]; assumption].
      * cbn [map]. constructor; [|exact Hnd].
        intro Hin. apply in_map_iff in Hin as [c [Hsc Hc]].
        destruct (Hreqs c Hc) as [Hc1 _].
        unfold w1 in Hc1. rewrite (cached_vectors_world _ (sha c)) in Hc1.
        cbn [embeddings_cache] in Hc1. rewrite cached_vectors_app in Hc1.
        apply app_eq_nil in Hc1 as [_ Hc1]. cbn [filter] in Hc1.
        unfold cr in Hc1. cbn [cr_content_hash] in Hc1. rewrite Hsc, String.eqb_refl in Hc1.
        discriminate.
    + destruct (IH w Hf) as [rows [new [reqs [Heq [Hrows [Hreqs Hnd]]]]]].
      unfold bind. rewrite Heq.
      exists (chunk_row_of sha doc ch (Some v) :: rows), new, reqs.
      split; [reflexivity|split; [constructor; [|exact Hrows]|split; [|exact Hnd]]].
      * exists v. split; [reflexivity|].
        rewrite cached_vectors_app, <- cached_vectors_world, Hv. reflexivity.
      * intros c Hc. destruct (Hreqs c Hc) as [Hc1 [ch' [Hin Hch']]].
        split; [exact Hc1|exists ch'; split; [right|]; assumption].
Qed.

End Rows.

(** X10: with [EMBEDDING_PROVIDER] other than ["openai"], ingestion sends
    no embedding request and leaves the cache as it is; it stores one row
    per chunk, in chunk order and without an embedding, in one insert, and
    returns the number of chunks; if that insert fails it raises and no row
    is stored. *)
Theorem X10_ingest_without_embeddings (ct : string -> nat) (emb : string -> list Q)
    (sha : string -> string) (p doc : string) (ss : list sentence) (w : world) :
  p <> "openai"%string ->
  ingest_document ct emb sha p doc ss w =
  let rows := map (fun ch => chunk_row_of sha doc ch None) (split_into_chunks ct ss) in
  if nonempty rows && chunks_insert_fails w then (inl (APIError "knowledge_chunks"), w)
  else (inr (List.length rows),
        mk_world (embeddings_cache w) (knowledge_chunks w ++ rows) (embed_requests w)
                 (cache_insert_fails w) (chunks_insert_fails w)).
Proof.
  intro Hp. unfold ingest_document, bind. cbv zeta. rewrite (map_m_off ct emb sha doc p _ w Hp).
  destruct (map _ _) as [|r rs]; cbn [nonempty andb].
  - rewrite app_nil_r. destruct w; reflexivity.
  - unfold insert_chunks. destruct (chunks_insert_fails w); reflexivity.
Qed.

Lemma X10_ingest_without_embeddings_witness :
  "fulltext"%string <> "openai"%string /\
  ingest_document Fixtures.word_count Fixtures.unit_embedder Fixtures.id_hash "fulltext" "doc"
    [Fixtures.s100] Fixtures.empty_world =
  (let rows := map (fun ch => chunk_row_of Fixtures.id_hash "doc" ch None)
                   (split_into_chunks Fixtures.word_count [Fixtures.s100]) in
   if nonempty rows && chunks_insert_fails Fixtures.empty_world
   then (inl (APIError "knowledge_chunks"), Fixtures.empty_world)
   else (inr (List.length rows),
         mk_world (embeddings_cache Fixtures.empty_world)
                  (knowledge_chunks Fixtures.empty_world ++ rows)
                  (embed_requests Fixtures.empty_world)
                  (cache_insert_fails Fixtures.empty_world)
                  (chunks_insert_fails Fixtures.empty_world))).
Proof.
  assert (Hp : "fulltext"%string <> "openai"%string) by discriminate.
  split; [exact Hp|].
  exact (X10_ingest_without_embeddings Fixtures.word_count Fixtures.unit_embedder
           Fixtures.id_hash "fulltext" "doc" [Fixtures.s100] Fixtures.empty_world Hp).
Defined.

(** X11: in ["openai"] mode with working cache inserts, ingestion stores
    one row per chunk, in chunk order, whose embedding is the first vector
    the cache then holds for the chunk's content hash; the cache and the
    request log only grow; an embedding request is sent only for a chunk
    content whose hash was not cached before, and at most once per hash;
    the chunk rows go in one insert, and if it fails the new cache rows
    stay while no chunk row is stored. *)
Theorem X11_ingest_openai (ct : string -> nat) (emb : string -> list Q)
    (sha : string -> string) (doc : string) (ss : list sentence) (w : world) :
  cache_insert_fails w = false ->
  exists rows new reqs,
    ingest_document ct emb sha "openai" doc ss w =
      (if nonempty rows && chunks_insert_fails w
       then (inl (APIError "knowledge_chunks"),
             mk_world (embeddings_cache w ++ new) (knowledge_chunks w)
                      (embed_requests w ++ reqs) false (chunks_insert_fails w))
       else (inr (List.length (split_into_chunks ct ss)),
             mk_world (embeddings_cache w ++ new) (knowledge_chunks w ++ rows)
                      (embed_requests w ++ reqs) false (chunks_insert_fails w))) /\
    Forall2 (fun ch r => exists v, r = chunk_row_of sha doc ch (Some v) /\
               hd_error (cached_vectors (mk_world (embeddings_cache w ++ new) [] [] false false)
                                        (sha (content ch))) = Some v)
            (split_into_chunks ct ss) rows /\
    (forall c, In c reqs -> cached_vectors w (sha c) = [] /\
                            exists ch, In ch (split_into_chunks ct ss) /\ content ch = c) /\
    NoDup (map sha reqs).
Proof.
  intro Hf. destruct (map_m_openai ct emb sha doc (split_into_chunks ct ss) w Hf)
    as [rows [new [reqs [Heq [Hrows [Hreqs Hnd]]]]]].
  exists rows, new, reqs. split; [|split; [exact Hrows|split; [exact Hreqs|exact Hnd]]].
  unfold ingest_document, bind. cbv zeta. rewrite Heq.
  rewrite <- (Forall2_length Hrows).
  destruct rows as [|r rs]; cbn [nonempty andb].
  - rewrite app_nil_r. reflexivity.
  - unfold insert_chunks. cbn [chunks_insert_fails embeddings_cache knowledge_chunks
                                embed_requests cache_insert_fails].
    destruct (chunks_insert_fails w); reflexivity.
Qed.

Lemma X11_ingest_openai_witness :
  cache_insert_fails Fixtures.empty_world = false /\
  exists rows new reqs,
    ingest_document Fixtures.word_count Fixtures.unit_embedder Fixtures.id_hash "openai" "doc"
      [Fixtures.s100] Fixtures.empty_world =
      (if nonempty rows && chunks_insert_fails Fixtures.empty_world
       then (inl (APIError "knowledge_chunks"),
             mk_world (embeddings_cache Fixtures.empty_world ++ new)
                      (knowledge_chunks Fixtures.empty_world)
                      (embed_requests Fixtures.empty_world ++ reqs) false
                      (chunks_insert_fails Fixtures.empty_world))
       else (inr (List.length (split_into_chunks Fixtures.word_count [Fixtures.s100])),
             mk_world (embeddings_cache Fixtures.empty_world ++ new)
                      (knowledge_chunks Fixtures.empty_world ++ rows)
                      (embed_requests Fixtures.empty_world ++ reqs) false
                      (chunks_insert_fails Fixtures.empty_world))) /\
    Forall2 (fun ch r => exists v, r = chunk_row_of Fixtures.id_hash "doc" ch (Some v) /\
               hd_error (cached_vectors
                           (mk_world (embeddings_cache Fixtures.empty_world ++ new) [] [] false false)
                           (Fixtures.id_hash (content ch))) = Some v)
            (split_into_chunks Fixtures.word_count [Fixtures.s100]) rows /\
    (forall c, In c reqs -> cached_vectors Fixtures.empty_world (Fixtures.id_hash c) = [] /\
       exists ch, In ch (split_into_chunks Fixtures.word_count [Fixtures.s100]) /\ content ch = c) /\
    NoDup (map Fixtures.id_hash reqs).
Proof.
  split; [reflexivity|].
  exact (X11_ingest_openai Fixtures.word_count Fixtures.unit_embedder Fixtures.id_hash "doc"
           [Fixtures.s100] Fixtures.empty_world eq_refl).
Defined.

End IngestProofs.


(** * Proofs: reranking, confidence and the query response *)

Module ResponseProofs.

Import Chunking Float64 FloatProofs Query Specs.
Local Open Scope Q_scope.

Lemma sorted_desc_id l : Sorted score_desc l -> sorted_desc l = l.
Proof.
  induction l as [|x t IH]; intro H; [reflexivity|].
  apply Sorted_inv in H as [Ht Hh]. cbn [sorted_desc]. rewrite (IH Ht).
  destruct t as [|y t']; [reflexivity|]. cbn [insert_desc].
  inversion Hh as [|? ? Hxy]; subst. unfold score_desc in Hxy.
  apply Qle_bool_iff in Hxy. rewrite Hxy. reflexivity.
Qed.

Lemma sorted_firstn {A} (R : A -> A -> Prop) n l : Sorted R l -> Sorted R (firstn n l).
Proof.
  revert n; induction l as [|x t IH]; intros n H; [destruct n; constructor|].
  destruct n as [|n]; [constructor|]. cbn [firstn].
  apply Sorted_inv in H as [Ht Hh]. constructor; [apply IH, Ht|].
  destruct t as [|y t']; [destruct n; constructor|].
  destruct n as [|n]; [constructor|]. cbn [firstn]. inversion Hh; subst. constructor. assumption.
Qed.

(** X12: [_rerank] keeps [min 6 n] of [n] candidates, and reranking its
    own result changes nothing. *)
Theorem X12_rerank_length_idempotent (candidates : list candidate) :
  List.length (rerank candidates) = Nat.min 6 (List.length candidates) /\
  rerank (rerank candidates) = rerank candidates.
Proof.
  unfold rerank, RERANK_FINAL_K, RETRIEVAL_TOP_K. split.
  - rewrite length_firstn, (Permutation_length (QueryProofs.sorted_desc_perm candidates)).
    reflexivity.
  - rewrite sorted_desc_id; [|apply sorted_firstn, QueryProofs.sorted_desc_sorted].
    rewrite firstn_firstn. reflexivity.
Qed.

(** The levels of confidence, in order. *)
Definition confidence_level (c : string) : nat :=
  if String.eqb c "high" then 2 else if String.eqb c "medium" then 1 else 0.

(** Raising the scores position-wise keeps the float sum below. *)
Lemma sum_below_pointwise (l1 l2 : list candidate) :
  Forall2 (fun a b => get_score a <= get_score b) l1 l2 ->
  forall s1 s2, below s1 s2 ->
  below (fold_left (fun acc c => fadd acc (round (get_score c))) l1 s1)
        (fold_left (fun acc c => fadd acc (round (get_score c))) l2 s2).
Proof.
  induction 1 as [|a b t1 t2 Hab _ IH]; intros s1 s2 Hs; [exact Hs|].
  cbn [fold_left]. apply IH.
  apply below_fadd; [exact Hs|apply round_not_nan|apply round_mono, Hab].
Qed.

Lemma level_mono (a b s1 s2 : float) :
  below s1 s2 -> (exists q, a = Fin q) -> (exists q, b = Fin q) ->
  (confidence_level (if fge s1 a then "high" else if fge s1 b then "medium" else "low")
   <= confidence_level (if fge s2 a then "high" else if fge s2 b then "medium" else "low"))%nat.
Proof.
  intros H [qa ->] [qb ->].
  destruct (fge s1 (Fin qa)) eqn:A1.
  - rewrite (below_fge _ _ _ H A1). reflexivity.
  - destruct (fge s1 (Fin qb)) eqn:B1.
    + rewrite (below_fge _ _ _ H B1).
      destruct (fge s2 (Fin qa)); cbn; lia.
    + cbn. unfold confidence_level at 1. cbn. lia.
Qed.

Lemma round_fin x : (match round x with Fin _ => true | _ => false end) = true ->
  exists q, round x = Fin q.
Proof. destruct (round x) as [q| |]; [intros _; exists q; reflexivity|discriminate|discriminate]. Qed.

(** X13: raising scores never lowers the confidence: if every candidate of
    [l2] scores at least as high as the candidate at the same position of
    [l1], the confidence of [l2] is at least that of [l1]
    (["low"] < ["medium"] < ["high"]), in both retrieval modes; float
    addition and division round monotonically. *)
Theorem X13_confidence_monotone (p : string) (l1 l2 : list candidate) :
  Forall2 (fun a b => get_score a <= get_score b) l1 l2 ->
  (confidence_level (determine_confidence p l1) <= confidence_level (determine_confidence p l2))%nat.
Proof.
  intro H. destruct l1 as [|a t1].
  - inversion H; subst. reflexivity.
  - destruct l2 as [|b t2]; [inversion H|].
    rewrite !QueryProofs.determine_confidence_avg by discriminate.
    assert (Ha : below (avg_score (a :: t1)) (avg_score (b :: t2))).
    { unfold avg_score. rewrite <- (Forall2_length H). apply below_fdiv.
      apply sum_below_pointwise; [exact H|apply below_refl; discriminate]. }
    destruct (String.eqb p "fulltext"); apply level_mono; try exact Ha;
      first [apply round_fin; vm_compute; reflexivity|eexists; reflexivity].
Qed.

Lemma X13_confidence_monotone_witness :
  Forall2 (fun a b => get_score a <= get_score b)
          [Fixtures.cand "a" (40 # 100) None None] [Fixtures.cand "a" (80 # 100) None None] /\
  (confidence_level (determine_confidence "openai" [Fixtures.cand "a" (40 # 100) None None])
   <= confidence_level (determine_confidence "openai" [Fixtures.cand "a" (80 # 100) None None]))%nat.
Proof.
  assert (H : Forall2 (fun a b => get_score a <= get_score b)
                [Fixtures.cand "a" (40 # 100) None None] [Fixtures.cand "a" (80 # 100) None None]).
  { constructor; [|constructor]. unfold Qle. cbn. lia. }
  split; [exact H|exact (X13_confidence_monotone "openai" _ _ H)].
Defined.

Lemma enumerate_ranks i l : map rc_rank (enumerate_retrieved i l) = seq (S i) (List.length l).
Proof. revert i; induction l as [|c t IH]; intro i; [reflexivity|]. cbn. rewrite IH. reflexivity. Qed.

Lemma enumerate_ids i l : map rc_chunk_id (enumerate_retrieved i l) = map chunk_id l.
Proof. revert i; induction l as [|c t IH]; intro i; [reflexivity|]. cbn. rewrite IH. reflexivity. Qed.

Lemma enumerate_length i l : List.length (enumerate_retrieved i l) = List.length l.
Proof. revert i; induction l as [|c t IH]; intro i; [reflexivity|]. cbn. rewrite IH. reflexivity. Qed.

Lemma enumerate_in i l r : In r (enumerate_retrieved i l) ->
  exists c, In c l /\ rc_chunk_id r = chunk_id c /\ rc_document_id r = document_id c /\
            rc_content r = cand_content c /\ rc_score r = get_score c.
Proof.
  revert i; induction l as [|c t IH]; intros i H; [destruct H|].
  destruct H as [<-|H].
  - exists c. cbn. auto 6.
  - destruct (IH _ H) as [c' [Hc' Hr]]. exists c'. split; [right|]; assumption.
Qed.

Lemma enumerate_sorted i l : Sorted score_desc l ->
  Sorted (fun a b => rc_score b <= rc_score a) (enumerate_retrieved i l).
Proof.
  revert i; induction l as [|c t IH]; intros i H; [constructor|].
  apply Sorted_inv in H as [Ht Hh]. cbn [enumerate_retrieved]. constructor; [apply IH, Ht|].
  destruct t as [|d t']; [constructor|]. cbn [enumerate_retrieved]. constructor.
  inversion Hh; subst. exact H0.
Qed.

(** X14: in every response of [process_query], the retrieved chunks are
    ranked 1, 2, ... in order, are at most 6, come in non-increasing score
    order, list the same chunk ids in the same order as the citations, and
    each carries the id, document, content and score of one of the
    retrieved candidates. *)
Theorem X14_response_shape (provider : string) (chat_completion : string -> string -> string)
    (candidates : list candidate) (question mode : string) :
  let resp := fst (process_query provider chat_completion candidates question mode) in
  map rc_rank (retrieved_chunks resp) = seq 1 (List.length (retrieved_chunks resp)) /\
  (List.length (retrieved_chunks resp) <= 6)%nat /\
  Sorted (fun a b => rc_score b <= rc_score a) (retrieved_chunks resp) /\
  map rc_chunk_id (retrieved_chunks resp) = map ci_chunk_id (citations resp) /\
  (forall r, In r (retrieved_chunks resp) ->
     exists c, In c candidates /\ rc_chunk_id r = chunk_id c /\ rc_document_id r = document_id c /\
               rc_content r = cand_content c /\ rc_score r = get_score c).
Proof.
  intro resp. subst resp. unfold process_query. cbv zeta.
  destruct (negb (nonempty (rerank candidates)) || _).
  - cbn. split; [reflexivity|split; [lia|split; [constructor|split; [reflexivity|intros r []]]]].
  - cbn [fst retrieved_chunks citations].
    split; [rewrite enumerate_ranks, enumerate_length; reflexivity|].
    split; [rewrite enumerate_length; apply firstn_le_length|].
    split; [apply enumerate_sorted, sorted_firstn, QueryProofs.sorted_desc_sorted|].
    split; [rewrite enumerate_ids, map_map; reflexivity|].
    intros r Hr. destruct (enumerate_in _ _ _ Hr) as [c [Hc Hfields]].
    exists c. split; [exact (QueryProofs.rerank_in c candidates Hc)|exact Hfields].
Qed.

End ResponseProofs.


(** * Proofs: the best-effort query log *)

Module LogProofs.

Import Chunking Query Pipeline.

Lemma query_chunk_rows_fields qid i l :
  map qc_chunk_id (query_chunk_rows qid i l) = map chunk_id l /\
  map qc_rank (query_chunk_rows qid i l) = seq (S i) (List.length l) /\
  map qc_score (query_chunk_rows qid i l) = map get_score l /\
  Forall (fun r => qc_query_id r = qid) (query_chunk_rows qid i l).
Proof.
  revert i; induction l as [|c t IH]; intro i; [repeat split; constructor|].
  destruct (IH (S i)) as [H1 [H2 [H3 H4]]]. cbn [query_chunk_rows map List.length seq].
  rewrite H1, H2, H3. repeat split; [constructor; [reflexivity|exact H4]].
Qed.

(** X15: when the admin client is available and both inserts succeed, a
    query leaves in the log exactly one new query row, carrying the
    response's answer, citations and confidence, and one association row
    per reranked candidate with ranks 1, 2, ..., the candidates' chunk ids
    and scores; this holds also when the weak-match gate answered with the
    sentinel and the response cites nothing. *)
Theorem X15_query_log (provider : string) (embedder : string -> list Q)
    (rpc : string -> rpc_call -> option (list candidate))
    (chat_completion : string -> string -> string)
    (question collection_id mode jwt query_id : string) (user_id : option string)
    (latency_ms : nat) (w : log_world) resp revs evs w' :
  admin_available w = true -> queries_insert_fails w = false ->
  query_chunks_insert_fails w = false ->
  run_query provider embedder rpc chat_completion question collection_id mode jwt query_id
            user_id latency_ms w = (resp, revs, evs, w') ->
  let reranked := rerank (fst (retrieve_candidates embedder rpc provider question
                                                   collection_id jwt)) in
  knowledge_queries w' =
    knowledge_queries w ++ [mk_query_row query_id user_id collection_id mode question
                              (answer resp) (citations resp) (confidence resp) latency_ms] /\
  exists rows, knowledge_query_chunks w' = knowledge_query_chunks w ++ rows /\
    map qc_rank rows = seq 1 (List.length rows) /\
    map qc_chunk_id rows = map chunk_id reranked /\
    map qc_score rows = map get_score reranked /\
    Forall (fun r => qc_query_id r = query_id) rows.
Proof.
  intros Ha Hq Hc H reranked. subst reranked.
  unfold run_query in H.
  destruct (retrieve_candidates embedder rpc provider question collection_id jwt)
    as [cands revs0] eqn:Er.
  destruct (process_query provider chat_completion cands question mode) as [resp0 evs0].
  injection H as <- <- <- <-. cbn [fst].
  unfold log_query, log_body. rewrite Ha, Hq. cbn [negb snd].
  destruct (query_chunk_rows_fields query_id 0 (rerank cands)) as [H1 [H2 [H3 H4]]].
  destruct (nonempty (rerank cands)) eqn:En.
  - cbn [query_chunks_insert_fails]. rewrite Hc. cbn [knowledge_queries knowledge_query_chunks].
    split; [reflexivity|]. exists (query_chunk_rows query_id 0 (rerank cands)).
    split; [reflexivity|]. rewrite H2, <- (length_map chunk_id), <- H1, length_map.
    repeat split; assumption.
  - apply ChunkingProofs.nonempty_false in En. rewrite En.
    cbn [knowledge_queries knowledge_query_chunks]. split; [reflexivity|].
    exists []. rewrite app_nil_r. repeat split; constructor.
Qed.

(** X16: logging only appends: at most one query row, association rows
    only together with it and all carrying the query id; if the admin
    client is unavailable or the query insert fails nothing is written, and
    if the association insert fails the query row stays but no association
    is written. *)
Theorem X16_log_best_effort (query_id : string) (user_id : option string)
    (collection_id mode question answer : string) (citations : list citation_item)
    (confidence : string) (latency_ms : nat) (reranked_chunks : list candidate) (w : log_world) :
  let w' := log_query query_id user_id collection_id mode question answer citations
                      confidence latency_ms reranked_chunks w in
  (exists qs cs, knowledge_queries w' = knowledge_queries w ++ qs /\
                 knowledge_query_chunks w' = knowledge_query_chunks w ++ cs /\
                 (List.length qs <= 1)%nat /\ (cs <> [] -> qs <> []) /\
                 Forall (fun r => qc_query_id r = query_id) cs) /\
  (admin_available w = false \/ queries_insert_fails w = true -> w' = w) /\
  (query_chunks_insert_fails w = true -> knowledge_query_chunks w' = knowledge_query_chunks w).
Proof.
  intro w'. subst w'. unfold log_query, log_body.
  destruct (query_chunk_rows_fields query_id 0 reranked_chunks) as [_ [_ [_ H4]]].
  set (row := mk_query_row query_id user_id collection_id mode question answer citations
                           confidence latency_ms).
  destruct (admin_available w) eqn:Ha; cbn [negb snd].
  2:{ split; [exists [], []; rewrite !app_nil_r|split; auto].
      refine (conj eq_refl (conj eq_refl (conj _ (conj _ _)))); [cbn; lia|intro H; contradiction|constructor]. }
  destruct (queries_insert_fails w) eqn:Hq; cbn [snd].
  { split; [exists [], []; rewrite !app_nil_r|split; auto].
    refine (conj eq_refl (conj eq_refl (conj _ (conj _ _)))); [cbn; lia|intro H; contradiction|constructor]. }
  destruct (nonempty reranked_chunks); cbn [query_chunks_insert_fails].
  - destruct (query_chunks_insert_fails w) eqn:Hc;
      cbn [snd knowledge_queries knowledge_query_chunks].
    + split; [exists [row], []; rewrite app_nil_r|split; [intros [H|H]; discriminate|auto]].
      refine (conj eq_refl (conj eq_refl (conj _ (conj _ _)))); [cbn; lia|intros _; discriminate|constructor].
    + split; [exists [row], (query_chunk_rows query_id 0 reranked_chunks)
             |split; [intros [H|H]; discriminate|discriminate]].
      refine (conj eq_refl (conj eq_refl (conj _ (conj _ _)))); [cbn; lia|intros _; discriminate|exact H4].
  - cbn [snd knowledge_queries knowledge_query_chunks].
    split; [exists [row], []; rewrite app_nil_r|split; [intros [H|H]; discriminate|reflexivity]].
    refine (conj eq_refl (conj eq_refl (conj _ (conj _ _)))); [cbn; lia|intros _; discriminate|constructor].
Qed.

(** A fulltext query that the model answers. *)
Definition sample_run : query_response * list retrieval_event * list event * log_world :=
  run_query "fulltext" (fun _ => []) (fun _ _ => Some [Fixtures.cand "c1" (5 # 100) None None])
            (fun _ _ => "ok"%string) "q" "col" "technical" "jwt" "qid" None 5
            (mk_log_world [] [] true false false).

Lemma X15_query_log_witness :
  admin_available (mk_log_world [] [] true false false) = true /\
  queries_insert_fails (mk_log_world [] [] true false false) = false /\
  query_chunks_insert_fails (mk_log_world [] [] true false false) = false /\
  sample_run = (fst (fst (fst sample_run)), snd (fst (fst sample_run)), snd (fst sample_run),
                snd sample_run) /\
  (let reranked := rerank (fst (retrieve_candidates (fun _ => [])
                                  (fun _ _ => Some [Fixtures.cand "c1" (5 # 100) None None])
                                  "fulltext" "q" "col" "jwt")) in
   knowledge_queries (snd sample_run) =
     knowledge_queries (mk_log_world [] [] true false false) ++
       [mk_query_row "qid" None "col" "technical" "q" (answer (fst (fst (fst sample_run))))
          (citations (fst (fst (fst sample_run)))) (confidence (fst (fst (fst sample_run)))) 5] /\
   exists rows, knowledge_query_chunks (snd sample_run) =
                  knowledge_query_chunks (mk_log_world [] [] true false false) ++ rows /\
     map qc_rank rows = seq 1 (List.length rows) /\
     map qc_chunk_id rows = map chunk_id reranked /\
     map qc_score rows = map get_score reranked /\
     Forall (fun r => qc_query_id r = "qid"%string) rows).
Proof.
  assert (H : sample_run = (fst (fst (fst sample_run)), snd (fst (fst sample_run)),
                            snd (fst sample_run), snd sample_run)) by reflexivity.
  split; [reflexivity|split; [reflexivity|split; [reflexivity|split; [exact H|]]]].
  exact (X15_query_log "fulltext" (fun _ => [])
           (fun _ _ => Some [Fixtures.cand "c1" (5 # 100) None None])
           (fun _ _ => "ok"%string) "q" "col" "technical" "jwt" "qid" None 5
           (mk_log_world [] [] true false false) _ _ _ _ eq_refl eq_refl eq_refl H).
Defined.

End LogProofs.


(** * Proofs: the bearer token and the collection ids of an upload *)

Module AuthProofs.

Import Chunking Text Auth TextProofs.

Lemma starts_with_iff p s : starts_with p s = true <-> exists rest, s = p ++ rest.
Proof.
  revert s; induction p as [|c pt IH]; intro s; cbn [starts_with].
  - split; [intros _; exists s; reflexivity|reflexivity].
  - destruct s as [|d t].
    + split; [discriminate|intros [rest H]; discriminate].
    + rewrite andb_true_iff, Z.eqb_eq, IH. split.
      * intros [-> [rest ->]]. exists rest. reflexivity.
      * intros [rest H]. injection H as -> ->. split; [reflexivity|exists rest; reflexivity].
Qed.

Lemma removeprefix_app p rest : removeprefix p (p ++ rest) = rest.
Proof.
  unfold removeprefix.
  replace (starts_with p (p ++ rest)) with true
    by (symmetry; apply starts_with_iff; exists rest; reflexivity).
  apply ChunkingProofs.skipn_length_app.
Qed.

Lemma forallb_rev (f : char -> bool) l : forallb f (rev l) = forallb f l.
Proof.
  induction l as [|x t IH]; [reflexivity|]. cbn [rev forallb].
  rewrite forallb_app, IH. cbn [forallb]. rewrite andb_true_r, andb_comm. reflexivity.
Qed.

(** Whitespace around a token is what [strip] removes. *)
Lemma strip_pad ws1 t ws2 :
  forallb is_space ws1 = true -> forallb is_space ws2 = true ->
  no_edge_space t -> t <> [] -> strip (ws1 ++ t ++ ws2) = t.
Proof.
  intros H1 H2 [Hh Hl] Hne. unfold strip, rstrip.
  rewrite lstrip_app, H1, lstrip_app.
  destruct t as [|c t']; [contradiction|].
  assert (Hc : is_space c = false) by (apply Hh; reflexivity).
  cbn [forallb]. rewrite Hc. cbn [andb].
  rewrite (lstrip_id (c :: t') Hh), rev_app_distr, lstrip_app, forallb_rev, H2.
  rewrite (lstrip_id (rev (c :: t')) Hl). apply rev_involutive.
Qed.

(** X17: [get_bearer_token] returns a token exactly when the header is
    ["Bearer "] followed by text whose [strip] is non-empty, and the token
    is that stripped text; it answers 401 with the prefix message exactly
    when the header does not start with ["Bearer "] (case-sensitive), and
    every rejection is a 401. Whitespace around the token is dropped. *)
Theorem X17_bearer_token (authorization : text) :
  (forall t, get_bearer_token authorization = inr t <->
     exists rest, authorization = lit "Bearer " ++ rest /\ t = strip rest /\ t <> []) /\
  (get_bearer_token authorization =
     inl (HTTPException 401 "Authorization header must start with 'Bearer '") <->
   ~ exists rest, authorization = lit "Bearer " ++ rest) /\
  (forall e, get_bearer_token authorization = inl e -> exists d, e = HTTPException 401 d) /\
  (forall ws1 t ws2, forallb is_space ws1 = true -> forallb is_space ws2 = true ->
     no_edge_space t -> t <> [] ->
     get_bearer_token (lit "Bearer " ++ ws1 ++ t ++ ws2) = inr t).
Proof.
  assert (Hrt : forall ws1 t ws2, forallb is_space ws1 = true -> forallb is_space ws2 = true ->
            no_edge_space t -> t <> [] ->
            get_bearer_token (lit "Bearer " ++ ws1 ++ t ++ ws2) = inr t).
  { intros ws1 t ws2 H1 H2 Ht Hne. unfold get_bearer_token.
    replace (starts_with (lit "Bearer ") (lit "Bearer " ++ ws1 ++ t ++ ws2)) with true
      by (symmetry; apply starts_with_iff; eexists; reflexivity).
    rewrite removeprefix_app, (strip_pad ws1 t ws2 H1 H2 Ht Hne). cbn [negb].
    destruct t; [contradiction|reflexivity]. }
  unfold get_bearer_token.
  destruct (starts_with (lit "Bearer ") authorization) eqn:E; cbn [negb].
  - destruct (proj1 (starts_with_iff _ _) E) as [rest ->].
    rewrite removeprefix_app.
    split; [|split; [|split; [|exact Hrt]]].
    + intro t. destruct (nonempty (strip rest)) eqn:N; cbn [negb].
      * split; [intro H; injection H as <-; exists rest;
                split; [reflexivity|split; [reflexivity|exact (QueryProofs.nonempty_true _ N)]]|].
        intros [rest' [Hr [-> _]]]. apply app_inv_head in Hr. subst rest'. reflexivity.
      * split; [discriminate|]. intros [rest' [Hr [-> Hne]]].
        apply app_inv_head in Hr. subst rest'.
        apply ChunkingProofs.nonempty_false in N. contradiction.
    + split; [|intro H; exfalso; apply H; exists rest; reflexivity].
      destruct (nonempty (strip rest)); cbn [negb]; discriminate.
    + intros e. destruct (nonempty (strip rest)); cbn [negb]; [discriminate|].
      intro H. injection H as <-. eexists. reflexivity.
  - split; [|split; [|split; [|exact Hrt]]].
    + intro t. split; [discriminate|]. intros [rest [Hr _]].
      rewrite Hr in E. rewrite (proj2 (starts_with_iff _ _) (ex_intro _ rest eq_refl)) in E.
      discriminate.
    + split; [intros _ [rest Hr]|reflexivity].
      rewrite Hr in E. rewrite (proj2 (starts_with_iff _ _) (ex_intro _ rest eq_refl)) in E.
      discriminate.
    + intros e H. injection H as <-. eexists. reflexivity.
Qed.

(** ** [upload_document]: the collection ids *)

Lemma split_on_concat sep cur s :
  List.concat (split_on_aux sep cur s) = cur ++ filter (fun c => negb (Z.eqb c sep)) s.
Proof.
  revert cur; induction s as [|c t IH]; intro cur; cbn [split_on_aux filter].
  - cbn. rewrite !app_nil_r. reflexivity.
  - destruct (Z.eqb c sep); cbn [negb List.concat].
    + rewrite IH. reflexivity.
    + rewrite IH, <- app_assoc. reflexivity.
Qed.

Lemma split_on_no_sep sep cur s : ~ In sep cur -> Forall (fun x => ~ In sep x) (split_on_aux sep cur s).
Proof.
  revert cur; induction s as [|c t IH]; intros cur Hc; cbn [split_on_aux].
  - constructor; [exact Hc|constructor].
  - destruct (Z.eqb c sep) eqn:E.
    + constructor; [exact Hc|apply IH; intros []].
    + apply IH. intro H. apply in_app_or in H as [H|[H|[]]]; [contradiction|].
      subst. rewrite Z.eqb_refl in E. discriminate.
Qed.

Lemma filter_strip (f : char -> bool) x :
  (forall c, is_space c = true -> f c = false) -> filter f (strip x) = filter f x.
Proof.
  intro Hf. destruct (strip_infix x) as [a [b [Hx [Ha Hb]]]].
  assert (Hsp : forall y, forallb is_space y = true -> filter f y = []).
  { induction y as [|c y IH]; intro Hy; [reflexivity|]. cbn [forallb] in Hy.
    apply andb_true_iff in Hy as [Hc Hy]. cbn [filter]. rewrite (Hf c Hc). exact (IH Hy). }
  rewrite Hx at 2. rewrite !filter_app, (Hsp a Ha), (Hsp b Hb), app_nil_r. reflexivity.
Qed.

(** The characters of an id: neither whitespace nor a comma. *)
Definition id_char (c : char) : bool := nsp c && negb (Z.eqb c COMMA).

(** X18: every collection id linked to an upload is non-empty, has no
    whitespace at either end and no comma; read in order, the linked ids
    hold exactly the characters of the form field other than whitespace and
    commas. *)
Theorem X18_collection_links (collection_ids : text) :
  Forall (fun cid => cid <> [] /\ strip cid = cid /\ ~ In COMMA cid)
         (collection_links (Some collection_ids)) /\
  filter id_char (List.concat (collection_links (Some collection_ids))) =
  filter id_char collection_ids.
Proof.
  unfold collection_links. destruct (nonempty collection_ids) eqn:En.
  2:{ apply ChunkingProofs.nonempty_false in En. subst. split; constructor. }
  split.
  - apply Forall_forall. intros x Hx. apply filter_In in Hx as [Hx Hne].
    apply in_map_iff in Hx as [piece [<- Hp]].
    split; [exact (QueryProofs.nonempty_true _ Hne)|split; [apply strip_idem|]].
    pose proof (split_on_no_sep COMMA [] collection_ids (fun H => H)) as Hs.
    rewrite Forall_forall in Hs. specialize (Hs piece Hp).
    destruct (strip_infix piece) as [a [b [Hpc _]]].
    intro H. apply Hs. rewrite Hpc. apply in_or_app. right. apply in_or_app. left. exact H.
  - rewrite concat_filter_nonempty, filter_concat, map_map.
    rewrite (map_ext _ (filter id_char)).
    2:{ intro x. apply filter_strip. intros c Hc. unfold id_char, nsp. rewrite Hc. reflexivity. }
    rewrite <- filter_concat. unfold split_on. rewrite split_on_concat. cbn [app].
    induction collection_ids as [|c t IH]; [reflexivity|]. cbn [filter].
    destruct (Z.eqb c COMMA) eqn:Ec; cbn [negb].
    + unfold id_char at 2. rewrite Ec, andb_false_r.
      destruct t as [|d t']; [reflexivity|]. apply IH. reflexivity.
    + cbn [filter]. destruct (id_char c); [f_equal|];
        (destruct t as [|d t']; [reflexivity|apply IH; reflexivity]).
Qed.

End AuthProofs.


(** * Proofs: the file-type dispatch of [extract_text] *)

Module ExtractProofs.

Import Chunking Text.

Lemma teqb_iff a b : teqb a b = true <-> a = b.
Proof. unfold teqb. destruct (list_eq_dec Z.eq_dec a b); split; congruence. Qed.

Lemma take_until_dot_split r :
  exists rest, r = take_until_dot r ++ rest /\ ~ In 46%Z (take_until_dot r) /\
               (rest = [] \/ exists r', rest = 46%Z :: r').
Proof.
  induction r as [|c t IH]; [exists []; split; [reflexivity|split; [intros []|left; reflexivity]]|].
  cbn [take_until_dot]. destruct (Z.eqb c 46) eqn:E.
  - apply Z.eqb_eq in E. subst. exists (46%Z :: t).
    split; [reflexivity|split; [intros []|right; exists t; reflexivity]].
  - destruct IH as [rest [Ht [Hn Hr]]]. exists rest.
    split; [cbn [app]; rewrite <- Ht; reflexivity|split; [|exact Hr]].
    intros [H|H]; [subst; rewrite Z.eqb_refl in E; discriminate|contradiction].
Qed.

(** [name.rsplit(".", 1)[-1]] is the part after the last [.], or the whole
    name when it has no [.]. *)
Lemma rsplit_dot_last_split s :
  ~ In 46%Z (rsplit_dot_last s) /\
  ((s = rsplit_dot_last s /\ ~ In 46%Z s) \/
   exists pre, s = pre ++ [46%Z] ++ rsplit_dot_last s).
Proof.
  unfold rsplit_dot_last. destruct (take_until_dot_split (rev s)) as [rest [Hs [Hn Hr]]].
  split; [intro H; apply in_rev in H; contradiction|].
  assert (Hs' : s = rev rest ++ rev (take_until_dot (rev s)))
    by (rewrite <- rev_app_distr, <- Hs, rev_involutive; reflexivity).
  destruct Hr as [->|[r' ->]].
  - left. cbn [rev app] in Hs'. split; [exact Hs'|].
    rewrite Hs'. intro H. apply in_rev in H. contradiction.
  - right. exists (rev r'). rewrite Hs' at 1. cbn [rev]. rewrite <- app_assoc. reflexivity.
Qed.

Section Dispatch.

Variable bytes : Type.
Variable lower : text -> text.
Variable pdf_reader : bytes -> option (list (option text)).
Variable docx_reader : bytes -> option (list text).
Variable decode_utf8 : bytes -> text.

Definition supported_extensions : list text :=
  [lit "pdf"; lit "docx"; lit "doc"; lit "md"; lit "txt"; lit "html"].

Lemma in_teqb ext l : In ext l -> existsb (teqb ext) l = true.
Proof. intro H. apply existsb_exists. exists ext. split; [exact H|apply teqb_iff; reflexivity]. Qed.

(** X19: [extract_text] dispatches on the lower-cased file name's part
    after its last [.] (the whole lower-cased name when it has no [.]); it
    raises [ValueError("Unsupported file type: " + ext)] exactly when that
    extension is none of pdf, docx, doc, md, txt, html. Any other exception
    is one a reader library raises: PyPDF2 for a pdf, python-docx for a
    docx or doc; an md, txt or html upload raises nothing. *)
Theorem X19_extract_text_dispatch (file_bytes : bytes) (filename : text) :
  let ext := rsplit_dot_last (lower filename) in
  let res := extract_text bytes lower pdf_reader docx_reader decode_utf8 file_bytes filename in
  ~ In 46%Z ext /\
  ((lower filename = ext /\ ~ In 46%Z (lower filename)) \/
   exists pre, lower filename = pre ++ [46%Z] ++ ext) /\
  (res = inl (ValueError (lit "Unsupported file type: " ++ ext)) <->
   ~ In ext supported_extensions) /\
  (forall e, res = inl e ->
     e = ValueError (lit "Unsupported file type: " ++ ext) \/
     (e = PdfReaderError /\ ext = lit "pdf" /\ pdf_reader file_bytes = None) \/
     (e = DocxReaderError /\ (ext = lit "docx" \/ ext = lit "doc") /\
      docx_reader file_bytes = None)) /\
  (In ext [lit "md"; lit "txt"; lit "html"] -> exists r, res = inr r).
Proof.
  intros ext res. destruct (rsplit_dot_last_split (lower filename)) as [H1 H2].
  split; [exact H1|split; [exact H2|]].
  unfold res, extract_text. fold ext. unfold supported_extensions.
  assert (NotIn : forall l, In ext l -> existsb (teqb ext) l = false -> False)
    by (intros l H E; rewrite (in_teqb _ _ H) in E; discriminate).
  destruct (teqb ext (lit "pdf")) eqn:E1.
  { apply teqb_iff in E1.
    assert (Hs : ~ ~ In ext supported_extensions)
      by (intro H; apply H; left; symmetry; exact E1).
    destruct (pdf_reader file_bytes) as [raw|] eqn:P.
    - split; [split; [discriminate|intro H; contradiction]|].
      split; [intros e He; discriminate|intros _; eexists; reflexivity].
    - split; [split; [discriminate|intro H; contradiction]|].
      split; [intros e He; injection He as <-; right; left; split; [reflexivity|split; [exact E1|reflexivity]]|].
      intro H. exfalso. apply (NotIn _ H). rewrite E1. reflexivity. }
  destruct (teqb ext (lit "docx") || teqb ext (lit "doc")) eqn:E2.
  { assert (E2' : ext = lit "docx" \/ ext = lit "doc")
      by (apply orb_true_iff in E2 as [E|E]; apply teqb_iff in E; auto).
    assert (Hs : ~ ~ In ext supported_extensions)
      by (intro H; apply H; unfold supported_extensions; destruct E2' as [E|E]; rewrite E;
          cbn [In]; auto).
    assert (Nm : ~ In ext [lit "md"; lit "txt"; lit "html"])
      by (intro H; destruct E2' as [E|E]; apply (NotIn _ H); rewrite E; reflexivity).
    destruct (docx_reader file_bytes) as [paras|] eqn:P.
    - split; [split; [discriminate|intro H; contradiction]|].
      split; [intros e He; discriminate|intros _; eexists; reflexivity].
    - split; [split; [discriminate|intro H; contradiction]|].
      split; [intros e He; injection He as <-; right; right; split; [reflexivity|split; [exact E2'|reflexivity]]|].
      intro H. contradiction. }
  destruct (teqb ext (lit "md") || teqb ext (lit "txt") || teqb ext (lit "html")) eqn:E3.
  { assert (Hs : ~ ~ In ext supported_extensions).
    { intro H. apply H. apply orb_true_iff in E3 as [E3|E]; [apply orb_true_iff in E3 as [E|E]|];
        apply teqb_iff in E; rewrite E; unfold supported_extensions; cbn [In]; auto 7. }
    split; [split; [discriminate|intro H; contradiction]|].
    split; [intros e He; discriminate|intros _; eexists; reflexivity]. }
  assert (Hn : ~ In ext [lit "pdf"; lit "docx"; lit "doc"; lit "md"; lit "txt"; lit "html"]).
  { intro Hin. apply (NotIn _ Hin). cbn [existsb].
    rewrite E1. apply orb_false_iff in E2 as [-> ->]. cbn [orb].
    apply orb_false_iff in E3 as [E3 ->]. apply orb_false_iff in E3 as [-> ->]. reflexivity. }
  split; [split; [intros _; exact Hn|intros _; reflexivity]|].
  split; [intros e He; injection He as <-; left; reflexivity|].
  intro H. exfalso. apply (NotIn _ H). cbn [existsb].
  apply orb_false_iff in E3 as [E3 ->]. apply orb_false_iff in E3 as [-> ->]. reflexivity.
Qed.

End Dispatch.

(** A legacy binary Word file named [report.doc]: python-docx cannot open
    it, and [extract_text] raises the reader's exception. *)
Lemma X19_extract_text_dispatch_witness :
  let e := extract_text unit (fun x => x) (fun _ => None) (fun _ => None) (fun _ => [])
             tt (lit "report.doc") in
  e = inl DocxReaderError /\
  (DocxReaderError = ValueError (lit "Unsupported file type: " ++ rsplit_dot_last (lit "report.doc")) \/
   (DocxReaderError = PdfReaderError /\ rsplit_dot_last (lit "report.doc") = lit "pdf" /\
    (None : option (list (option text))) = None) \/
   (DocxReaderError = DocxReaderError /\
    (rsplit_dot_last (lit "report.doc") = lit "docx" \/ rsplit_dot_last (lit "report.doc") = lit "doc") /\
    (None : option (list text)) = None)).
Proof.
  intro e. assert (He : e = inl DocxReaderError) by reflexivity.
  split; [exact He|].
  exact (proj1 (proj2 (proj2 (proj2 (X19_extract_text_dispatch unit (fun x => x) (fun _ => None)
           (fun _ => None) (fun _ => []) tt (lit "report.doc"))))) _ He).
Defined.


End ExtractProofs.
